(** * PromisePool: a bounded-concurrency promise scheduler

    Shallow embedding of [packages/promises/src/utils.ts] (class
    [PromisePool], the factory [pool], the wrappers [parallel] and [serie]
    and the helper [timeout]) and verification of its ordering,
    concurrency-cap, error-handling and event properties.

    Modelling conventions.
    - A JavaScript [number] used as a concurrency cap is an integer or
      [+Infinity] (type [number]); fractional caps and NaN are outside
      the model.
    - Promises and listener callbacks are compared by object identity in
      the source ([indexOf], [Map] keys); they are natural-number
      identities here.  A task generator is modelled by the promise it
      returns when the pool calls it.
    - User code (generators, listeners, the verbose sink) neither throws
      nor calls back into the pool while it runs.
    - The host's run-to-completion execution is a sequence of [action]s:
      API calls and runs of the [then]/[catch] continuations that
      [runNext] registered.
    - [emitted], [called] and [diagnostics] record what the pool does to
      the outside: the calls of [#emit], the listener calls, and the
      messages sent to the verbose sink and to the console.
    - The wrappers [parallel] and [serie] build a pool, fill it and close
      it at once; the pool stays out of reach of their caller.  The helper
      [timeout] is a small state machine of its own (module [Timeout]).
      The helpers [wait] and [unsync], two calls of [setTimeout], are not
      part of the development. *)

From Stdlib Require Import ZArith Lia.
From stdpp Require Import base decidable option list gmap strings pretty.

(** ** JavaScript numbers used as caps *)

Inductive number := Fin (z : Z) | Infinity.

(** [n < m], [n >= m] and [n == m - 1] for an array length [n]. *)
Definition length_lt (n : nat) (m : number) : bool :=
  match m with Fin z => (Z.of_nat n <? z)%Z | Infinity => true end.

Definition length_ge (n : nat) (m : number) : bool :=
  match m with Fin z => (z <=? Z.of_nat n)%Z | Infinity => false end.

Definition length_eq_pred (n : nat) (m : number) : bool :=
  match m with Fin z => (Z.of_nat n =? z - 1)%Z | Infinity => false end.

(** Truthiness of a number: [0] is falsy. *)
Definition truthy (m : number) : bool :=
  match m with Fin z => negb (z =? 0)%Z | Infinity => true end.

(** ** Identities, events, options *)

Definition Promise := nat.
Definition callback := nat.

(** [PromiseFunction]: the field is the promise the generator returns when
    the pool calls it. *)
Record PromiseFunction := { generate : Promise }.

Record QueuedPromise := { generator : PromiseFunction; index : nat }.

Definition DEFAULT_CONCURRENCY : number := Fin 10.
Definition DEFAULT_NAME : string := "pool"%string.

Inductive POOL_EVENT_TYPE := Estart | Efull | Enext | Eclose | Eavailable.

#[global] Instance POOL_EVENT_TYPE_eq_dec : EqDecision POOL_EVENT_TYPE.
Proof. solve_decision. Defined.

#[global] Instance POOL_EVENT_TYPE_countable : Countable POOL_EVENT_TYPE.
Proof.
  refine (inj_countable'
    (fun t => match t with
              | Estart => 0 | Efull => 1 | Enext => 2 | Eclose => 3
              | Eavailable => 4 end)
    (fun n => match n with
              | 0 => Estart | 1 => Efull | 2 => Enext | 3 => Eclose
              | _ => Eavailable end) _).
  by intros [].
Defined.

Definition event_name (t : POOL_EVENT_TYPE) : string :=
  match t with
  | Estart => "start" | Efull => "full" | Enext => "next"
  | Eclose => "close" | Eavailable => "available"
  end%string.

(** Keys of [VERBOSE_LEVELS]. *)
Inductive level := Ldebug | Linfo | Lwarn | Lerror.

(** The [verbose] option: a boolean (console sink) or a callback. *)
Inductive verbose_option := VerboseBool (b : bool) | VerboseFn.

Record PoolOptions := {
  concurrency : number;
  opt_name : option string;
  rejectOnError : option bool;
  autoStart : option bool;
  opt_verbose : option verbose_option;
}.

(** Where a diagnostic went: the caller's sink or the console. *)
Inductive sink := UserSink | Console.

(** ** JavaScript containers *)

(** [a[i] = x] on an array with holes: in range it overwrites, out of
    range it extends the array, leaving holes in between. *)
Definition array_set {A} (a : list (option A)) (i : nat) (x : A)
  : list (option A) :=
  if decide (i < length a) then <[i := Some x]> a
  else a ++ replicate (i - length a) None ++ [Some x].

(** [a.indexOf(p)]: the first position of [p], [None] for [-1]. *)
Fixpoint indexOf (p : Promise) (a : list Promise) : option nat :=
  match a with
  | [] => None
  | q :: a' => if decide (q = p) then Some 0 else S <$> indexOf p a'
  end.

(** A JavaScript [Map<() => void, boolean>]: insertion-ordered, [set] on a
    present key replaces the value where the key stands. *)
Abbreviation Map := (list (callback * bool)).

Fixpoint Map_set (cb : callback) (once : bool) (m : Map) : Map :=
  match m with
  | [] => [(cb, once)]
  | (k, v) :: m' =>
      if decide (k = cb) then (k, once) :: m' else (k, v) :: Map_set cb once m'
  end.

Definition Map_delete (cb : callback) (m : Map) : Map :=
  filter (fun e => e.1 ≠ cb) m.

(** ** The pool *)

Section Pool.

Context {any : Type}.

Local Open Scope string_scope.
Local Open Scope list_scope.
Local Open Scope nat_scope.

(** What a result slot holds: a task's value, or the [PoolErrorImpl]
    built for a rejected task. *)
Inductive slot := Value (v : any) | PoolErrorImpl (message : string) (catched : any).

(** State of the pool's own promise ([#promise] with [#resolve] and
    [#reject]). *)
Inductive promise_state :=
  | Pending
  | Fulfilled (v : list (option slot))
  | Rejected (e : any).

Inductive log_arg := Str (s : string) | Obj (a : any).

Record PromisePool := {
  size : number;
  name : string;
  options : option PoolOptions;
  currentIndex : nat;
  running : list Promise;
  enqueued : list QueuedPromise;
  result : list (option slot);
  isStarted : bool;
  isClosed : bool;
  isResolved : bool;
  promise : promise_state;
  listeners : gmap POOL_EVENT_TYPE Map;
  (* host side: continuations registered with then/catch, as
     (promise, captured index), and the effects seen from outside *)
  reactions : list (Promise * nat);
  emitted : list POOL_EVENT_TYPE;
  called : list (callback * nat);
  diagnostics : list (sink * level * list log_arg);
}.

(** Field assignments ([this.f = x]). *)

Definition set_currentIndex (x : nat) (s : PromisePool) : PromisePool :=
  {| size := size s; name := name s; options := options s;
     currentIndex := x; running := running s; enqueued := enqueued s;
     result := result s; isStarted := isStarted s; isClosed := isClosed s;
     isResolved := isResolved s; promise := promise s;
     listeners := listeners s; reactions := reactions s;
     emitted := emitted s; called := called s;
     diagnostics := diagnostics s |}.

Definition set_running (x : list Promise) (s : PromisePool) : PromisePool :=
  {| size := size s; name := name s; options := options s;
     currentIndex := currentIndex s; running := x; enqueued := enqueued s;
     result := result s; isStarted := isStarted s; isClosed := isClosed s;
     isResolved := isResolved s; promise := promise s;
     listeners := listeners s; reactions := reactions s;
     emitted := emitted s; called := called s;
     diagnostics := diagnostics s |}.

Definition set_enqueued (x : list QueuedPromise) (s : PromisePool) : PromisePool :=
  {| size := size s; name := name s; options := options s;
     currentIndex := currentIndex s; running := running s; enqueued := x;
     result := result s; isStarted := isStarted s; isClosed := isClosed s;
     isResolved := isResolved s; promise := promise s;
     listeners := listeners s; reactions := reactions s;
     emitted := emitted s; called := called s;
     diagnostics := diagnostics s |}.

Definition set_result (x : list (option slot)) (s : PromisePool) : PromisePool :=
  {| size := size s; name := name s; options := options s;
     currentIndex := currentIndex s; running := running s;
     enqueued := enqueued s; result := x; isStarted := isStarted s;
     isClosed := isClosed s; isResolved := isResolved s;
     promise := promise s; listeners := listeners s;
     reactions := reactions s; emitted := emitted s; called := called s;
     diagnostics := diagnostics s |}.

Definition set_isStarted (x : bool) (s : PromisePool) : PromisePool :=
  {| size := size s; name := name s; options := options s;
     currentIndex := currentIndex s; running := running s;
     enqueued := enqueued s; result := result s; isStarted := x;
     isClosed := isClosed s; isResolved := isResolved s;
     promise := promise s; listeners := listeners s;
     reactions := reactions s; emitted := emitted s; called := called s;
     diagnostics := diagnostics s |}.

Definition set_isClosed (x : bool) (s : PromisePool) : PromisePool :=
  {| size := size s; name := name s; options := options s;
     currentIndex := currentIndex s; running := running s;
     enqueued := enqueued s; result := result s; isStarted := isStarted s;
     isClosed := x; isResolved := isResolved s; promise := promise s;
     listeners := listeners s; reactions := reactions s;
     emitted := emitted s; called := called s;
     diagnostics := diagnostics s |}.

Definition set_isResolved (x : bool) (s : PromisePool) : PromisePool :=
  {| size := size s; name := name s; options := options s;
     currentIndex := currentIndex s; running := running s;
     enqueued := enqueued s; result := result s; isStarted := isStarted s;
     isClosed := isClosed s; isResolved := x; promise := promise s;
     listeners := listeners s; reactions := reactions s;
     emitted := emitted s; called := called s;
     diagnostics := diagnostics s |}.

Definition set_promise (x : promise_state) (s : PromisePool) : PromisePool :=
  {| size := size s; name := name s; options := options s;
     currentIndex := currentIndex s; running := running s;
     enqueued := enqueued s; result := result s; isStarted := isStarted s;
     isClosed := isClosed s; isResolved := isResolved s; promise := x;
     listeners := listeners s; reactions := reactions s;
     emitted := emitted s; called := called s;
     diagnostics := diagnostics s |}.

Definition set_listeners (x : gmap POOL_EVENT_TYPE Map) (s : PromisePool) : PromisePool :=
  {| size := size s; name := name s; options := options s;
     currentIndex := currentIndex s; running := running s;
     enqueued := enqueued s; result := result s; isStarted := isStarted s;
     isClosed := isClosed s; isResolved := isResolved s;
     promise := promise s; listeners := x; reactions := reactions s;
     emitted := emitted s; called := called s;
     diagnostics := diagnostics s |}.

Definition set_reactions (x : list (Promise * nat)) (s : PromisePool) : PromisePool :=
  {| size := size s; name := name s; options := options s;
     currentIndex := currentIndex s; running := running s;
     enqueued := enqueued s; result := result s; isStarted := isStarted s;
     isClosed := isClosed s; isResolved := isResolved s;
     promise := promise s; listeners := listeners s; reactions := x;
     emitted := emitted s; called := called s;
     diagnostics := diagnostics s |}.

Definition set_emitted (x : list POOL_EVENT_TYPE) (s : PromisePool) : PromisePool :=
  {| size := size s; name := name s; options := options s;
     currentIndex := currentIndex s; running := running s;
     enqueued := enqueued s; result := result s; isStarted := isStarted s;
     isClosed := isClosed s; isResolved := isResolved s;
     promise := promise s; listeners := listeners s;
     reactions := reactions s; emitted := x; called := called s;
     diagnostics := diagnostics s |}.

Definition set_called (x : list (callback * nat)) (s : PromisePool) : PromisePool :=
  {| size := size s; name := name s; options := options s;
     currentIndex := currentIndex s; running := running s;
     enqueued := enqueued s; result := result s; isStarted := isStarted s;
     isClosed := isClosed s; isResolved := isResolved s;
     promise := promise s; listeners := listeners s;
     reactions := reactions s; emitted := emitted s; called := x;
     diagnostics := diagnostics s |}.

Definition set_diagnostics (x : list (sink * level * list log_arg)) (s : PromisePool) : PromisePool :=
  {| size := size s; name := name s; options := options s;
     currentIndex := currentIndex s; running := running s;
     enqueued := enqueued s; result := result s; isStarted := isStarted s;
     isClosed := isClosed s; isResolved := isResolved s;
     promise := promise s; listeners := listeners s;
     reactions := reactions s; emitted := emitted s; called := called s;
     diagnostics := x |}.

(** ** Methods *)

(** [verbose(level, ...args)]: nothing unless the [verbose] option is
    truthy; a callback option receives the message, [true] sends it to the
    console. *)
Definition verbose_out (o : option PoolOptions) (lv : level)
    (args : list log_arg) : list (sink * level * list log_arg) :=
  match o ≫= opt_verbose with
  | Some VerboseFn => [(UserSink, lv, args)]
  | Some (VerboseBool true) => [(Console, lv, args)]
  | _ => []
  end.

Definition verbose (lv : level) (args : list log_arg) (s : PromisePool)
  : PromisePool :=
  set_diagnostics (diagnostics s ++ verbose_out (options s) lv args) s.

(** [cb()]: the call is recorded with the value the [running] getter has
    while the callback runs. *)
Definition invoke (cb : callback) (s : PromisePool) : PromisePool :=
  set_called (called s ++ [(cb, length (running s))]) s.

(** The [for ... of] loop of [#emit] over the entries of the map. *)
Fixpoint emit_loop (type : POOL_EVENT_TYPE) (entries : Map) (s : PromisePool)
  : PromisePool :=
  match entries with
  | [] => s
  | (cb, once) :: rest =>
      let s := invoke cb s in
      let s := if once
               then set_listeners (alter (Map_delete cb) type (listeners s)) s
               else s in
      emit_loop type rest s
  end.

(** [#emit(type)]; every call is recorded in [emitted]. *)
Definition emit (type : POOL_EVENT_TYPE) (s : PromisePool) : PromisePool :=
  let s := set_emitted (emitted s ++ [type]) s in
  match listeners s !! type with
  | Some entries =>
      let s := verbose Ldebug [Str ("emit " +:+ event_name type)] s in
      emit_loop type entries s
  | None => s
  end.

Definition on (type : POOL_EVENT_TYPE) (cb : callback) (s : PromisePool)
  : PromisePool :=
  set_listeners
    (<[type := Map_set cb false (default [] (listeners s !! type))]>
       (listeners s)) s.

Definition once (type : POOL_EVENT_TYPE) (cb : callback) (s : PromisePool)
  : PromisePool :=
  set_listeners
    (<[type := Map_set cb true (default [] (listeners s !! type))]>
       (listeners s)) s.

(** [new PromisePool(options)]. *)
Definition new_PromisePool (opts : option PoolOptions) : PromisePool :=
  {| size := match opts with
             | Some o => if truthy (concurrency o) then concurrency o
                         else DEFAULT_CONCURRENCY
             | None => DEFAULT_CONCURRENCY
             end;
     name := match opts ≫= opt_name with
             | Some n => if decide (n = "") then DEFAULT_NAME else n
             | None => DEFAULT_NAME
             end;
     options := opts;
     currentIndex := 0; running := []; enqueued := []; result := [];
     isStarted := false; isClosed := false; isResolved := false;
     promise := Pending; listeners := ∅;
     reactions := []; emitted := []; called := []; diagnostics := [] |}.

(** [this.#resolve(v)] and [this.#reject(e)]: a promise settles once. *)
Definition resolve (v : list (option slot)) (s : PromisePool) : PromisePool :=
  match promise s with
  | Pending => set_promise (Fulfilled v) s
  | _ => s
  end.

Definition reject (e : any) (s : PromisePool) : PromisePool :=
  match promise s with
  | Pending => set_promise (Rejected e) s
  | _ => s
  end.

(** The [while] loop of [runNext]; [q] is [this.#enqueued] on entry.  The
    generator call yields [nextPromise]; [then]/[catch] register the
    continuation that carries [nextQueuedPromise.index]. *)
Fixpoint launch (q : list QueuedPromise) (s : PromisePool) (added : nat)
  : PromisePool * nat :=
  match q with
  | [] => (s, added)
  | nextQueuedPromise :: rest =>
      if length_lt (length (running s)) (size s) then
        let s := set_enqueued rest s in
        let s := verbose Linfo
          [Str ("run promise " +:+ pretty (index nextQueuedPromise))] s in
        let nextPromise := generate (generator nextQueuedPromise) in
        let s := set_reactions
          (reactions s ++ [(nextPromise, index nextQueuedPromise)]) s in
        let s := set_running (running s ++ [nextPromise]) s in
        launch rest s (S added)
      else (s, added)
  end.

Definition runNext (s : PromisePool) : PromisePool :=
  if isStarted s then
    match enqueued s with
    | _ :: _ =>
        let '(s, added) := launch (enqueued s) s 0 in
        if length_ge (length (running s)) (size s) then
          match added with
          | 0 => s
          | S _ => emit Efull s
          end
        else s
    | [] =>
        match running s with
        | [] =>
            if isClosed s then
              let s := verbose Linfo [Str "no more queue: done"] s in
              let s := set_isResolved true s in
              resolve (result s) s
            else verbose Linfo [Str "waiting for new promises or close"] s
        | _ :: _ =>
            let s := if length_eq_pred (length (running s)) (size s)
                     then emit Eavailable s else s in
            verbose Linfo
              [Str (pretty (length (running s)) +:+ " promises still running")]
              s
        end
    end
  else s.

Definition start (s : PromisePool) : PromisePool :=
  let s := if isStarted s then s
           else
             let s := emit Estart s in
             let s := verbose Linfo [Str "start pool"] s in
             set_isStarted true s in
  runNext s.

(** [enqueue]: [inl message] is the thrown [Error]. *)
Definition enqueue (promiseGenerator : PromiseFunction) (s : PromisePool)
  : string + PromisePool :=
  if isClosed s then
    inl ("[" +:+ name s +:+ "] PromisePool already closed")
  else if isResolved s then
    inl ("[" +:+ name s +:+ "] PromisePool already performed")
  else
    let s := verbose Linfo
      [Str ("enqueue promise@" +:+ pretty (currentIndex s))] s in
    let s := set_enqueued
      (enqueued s ++
         [{| generator := promiseGenerator; index := currentIndex s |}]) s in
    let s := set_currentIndex (S (currentIndex s)) s in
    inr (if default true (options s ≫= autoStart) && negb (isStarted s)
         then start s
         else if isStarted s then runNext s else s).

Definition promiseDone (p : Promise) (res : any) (index : nat)
    (s : PromisePool) : PromisePool :=
  if isResolved s then s
  else
    match indexOf p (running s) with
    | Some promiseIndex =>
        let s := set_running (delete promiseIndex (running s)) s in
        let s := set_result (array_set (result s) index (Value res)) s in
        let s := verbose Linfo
          [Str ("promise@" +:+ pretty index +:+ " done")] s in
        let s := emit Enext s in
        runNext s
    | None => verbose Lwarn [Str "unknown promise resolved"] s
    end.

Definition promiseRejected (p : Promise) (err : any) (index : nat)
    (s : PromisePool) : PromisePool :=
  if isResolved s then s
  else
    match indexOf p (running s) with
    | Some promiseIndex =>
        let s := set_running (delete promiseIndex (running s)) s in
        let s := set_result
          (array_set (result s) index
             (PoolErrorImpl ("Promise " +:+ pretty index +:+ " was rejected")
                err)) s in
        let s :=
          if default false (options s ≫= rejectOnError) then
            let s := set_isResolved true s in
            reject err s
          else
            (* console.error(...) *)
            let s := set_diagnostics
              (diagnostics s ++ [(Console, Lerror, [Obj err])]) s in
            let s := emit Enext s in
            runNext s in
        verbose Lerror
          [Str ("promise@" +:+ pretty index +:+ " error"); Obj err] s
    | None => verbose Lwarn [Str "unknown promise error"] s
    end.

(** [close()]; the promise it returns is the field [promise]. *)
Definition close (s : PromisePool) : PromisePool :=
  let s := verbose Linfo [Str "close pool"] s in
  let s := set_isClosed true s in
  start s.

(** [pool(concurrency = 10, options)]: [options] lacks [concurrency]; the
    field of the argument is overwritten. *)
Definition pool (c : option number) (opts : option PoolOptions)
  : PromisePool :=
  new_PromisePool
    (Some {| concurrency := default (Fin 10) c;
             opt_name := opts ≫= opt_name;
             rejectOnError := opts ≫= rejectOnError;
             autoStart := opts ≫= autoStart;
             opt_verbose := opts ≫= opt_verbose |}).

(** ** Executions *)

(** How a launched task ends. *)
Inductive outcome := Resolves (v : any) | Rejects (e : any).

(** One turn of the host: an API call, or the run of the continuation
    registered on [p]. *)
Inductive action :=
  | Astart
  | Aenqueue (g : PromiseFunction)
  | Aclose
  | Aon (type : POOL_EVENT_TYPE) (cb : callback)
  | Aonce (type : POOL_EVENT_TYPE) (cb : callback)
  | Asettle (p : Promise) (o : outcome).

(** What the turn showed: a normal return, an admission with its index,
    the error thrown by [enqueue], or the continuation that ran. *)
Inductive observation :=
  | Returned
  | Accepted (i : nat) (g : PromiseFunction)
  | Thrown (message : string)
  | Ran (p : Promise) (i : nat) (o : outcome).

(** The first continuation registered on [p], and the others. *)
Fixpoint take_reaction (p : Promise) (rs : list (Promise * nat))
  : option (nat * list (Promise * nat)) :=
  match rs with
  | [] => None
  | (q, i) :: rs' =>
      if decide (q = p) then Some (i, rs')
      else '(j, rest) ← take_reaction p rs'; Some (j, (q, i) :: rest)
  end.

(** [None]: the turn cannot happen (no continuation waits on [p]). *)
Definition step (a : action) (s : PromisePool)
  : option (PromisePool * observation) :=
  match a with
  | Astart => Some (start s, Returned)
  | Aenqueue g =>
      match enqueue g s with
      | inl message => Some (s, Thrown message)
      | inr s' => Some (s', Accepted (currentIndex s) g)
      end
  | Aclose => Some (close s, Returned)
  | Aon type cb => Some (on type cb s, Returned)
  | Aonce type cb => Some (once type cb s, Returned)
  | Asettle p o =>
      '(i, rest) ← take_reaction p (reactions s);
      let s := set_reactions rest s in
      Some (match o with
            | Resolves v => promiseDone p v i s
            | Rejects e => promiseRejected p e i s
            end, Ran p i o)
  end.

Fixpoint run (tr : list action) (s : PromisePool)
  : option (PromisePool * list observation) :=
  match tr with
  | [] => Some (s, [])
  | a :: tr' =>
      '(s1, ob) ← step a s;
      '(s2, obs) ← run tr' s1;
      Some (s2, ob :: obs)
  end.

End Pool.

(** ** The wrappers [parallel] and [serie] *)

Section Wrappers.

Context {any : Type}.

(** The promise a wrapper returns: [Promise.resolve(v)], or the promise of
    the pool it built, given here with that pool. *)
Inductive returned :=
  | Resolved_with (v : list (option (@slot any)))
  | Promise_of (s : @PromisePool any).

(** [for (const cmd of commands) parallelPool.enqueue(cmd)]; [inl] is the
    error an [enqueue] throws. *)
Fixpoint enqueue_each (commands : list PromiseFunction)
    (s : @PromisePool any) : string + @PromisePool any :=
  match commands with
  | [] => inr s
  | cmd :: rest =>
      match enqueue cmd s with
      | inl message => inl message
      | inr s' => enqueue_each rest s'
      end
  end.

(** [parallel(commands, options)].  [options] is a [PoolOptions], which
    has its own [concurrency]: in [{ concurrency: Infinity, ...options }]
    it replaces [Infinity]. *)
Definition parallel (commands : list PromiseFunction)
    (options : option PoolOptions) : string + returned :=
  match commands with
  | [] => inr (Resolved_with [])
  | _ :: _ =>
      let parallelPool :=
        new_PromisePool
          (Some match options with
                | Some o => o
                | None => {| concurrency := Infinity; opt_name := None;
                             rejectOnError := None; autoStart := None;
                             opt_verbose := None |}
                end) in
      match enqueue_each commands parallelPool with
      | inl message => inl message
      | inr s => inr (Promise_of (close s))
      end
  end.

(** [serie(commands, options)]: [options] lacks [concurrency]; the field
    of the argument is overwritten with [1]. *)
Definition serie (commands : list PromiseFunction)
    (options : option PoolOptions) : string + returned :=
  match commands with
  | [] => inr (Resolved_with [])
  | _ :: _ =>
      let parallelPool :=
        new_PromisePool
          (Some {| concurrency := Fin 1;
                   opt_name := options ≫= opt_name;
                   rejectOnError := options ≫= rejectOnError;
                   autoStart := options ≫= autoStart;
                   opt_verbose := options ≫= opt_verbose |}) in
      match enqueue_each commands parallelPool with
      | inl message => inl message
      | inr s => inr (Promise_of (close s))
      end
  end.

End Wrappers.

(** ** [timeout]

    [timeout(p, delay)] sets a timer and registers a continuation on [p].
    What follows is a sequence of events: the timer callback runs, or [p]
    settles.  [clearTimeout] keeps a cleared timer from firing; the length
    of [delay] plays no other part. *)

Module Timeout.

Section Timeout.

Context {T any : Type}.

(** What the promise is rejected with: the [Error] built by the timer
    callback, or nothing ([rej()]). *)
Inductive reason := TimedOut (message : string) | Undefined.

Inductive promise_state :=
  | Pending
  | Fulfilled (v : T)
  | Rejected (r : reason).

Record state := {
  isTooLate : bool;
  isResolved : bool;
  (* the timer [to] is set: neither fired nor cleared *)
  timer : bool;
  (* the continuation given to [p.then] has not run and [p] is pending *)
  watching : bool;
  promise : promise_state;
}.

(** [res(v)] and [rej(r)] of the promise being built. *)
Definition res (v : T) (s : state) : state :=
  match promise s with
  | Pending =>
      {| isTooLate := isTooLate s; isResolved := isResolved s;
         timer := timer s; watching := watching s; promise := Fulfilled v |}
  | _ => s
  end.

Definition rej (r : reason) (s : state) : state :=
  match promise s with
  | Pending =>
      {| isTooLate := isTooLate s; isResolved := isResolved s;
         timer := timer s; watching := watching s; promise := Rejected r |}
  | _ => s
  end.

(** The state once [timeout(p, delay)] has returned. *)
Definition timeout : state :=
  {| isTooLate := false; isResolved := false; timer := true;
     watching := true; promise := Pending |}.

(** The callback given to [setTimeout]. *)
Definition on_timer (s : state) : state :=
  let s := {| isTooLate := isTooLate s; isResolved := isResolved s;
              timer := false; watching := watching s;
              promise := promise s |} in
  if isResolved s then s
  else
    let s := {| isTooLate := true; isResolved := isResolved s;
                timer := false; watching := watching s;
                promise := promise s |} in
    rej (TimedOut "Promise timed out") s.

(** The callback given to [p.then]. *)
Definition on_value (v : T) (s : state) : state :=
  let s := {| isTooLate := isTooLate s; isResolved := isResolved s;
              timer := timer s; watching := false; promise := promise s |} in
  if isTooLate s then rej Undefined s
  else
    let s := {| isTooLate := isTooLate s; isResolved := true;
                timer := false; watching := false; promise := promise s |} in
    res v s.

Inductive event :=
  | TimerFires
  | Fulfils (v : T)
  | Fails (e : any).

(** [None]: the event cannot happen (a cleared or fired timer does not
    fire, a settled [p] does not settle again).  [p.then] is given no
    rejection handler: when [p] fails no callback of [timeout] runs (what
    the host does with the rejection of the promise [then] returned, which
    nothing handles, is outside the model). *)
Definition step (ev : event) (s : state) : option state :=
  match ev with
  | TimerFires => if timer s then Some (on_timer s) else None
  | Fulfils v => if watching s then Some (on_value v s) else None
  | Fails _ =>
      if watching s
      then Some {| isTooLate := isTooLate s; isResolved := isResolved s;
                   timer := timer s; watching := false;
                   promise := promise s |}
      else None
  end.

Fixpoint run (evs : list event) (s : state) : option state :=
  match evs with
  | [] => Some s
  | ev :: evs' => s' ← step ev s; run evs' s'
  end.

End Timeout.

End Timeout.

(** * Vocabulary of the specification

    The predicates the statements and the invariants are written with. *)

Section Vocabulary.

Context {any : Type}.
Implicit Types s : @PromisePool any.
Implicit Types L obs : list (@observation any).

Local Open Scope string_scope.
Local Open Scope list_scope.
Local Open Scope nat_scope.

(** The fields that scheduling reads and writes. *)
Definition core s :=
  (size s, name s, options s, currentIndex s, running s, enqueued s,
   result s, isStarted s, isClosed s, isResolved s, promise s, reactions s).

(** The pool after a completion handler took the promise at position [n]
    out of [running] and wrote [x] at index [i]. *)
Definition recorded (n i : nat) (x : slot) s : PromisePool :=
  set_result (array_set (result s) i x)
    (set_running (delete n (running s)) s).

(** The continuation [runNext] registers for a queue entry. *)
Definition queued_reaction (e : QueuedPromise) : Promise * nat :=
  (generate (generator e), index e).

(** The emissions a pass adds to [emitted]. *)
Definition pass_full (k n : nat) (m : number) : list POOL_EVENT_TYPE :=
  if bool_decide (0 < k) && length_ge n m then [Efull] else [].

Definition pass_available (n : nat) (m : number) : list POOL_EVENT_TYPE :=
  if length_eq_pred n m then [Eavailable] else [].

(** What [runNext] does, branch by branch. *)
Inductive runNext_case s s' : Prop :=
  | RN_idle :
      isStarted s = false → s' = s → runNext_case s s'
  | RN_launch k :
      isStarted s = true → enqueued s ≠ [] → k ≤ length (enqueued s) →
      core s'
      = core (set_reactions
                (reactions s ++ (queued_reaction <$> take k (enqueued s)))
                (set_running
                   (running s ++ (queued_reaction <$> take k (enqueued s)).*1)
                   (set_enqueued (drop k (enqueued s)) s))) →
      (k < length (enqueued s) →
       length_lt (length (running s) + k) (size s) = false) →
      (∀ j, j < k → length_lt (length (running s) + j) (size s) = true) →
      emitted s'
      = emitted s ++ pass_full k (length (running s) + k) (size s) →
      runNext_case s s'
  | RN_resolve :
      isStarted s = true → enqueued s = [] → running s = [] →
      isClosed s = true →
      core s' = core (resolve (result s) (set_isResolved true s)) →
      emitted s' = emitted s →
      runNext_case s s'
  | RN_wait :
      isStarted s = true → enqueued s = [] → running s = [] →
      isClosed s = false →
      core s' = core s → emitted s' = emitted s →
      runNext_case s s'
  | RN_busy :
      isStarted s = true → enqueued s = [] → running s ≠ [] →
      core s' = core s →
      emitted s'
      = emitted s ++ pass_available (length (running s)) (size s) →
      runNext_case s s'.

(** The pool has cap [C], no more than [C] tasks are in flight, and no
    listener was ever called while more than [C] were. *)
Definition within_cap (C : Z) s : Prop :=
  size s = Fin C
  ∧ (Z.of_nat (length (running s)) ≤ C)%Z
  ∧ Forall (fun c => (Z.of_nat c.2 ≤ C)%Z) (called s).

(** The admissions of an execution, in order, each with the index it was
    given. *)
Definition admissions L : list (nat * PromiseFunction) :=
  omap (fun ob => match ob with Accepted i g => Some (i, g) | _ => None end) L.

(** The continuations that ran with captured index [i]: the promise each
    was registered on and the outcome it received. *)
Definition runs_of (i : nat) L : list (Promise * @outcome any) :=
  omap (fun ob => match ob with
                  | Ran p j o => if decide (j = i) then Some (p, o) else None
                  | _ => None
                  end) L.

(** What the result array is to hold for a task that ended with [o]. *)
Definition slot_of (i : nat) (o : @outcome any) : @slot any :=
  match o with
  | Resolves v => Value v
  | Rejects e => PoolErrorImpl ("Promise " +:+ pretty i +:+ " was rejected") e
  end.

Definition queue_entry (a : nat * PromiseFunction) : QueuedPromise :=
  {| generator := a.2; index := a.1 |}.

(** How many queue entries were launched so far. *)
Definition launched s : nat := currentIndex s - length (enqueued s).

Definition is_rejected s : bool :=
  match promise s with Rejected _ => true | _ => false end.

(** The bookkeeping invariant of a pool whose promise is not rejected.
    Indices are handed out in order; the queue is what is left of the
    admissions; every launched task either has its continuation waiting
    or has run once and left its outcome in its own slot. *)
Record ordered L s : Prop := {
  ord_admitted : (admissions L).*1 = seq 0 (currentIndex s);
  ord_queue : enqueued s = queue_entry <$> drop (launched s) (admissions L);
  ord_queue_len : length (enqueued s) ≤ currentIndex s;
  ord_running : running s = (reactions s).*1;
  ord_nodup : NoDup (reactions s).*2;
  ord_react : ∀ p i, (p, i) ∈ reactions s → i < launched s;
  ord_ran : ∀ p i o, Ran p i o ∈ L → i < launched s;
  ord_where : ∀ i g, admissions L !! i = Some (i, g) → i < launched s →
    ((generate g, i) ∈ reactions s ∧ runs_of i L = [])
    ∨ ((i ∉ (reactions s).*2)
       ∧ ∃ o, runs_of i L = [(generate g, o)]
              ∧ result s !! i = Some (Some (slot_of i o)));
  ord_result : length (result s) ≤ launched s;
  ord_settled :
    (promise s = Pending ∧ isResolved s = false)
    ∨ (promise s = Fulfilled (result s) ∧ isResolved s = true
       ∧ enqueued s = [] ∧ reactions s = []);
}.

(** The fields the bookkeeping speaks about. *)
Definition ledger s :=
  (currentIndex s, running s, enqueued s, result s, isResolved s, promise s,
   reactions s).

(** [rejectOnError] is absent or false. *)
Definition accumulate s : Prop :=
  default false (options s ≫= rejectOnError) = false.

(** The promise is never rejected, closing starts the pool, a started pool
    leaves nothing queued beside a free slot, and a closed pool with
    nothing queued and nothing running has resolved. *)
Record live s : Prop := {
  live_mode : accumulate s;
  live_promise : is_rejected s = false;
  live_started : isClosed s = true → isStarted s = true;
  live_full :
    isStarted s = true → enqueued s ≠ [] →
    length_lt (length (running s)) (size s) = false;
  live_done :
    isClosed s = true → enqueued s = [] → running s = [] →
    isResolved s = true;
}.

(** How many times [type] was emitted. *)
Definition emissions (type : POOL_EVENT_TYPE) s : nat :=
  length (filter (fun t => t = type) (emitted s)).

(** A [Map] holds each key once. *)
Definition wf_listeners s : Prop :=
  ∀ type m, listeners s !! type = Some m → NoDup m.*1.

(** [on] for a persistent registration, [once] for a one-shot one. *)
Definition register (one_shot : bool)
  : POOL_EVENT_TYPE → callback → @PromisePool any → @PromisePool any :=
  if one_shot then once else on.

(** The two errors [enqueue] throws; the source tells them apart by their
    message. *)
Definition PoolClosedError s : string :=
  "[" +:+ name s +:+ "] PromisePool already closed".

Definition PoolSettledError s : string :=
  "[" +:+ name s +:+ "] PromisePool already performed".

(** A pool whose cap is the negative [c] and that never launched
    anything. *)
Record inert (c : Z) s : Prop := {
  inert_size : size s = Fin c;
  inert_running : running s = [];
  inert_reactions : reactions s = [];
  inert_result : result s = [];
  inert_queue : length (enqueued s) = currentIndex s;
  inert_promise :
    promise s = Pending
    ∨ (promise s = Fulfilled [] ∧ enqueued s = [] ∧ isClosed s = true);
}.

(** Closing starts the pool, and a closed pool with an empty queue has
    resolved. *)
Record inert_closed s : Prop := {
  inert_started : isClosed s = true → isStarted s = true;
  inert_done : isClosed s = true → enqueued s = [] → promise s = Fulfilled [];
}.

End Vocabulary.

(** ** Concrete executions and the claims that fail as stated *)

Definition final_state {any} (tr : list (@action any)) opts
  : @PromisePool any :=
  match run tr (new_PromisePool opts) with
  | Some (s, _) => s
  | None => new_PromisePool opts
  end.

Definition observed {any} (tr : list (@action any)) opts
  : list (@observation any) :=
  match run tr (new_PromisePool opts) with
  | Some (_, obs) => obs
  | None => []
  end.

Definition plain_options (c : number) (fail_fast : option bool)
  : PoolOptions :=
  {| concurrency := c; opt_name := None; rejectOnError := fail_fast;
     autoStart := None; opt_verbose := None |}.

Definition options_with (c : number) (fail_fast : option bool)
  : option PoolOptions :=
  Some (plain_options c fail_fast).

Definition task (p : Promise) : PromiseFunction := {| generate := p |}.

(** Three tasks under cap 2 with a listener on [full]; the second task
    ends first, the third fails, the first ends last. *)
Definition out_of_order : list (@action nat) :=
  [Aon Efull 40;
   Aenqueue (task 10); Aenqueue (task 11); Aenqueue (task 12);
   Asettle 11 (Resolves 5); Aclose; Asettle 12 (Rejects 7);
   Asettle 10 (Resolves 1)].

(** A fail-fast pool after its first failure: settled, not closed. *)
Definition failed_fast : list (@action nat) :=
  [Aenqueue (task 10); Aenqueue (task 11); Asettle 10 (Rejects 7)].

(** Three tasks under cap 2: two in flight, one queued. *)
Definition one_queued : list (@action nat) :=
  [Aenqueue (task 10); Aenqueue (task 11); Aenqueue (task 12)].

(** Two tasks under cap 2, both in flight, nothing queued. *)
Definition two_running : list (@action nat) :=
  [Aenqueue (task 10); Aenqueue (task 11)].

(** One task under cap 1: the pool is full. *)
Definition one_running : list (@action nat) := [Aenqueue (task 10)].

(** C5 as stated: closed gives the closed error and settled gives the
    settled error. *)
Definition enqueue_guards_as_stated (any : Type) : Prop :=
  ∀ opts tr (s : @PromisePool any) obs g,
    run tr (new_PromisePool opts) = Some (s, obs) →
    (isClosed s = true →
     step (Aenqueue g) s = Some (s, Thrown (PoolClosedError s)))
    ∧ (isResolved s = true →
       step (Aenqueue g) s = Some (s, Thrown (PoolSettledError s))).

(** C6 as stated: no pool with a cap of zero or less ever has a task in
    flight. *)
Definition nonpositive_cap_as_stated (any : Type) : Prop :=
  ∀ (c : Z) fail_fast tr (s : @PromisePool any) obs,
    (c ≤ 0)%Z →
    run tr (new_PromisePool (options_with (Fin c) fail_fast)) = Some (s, obs) →
    running s = [] ∧ reactions s = [].

(** C9 as stated: a completion emits [available] exactly when it leaves
    [C - 1] tasks in flight. *)
Definition available_as_stated (any : Type) : Prop :=
  ∀ opts (C : Z) tr (s : @PromisePool any) obs p n i v,
    run tr (new_PromisePool opts) = Some (s, obs) →
    size s = Fin C → isResolved s = false →
    indexOf p (running s) = Some n →
    emissions Eavailable (promiseDone p v i s) = S (emissions Eavailable s)
    ↔ Z.of_nat (length (delete n (running s))) = (C - 1)%Z.

(** ** Vocabulary of the further properties *)

Section Further.

Context {any : Type}.
Implicit Types s : @PromisePool any.
Implicit Types L obs : list (@observation any).

(** The pool once [enqueue] has pushed the generator and taken the index. *)
Definition pushed (g : PromiseFunction) s : PromisePool :=
  set_currentIndex (S (currentIndex s))
    (set_enqueued
       (enqueued s ++ [{| generator := g; index := currentIndex s |}]) s).

(** [s'] differs from [s] in diagnostics and listener maps at most. *)
Definition quiet s s' : Prop :=
  core s' = core s ∧ emitted s' = emitted s ∧ called s' = called s.

(** What is known of a pool between two turns: the bookkeeping, unless the
    promise is rejected. *)
Definition kept L s : Prop := is_rejected s = false → ordered L s.

(** How many continuations an execution ran. *)
Definition ran_count L : nat :=
  length (omap (fun ob => match ob with Ran _ i _ => Some i | _ => None end) L).

(** A pool on which nothing has happened but admissions. *)
Record dormant s : Prop := {
  dormant_emitted : emitted s = [];
  dormant_called : called s = [];
  dormant_running : running s = [];
  dormant_reactions : reactions s = [];
  dormant_result : result s = [];
  dormant_promise : promise s = Pending;
  dormant_resolved : isResolved s = false;
  dormant_closed : isClosed s = false;
  dormant_queue : length (enqueued s) = currentIndex s;
}.

(** The state a scheduling pass leaves: started, no free slot beside a
    queued task, and resolved if closed and idle. *)
Record rested s : Prop := {
  rested_started : isStarted s = true;
  rested_full :
    enqueued s ≠ [] → length_lt (length (running s)) (size s) = false;
  rested_done :
    enqueued s = [] → running s = [] → isClosed s = true →
    isResolved s = true ∧ promise s ≠ Pending;
}.

(** The callbacks registered with [once] in a map, and the records
    registered with [on]. *)
Definition one_shots (m : Map) : list callback :=
  (filter (fun e => e.2 = true) m).*1.

Definition persistent (m : Map) : Map := filter (fun e => e.2 = false) m.

(** The calls [#emit] makes for the records of a map, in order. *)
Definition calls_of (m : Map) s : list (callback * nat) :=
  (fun e => (e.1, length (running s))) <$> m.

(** The [verbose] option sends nothing anywhere: it is absent or
    [false]. *)
Definition silent (o : option PoolOptions) : Prop :=
  o ≫= opt_verbose = None ∨ o ≫= opt_verbose = Some (VerboseBool false).

(** The calls of [console.error] for the failures of an execution. *)
Definition console_errors L : list (sink * level * list (@log_arg any)) :=
  omap (fun ob => match ob with
                  | Ran _ _ (Rejects e) => Some (Console, Lerror, [Obj e])
                  | _ => None
                  end) L.

(** [x'] has the scheduling state of [x], and emitted what [x] emitted
    and one [available] at most. *)
Definition unchanged (x x' : @PromisePool any) : Prop :=
  core x' = core x
  ∧ ∃ new, emitted x' = emitted x ++ new ∧ (new = [] ∨ new = [Eavailable]).

(** Of [n] tasks, how many a cap lets run at once. *)
Definition capacity (m : number) (n : nat) : nat :=
  match m with
  | Infinity => n
  | Fin z => n `min` Z.to_nat z
  end.

(** The queue entries of the commands of a wrapper, by position. *)
Definition entries (commands : list PromiseFunction) : list QueuedPromise :=
  imap (fun i g => {| generator := g; index := i |}) commands.

(** The calls a wrapper makes on the pool it built. *)
Definition calls (commands : list PromiseFunction) : list (@action any) :=
  (Aenqueue <$> commands) ++ [Aclose].

(** What the calls of a wrapper show when no [enqueue] throws. *)
Definition accepted (k : nat) (commands : list PromiseFunction)
  : list (@observation any) :=
  imap (fun i g => Accepted (k + i) g) commands.

(** The pool of a wrapper is out of reach of the caller: once the wrapper
    has returned, the only turns are runs of continuations. *)
Definition is_settle (a : @action any) : Prop :=
  match a with Asettle _ _ => True | _ => False end.

(** The pool a wrapper builds. *)
Definition parallel_options (options : option PoolOptions) : PoolOptions :=
  match options with
  | Some o => o
  | None => {| concurrency := Infinity; opt_name := None;
               rejectOnError := None; autoStart := None;
               opt_verbose := None |}
  end.

Definition serie_options (options : option PoolOptions) : PoolOptions :=
  {| concurrency := Fin 1;
     opt_name := options ≫= opt_name;
     rejectOnError := options ≫= rejectOnError;
     autoStart := options ≫= autoStart;
     opt_verbose := options ≫= opt_verbose |}.

(** A pool that admitted [commands] and nothing else, with the first [m]
    in flight, in order, and the others queued, in order. *)
Record batching (commands : list PromiseFunction) (m : nat) s : Prop := {
  batching_reactions :
    reactions s = queued_reaction <$> take m (entries commands);
  batching_running : running s = (reactions s).*1;
  batching_queue : enqueued s = drop m (entries commands);
  batching_index : currentIndex s = length commands;
  batching_le : m ≤ length commands;
  batching_go : ∀ j, j < m → length_lt j (size s) = true;
  batching_promise : promise s = Pending;
  batching_resolved : isResolved s = false;
  batching_result : result s = [];
}.

(** Such a pool between two turns: if started, no slot is free beside a
    queued command; if not, nothing is in flight. *)
Record batched (commands : list PromiseFunction) (m : nat) s : Prop := {
  batched_batching : batching commands m s;
  batched_stop :
    isStarted s = true → m < length commands → length_lt m (size s) = false;
  batched_idle : isStarted s = false → m = 0;
}.

(** In a pool of cap 1 the task in flight, if any, is the last one
    launched. *)
Definition serial s : Prop :=
  length (reactions s) ≤ 1
  ∧ ∀ p i, (p, i) ∈ reactions s → S i = launched s.

End Further.

(** What [timeout] keeps between two events: a pending promise has its
    timer set and neither flag raised; a fulfilled one was fulfilled in
    time and its timer is cleared; a rejected one was rejected by the
    timer. *)
Definition timeout_consistent {T : Type} (s : @Timeout.state T) : Prop :=
  match Timeout.promise s with
  | Timeout.Pending =>
      Timeout.timer s = true ∧ Timeout.isTooLate s = false
      ∧ Timeout.isResolved s = false
  | Timeout.Fulfilled _ =>
      Timeout.timer s = false ∧ Timeout.isTooLate s = false
      ∧ Timeout.isResolved s = true
  | Timeout.Rejected r =>
      r = Timeout.TimedOut "Promise timed out"
      ∧ Timeout.timer s = false ∧ Timeout.isTooLate s = true
      ∧ Timeout.isResolved s = false
  end.

(** What the first decisive event makes of the promise of [timeout]:
    the value of [p] if [p] is fulfilled first, the error of the timer if
    the timer fires first; a failure of [p] is not decisive. *)
Fixpoint decided {T any : Type} (evs : list (@Timeout.event T any))
  : @Timeout.promise_state T :=
  match evs with
  | [] => Timeout.Pending
  | Timeout.TimerFires :: _ =>
      Timeout.Rejected (Timeout.TimedOut "Promise timed out")
  | Timeout.Fulfils v :: _ => Timeout.Fulfilled v
  | Timeout.Fails _ :: evs' => decided evs'
  end.

(** ** Concrete executions for the further properties *)

(** Options with [autoStart: false]. *)
Definition manual_options (c : number) : PoolOptions :=
  {| concurrency := c; opt_name := None; rejectOnError := None;
     autoStart := Some false; opt_verbose := None |}.

(** Two tasks given to a pool that is never started. *)
Definition queued_only : list (@action nat) :=
  [Aon Estart 40; Aenqueue (task 10); Aenqueue (task 11)].

(** Three tasks; the first one ends. *)
Definition in_sequence : list (@action nat) :=
  [Aenqueue (task 10); Aenqueue (task 11); Aenqueue (task 12);
   Asettle 10 (Resolves 1)].

(** Two persistent listeners around a one-shot one. *)
Definition three_listeners : list (@action nat) :=
  [Aon Enext 40; Aonce Enext 41; Aon Enext 42].

(** Calls made on a pool after its promise is settled. *)
Definition after_settlement : list (@action nat) :=
  [Astart; Aenqueue (task 13); Aclose].

Definition three_commands : list PromiseFunction :=
  [task 10; task 11; task 12].

(** The last command ends first, the first one fails. *)
Definition last_first : list (@action nat) :=
  [Asettle 12 (Resolves 3); Asettle 10 (Rejects 7); Asettle 11 (Resolves 2)].

(** The commands end one after another; the second one fails. *)
Definition in_turn : list (@action nat) :=
  [Asettle 10 (Resolves 1); Asettle 11 (Rejects 7); Asettle 12 (Resolves 3)].

(** The pool behind the promise a wrapper returned. *)
Definition promised {any} (ret : string + @returned any) : @PromisePool any :=
  match ret with
  | inr (Promise_of s) => s
  | _ => new_PromisePool None
  end.

Definition final_from {any} (tr : list (@action any)) (s0 : @PromisePool any)
  : @PromisePool any :=
  match run tr s0 with
  | Some (s, _) => s
  | None => s0
  end.

Definition observed_from {any} (tr : list (@action any))
    (s0 : @PromisePool any) : list (@observation any) :=
  match run tr s0 with
  | Some (_, obs) => obs
  | None => []
  end.

(** [p] fails, then the timer fires; [p] is fulfilled in time. *)
Definition fails_then_fires : list (@Timeout.event nat nat) :=
  [Timeout.Fails 7; Timeout.TimerFires].

Definition fulfilled_in_time : list (@Timeout.event nat nat) :=
  [Timeout.Fulfils 5].

Definition timeout_final (evs : list (@Timeout.event nat nat))
  : @Timeout.state nat :=
  match Timeout.run evs Timeout.timeout with
  | Some s => s
  | None => Timeout.timeout
  end.

(** * Lemmas *)

(** ** Frame properties

    [core] gathers the fields that scheduling reads and writes; emissions
    and diagnostics leave them alone. *)

Section Frame.

Context {any : Type}.
Implicit Types s : @PromisePool any.

Lemma verbose_core lv args s : core (verbose lv args s) = core s.
Proof. reflexivity. Qed.

Lemma emit_loop_core type entries s :
  core (emit_loop type entries s) = core s.
Proof.
  revert s; induction entries as [|[cb o] rest IH]; intros s; [done|].
  cbn [emit_loop]. rewrite IH. by destruct o.
Qed.

Lemma emit_core type s : core (emit type s) = core s.
Proof.
  unfold emit. destruct (listeners _ !! type); [|done].
  by rewrite emit_loop_core.
Qed.

Lemma emit_loop_emitted type entries s :
  emitted (emit_loop type entries s) = emitted s.
Proof.
  revert s; induction entries as [|[cb o] rest IH]; intros s; [done|].
  cbn [emit_loop]. rewrite IH. by destruct o.
Qed.

Lemma emit_emitted type s : emitted (emit type s) = emitted s ++ [type].
Proof.
  unfold emit. destruct (listeners _ !! type); [|done].
  by rewrite emit_loop_emitted.
Qed.

(** Each callback of an emission sees the [running] count of the state
    the emission starts from. *)
Lemma emit_loop_called type entries s :
  called (emit_loop type entries s)
  = called s ++ ((fun e => (e.1, length (running s))) <$> entries).
Proof.
  revert s; induction entries as [|[cb o] rest IH]; intros s.
  - cbn. by rewrite app_nil_r.
  - cbn [emit_loop]. rewrite IH. destruct o; cbn; by rewrite <- app_assoc.
Qed.

Lemma emit_called type s :
  called (emit type s)
  = called s
    ++ ((fun e => (e.1, length (running s)))
          <$> default [] (listeners s !! type)).
Proof.
  unfold emit. cbn. destruct (listeners s !! type) as [m|]; cbn.
  - by rewrite emit_loop_called.
  - by rewrite app_nil_r.
Qed.

(** The handlers on a pool that is not settled and tracks the promise. *)
Lemma promiseDone_tracked p v i s n :
  isResolved s = false → indexOf p (running s) = Some n →
  promiseDone p v i s
  = runNext (emit Enext
      (verbose Linfo [Str ("promise@" +:+ pretty i +:+ " done")]
         (recorded n i (Value v) s))).
Proof. intros H1 H2. unfold promiseDone. by rewrite H1, H2. Qed.

Lemma promiseRejected_tracked p e i s n :
  isResolved s = false → indexOf p (running s) = Some n →
  promiseRejected p e i s
  = verbose Lerror [Str ("promise@" +:+ pretty i +:+ " error"); Obj e]
      (let s1 := recorded n i
           (PoolErrorImpl ("Promise " +:+ pretty i +:+ " was rejected") e) s in
       if default false (options s ≫= rejectOnError)
       then reject e (set_isResolved true s1)
       else runNext (emit Enext
              (set_diagnostics
                 (diagnostics s1 ++ [(Console, Lerror, [Obj e])]) s1))).
Proof. intros H1 H2. unfold promiseRejected. by rewrite H1, H2. Qed.

Lemma promiseDone_settled p v i s :
  isResolved s = true → promiseDone p v i s = s.
Proof. intros H. unfold promiseDone. by rewrite H. Qed.

Lemma promiseRejected_settled p e i s :
  isResolved s = true → promiseRejected p e i s = s.
Proof. intros H. unfold promiseRejected. by rewrite H. Qed.

Lemma promiseDone_unknown p v i s :
  isResolved s = false → indexOf p (running s) = None →
  promiseDone p v i s = verbose Lwarn [Str "unknown promise resolved"] s.
Proof. intros H1 H2. unfold promiseDone. by rewrite H1, H2. Qed.

Lemma promiseRejected_unknown p e i s :
  isResolved s = false → indexOf p (running s) = None →
  promiseRejected p e i s = verbose Lwarn [Str "unknown promise error"] s.
Proof. intros H1 H2. unfold promiseRejected. by rewrite H1, H2. Qed.

End Frame.

(** ** The launch loop *)

Section Launch.

Context {any : Type}.
Implicit Types s : @PromisePool any.

(** The loop launches a prefix of the queue, of length [k]: it stops at the
    end of the queue or when no slot is free, and every launch found a free
    slot. *)
Lemma launch_spec q s added :
  enqueued s = q →
  ∃ k, k ≤ length q
    ∧ (launch q s added).2 = added + k
    ∧ core (launch q s added).1
      = core (set_reactions (reactions s ++ (queued_reaction <$> take k q))
               (set_running (running s ++ (queued_reaction <$> take k q).*1)
                  (set_enqueued (drop k q) s)))
    ∧ emitted (launch q s added).1 = emitted s
    ∧ called (launch q s added).1 = called s
    ∧ listeners (launch q s added).1 = listeners s
    ∧ (k < length q → length_lt (length (running s) + k) (size s) = false)
    ∧ (∀ j, j < k → length_lt (length (running s) + j) (size s) = true).
Proof.
  revert s added. induction q as [|e rest IH]; intros s added Hq.
  - exists 0. cbn. rewrite !app_nil_r, Nat.add_0_r.
    repeat split; try lia. unfold core; cbn. by rewrite Hq.
  - cbn [launch].
    destruct (length_lt (length (running s)) (size s)) eqn:Hlt.
    + set (s1 := set_running _ _).
      destruct (IH s1 (S added) eq_refl)
        as (k & Hk & Hadd & Hcore & Hem & Hca & Hli & Hstop & Hgo).
      exists (S k). cbn [length]. split; [lia|]. split; [lia|].
      split.
      { rewrite Hcore. unfold core, s1; cbn.
        by rewrite <- !app_assoc. }
      split; [by rewrite Hem|]. split; [by rewrite Hca|].
      split; [by rewrite Hli|].
      split.
      * intros Hlen. unfold s1 in Hstop; cbn in Hstop.
        rewrite length_app in Hstop; cbn in Hstop.
        replace (length (running s) + S k)
          with (length (running s) + 1 + k) by lia.
        apply Hstop. lia.
      * intros [|j] Hj; [by rewrite Nat.add_0_r|].
        unfold s1 in Hgo; cbn in Hgo.
        rewrite length_app in Hgo; cbn in Hgo.
        replace (length (running s) + S j)
          with (length (running s) + 1 + j) by lia.
        apply Hgo. lia.
    + exists 0. cbn. rewrite !app_nil_r.
      repeat split; rewrite ?Nat.add_0_r; try lia; try done.
      unfold core; cbn. by rewrite Hq.
Qed.

End Launch.

(** ** One scheduling pass *)

Section RunNext.

Context {any : Type}.
Implicit Types s : @PromisePool any.

Lemma core_running s s' : core s = core s' → running s = running s'.
Proof. unfold core. by intros [= ]. Qed.

Lemma core_size s s' : core s = core s' → size s = size s'.
Proof. unfold core. by intros [= ]. Qed.

Lemma runNext_cases s : runNext_case s (runNext s).
Proof.
  unfold runNext. destruct (isStarted s) eqn:Hst; [|by apply RN_idle].
  destruct (enqueued s) as [|e q] eqn:Hq.
  - destruct (running s) as [|p r] eqn:Hr.
    + destruct (isClosed s) eqn:Hcl.
      * apply RN_resolve; try done;
          unfold resolve; cbn; by destruct (promise s).
      * by apply RN_wait.
    + apply RN_busy; try done; rewrite ?Hr; try done.
      * destruct (length_eq_pred _ _); [|done].
        by rewrite verbose_core, emit_core.
      * unfold pass_available.
        destruct (length_eq_pred _ _); cbn; [|by rewrite app_nil_r].
        by rewrite emit_emitted.
  - rewrite <- Hq.
    destruct (launch_spec (enqueued s) s 0 eq_refl)
      as (k & Hk & Hadd & Hcore & Hem & _ & _ & Hstop & Hgo).
    destruct (launch (enqueued s) s 0) as [s1 added] eqn:Hl.
    cbn [fst snd] in *. subst added. cbn [Nat.add] in *.
    assert (Hlen : length (running s1) = length (running s) + k).
    { rewrite (core_running _ _ Hcore); cbn.
      rewrite length_app, length_fmap, length_fmap, length_take. lia. }
    assert (Hsz : size s1 = size s) by by rewrite (core_size _ _ Hcore).
    apply (RN_launch _ _ k); try done.
    + by rewrite Hq.
    + rewrite <- Hcore. destruct (length_ge _ _); [|done].
      destruct k; [done|]. by rewrite emit_core.
    + unfold pass_full. rewrite Hlen, Hsz.
      destruct (length_ge _ _); cbn.
      * destruct k; cbn; [by rewrite andb_false_l, Hem, app_nil_r|].
        rewrite emit_emitted, Hem.
        by rewrite bool_decide_eq_true_2 by lia.
      * by rewrite andb_false_r, Hem, app_nil_r.
Qed.

(** Callbacks run by a pass see the [running] count the pass ends with. *)
Lemma runNext_called s :
  ∃ new, called (runNext s) = called s ++ new
    ∧ Forall (fun c => c.2 = length (running (runNext s))) new.
Proof.
  unfold runNext. destruct (isStarted s) eqn:Hst;
    [|exists []; by rewrite app_nil_r].
  destruct (enqueued s) as [|e q] eqn:Hq.
  - destruct (running s) as [|p r] eqn:Hr.
    + exists []. rewrite app_nil_r. split; [|done].
      destruct (isClosed s); [|done].
      unfold resolve; cbn. by destruct (promise s).
    + destruct (length_eq_pred _ _).
      * eexists. cbn. rewrite emit_called. split; [done|].
        rewrite (core_running _ _ (emit_core _ _)).
        apply Forall_fmap, Forall_true. done.
      * exists []. by rewrite app_nil_r.
  - rewrite <- Hq.
    destruct (launch_spec (enqueued s) s 0 eq_refl)
      as (k & _ & _ & _ & _ & Hca & _).
    destruct (launch (enqueued s) s 0) as [s1 added] eqn:Hl.
    cbn [fst snd] in *.
    destruct (length_ge _ _); [|exists []; by rewrite app_nil_r].
    destruct added; [exists []; by rewrite app_nil_r|].
    eexists. rewrite emit_called, Hca. split; [done|].
    rewrite (core_running _ _ (emit_core _ _)).
    apply Forall_fmap, Forall_true. done.
Qed.

End RunNext.

(** ** Executions and invariants *)

Section Runs.

Context {any : Type}.
Implicit Types s : @PromisePool any.
Implicit Types L obs : list (@observation any).

(** A property kept by every turn holds along every execution. *)
Lemma run_invariant (P : list (@observation any) → @PromisePool any → Prop) :
  (∀ L a s s' ob, P L s → step a s = Some (s', ob) → P (L ++ [ob]) s') →
  ∀ tr L s s' obs, P L s → run tr s = Some (s', obs) → P (L ++ obs) s'.
Proof.
  intros Hstep. induction tr as [|a tr IH]; intros L s s' obs HP Hrun.
  - cbn in Hrun. simplify_eq. by rewrite app_nil_r.
  - cbn in Hrun.
    destruct (step a s) as [[s1 ob]|] eqn:Hs; [|done]. cbn in Hrun.
    destruct (run tr s1) as [[s2 obs']|] eqn:Hr; [|done]. cbn in Hrun.
    simplify_eq.
    replace (L ++ ob :: obs') with ((L ++ [ob]) ++ obs')
      by by rewrite <- app_assoc.
    eapply IH; [|done]. by eapply Hstep.
Qed.

Lemma take_reaction_Some p rs i rest :
  take_reaction p rs = Some (i, rest) →
  ∃ n, indexOf p rs.*1 = Some n
    ∧ delete n rs.*1 = rest.*1
    ∧ rs !! n = Some (p, i)
    ∧ rest = delete n rs.
Proof.
  revert i rest. induction rs as [|[q j] rs IH]; intros i rest; [done|].
  cbn. destruct (decide (q = p)) as [->|Hne].
  - intros [= <- <-]. by exists 0.
  - destruct (take_reaction p rs) as [[j' rest']|]; [|done]. cbn.
    intros [= <- <-]. destruct (IH _ _ eq_refl) as (n & Hi & Hd & Hl & Hr).
    exists (S n). rewrite Hi. cbn. repeat split; [by f_equal|done|by f_equal].
Qed.

End Runs.

(** ** The concurrency cap *)

Section Cap.

Context {any : Type}.
Implicit Types s : @PromisePool any.

Lemma within_cap_emit C type s : within_cap C s → within_cap C (emit type s).
Proof.
  intros (Hs & Hr & Hc). unfold within_cap.
  rewrite (core_size _ _ (emit_core type s)).
  rewrite (core_running _ _ (emit_core type s)), emit_called.
  repeat split; try done. apply Forall_app. split; [done|].
  apply Forall_fmap, Forall_true. intros e. done.
Qed.

Lemma within_cap_runNext C s : within_cap C s → within_cap C (runNext s).
Proof.
  intros (Hs & Hr & Hc).
  assert (size (runNext s) = Fin C
          ∧ (Z.of_nat (length (running (runNext s))) ≤ C)%Z) as [Hs' Hr'].
  { destruct (runNext_cases s) as
      [? -> | k _ _ Hk Hcore _ Hgo _ | _ _ _ _ Hcore _ | _ _ _ _ Hcore _
       | _ _ _ Hcore _]; try done.
    - rewrite (core_size _ _ Hcore), (core_running _ _ Hcore). cbn.
      split; [done|].
      rewrite length_app, !length_fmap, length_take.
      destruct k as [|k]; [lia|].
      specialize (Hgo k (Nat.lt_succ_diag_r k)).
      rewrite Hs in Hgo. cbn in Hgo. apply Z.ltb_lt in Hgo. lia.
    - rewrite (core_size _ _ Hcore), (core_running _ _ Hcore).
      unfold resolve; cbn. by destruct (promise s).
    - by rewrite (core_size _ _ Hcore), (core_running _ _ Hcore).
    - by rewrite (core_size _ _ Hcore), (core_running _ _ Hcore). }
  destruct (runNext_called s) as (new & Hca & Hnew).
  unfold within_cap. rewrite Hca.
  repeat split; try done. apply Forall_app. split; [done|].
  eapply Forall_impl; [exact Hnew|]. intros c ->. done.
Qed.

Lemma within_cap_start C s : within_cap C s → within_cap C (start s).
Proof.
  intros H. unfold start. apply within_cap_runNext.
  destruct (isStarted s); [done|].
  by apply (within_cap_emit C Estart) in H.
Qed.

Lemma within_cap_close C s : within_cap C s → within_cap C (close s).
Proof. intros H. unfold close. by apply within_cap_start. Qed.

Lemma within_cap_enqueue C g s s' :
  within_cap C s → enqueue g s = inr s' → within_cap C s'.
Proof.
  intros H. unfold enqueue.
  destruct (isClosed s); [done|]. destruct (isResolved s); [done|].
  intros [= <-]. cbn.
  destruct (default true _ && negb (isStarted s)).
  - by apply within_cap_start.
  - destruct (isStarted s); [|done]. by apply within_cap_runNext.
Qed.

Lemma length_delete_le {A} (l : list A) n : length (delete n l) ≤ length l.
Proof.
  revert n. induction l as [|x l IH]; intros [|n]; cbn; try lia.
  apply le_n_S, IH.
Qed.

Lemma within_cap_promiseDone C p v i s :
  within_cap C s → within_cap C (promiseDone p v i s).
Proof.
  intros (Hs & Hr & Hc). unfold promiseDone.
  destruct (isResolved s); [done|].
  destruct (indexOf p (running s)) as [n|]; [|done].
  apply within_cap_runNext, within_cap_emit.
  repeat split; try done. cbn.
  pose proof (length_delete_le (running s) n). lia.
Qed.

Lemma within_cap_promiseRejected C p e i s :
  within_cap C s → within_cap C (promiseRejected p e i s).
Proof.
  intros (Hs & Hr & Hc). unfold promiseRejected.
  destruct (isResolved s); [done|].
  destruct (indexOf p (running s)) as [n|]; [|done].
  pose proof (length_delete_le (running s) n) as Hd.
  set (s1 := set_result _ _).
  assert (H1 : within_cap C s1) by (repeat split; try done; cbn; lia).
  cbn [options s1 set_result set_running].
  destruct (default false _).
  - unfold reject; cbn. by destruct (promise s).
  - enough (within_cap C (runNext (emit Enext
      (set_diagnostics (diagnostics s1 ++ [(Console, Lerror, [Obj e])]) s1))))
      by done.
    by apply within_cap_runNext, within_cap_emit.
Qed.

Lemma within_cap_step C a s s' ob :
  within_cap C s → step a s = Some (s', ob) → within_cap C s'.
Proof.
  intros H. destruct a as [|g| |t cb|t cb|p o]; cbn.
  - intros [= <- _]. by apply within_cap_start.
  - destruct (enqueue g s) eqn:He; intros [= <- _]; [done|].
    by eapply within_cap_enqueue.
  - intros [= <- _]. by apply within_cap_close.
  - by intros [= <- _].
  - by intros [= <- _].
  - destruct (take_reaction p (reactions s)) as [[i rest]|]; [|done]. cbn.
    intros [= <- _].
    destruct o; [apply within_cap_promiseDone|apply within_cap_promiseRejected];
      done.
Qed.

End Cap.

(** ** Results by submission index *)

Section Ordering.

Context {any : Type}.
Implicit Types s : @PromisePool any.
Implicit Types L obs : list (@observation any).

Local Open Scope string_scope.
Local Open Scope list_scope.
Local Open Scope nat_scope.

Lemma core_fields s s' :
  core s' = core s →
  currentIndex s' = currentIndex s ∧ running s' = running s
  ∧ enqueued s' = enqueued s ∧ result s' = result s
  ∧ isResolved s' = isResolved s ∧ promise s' = promise s
  ∧ reactions s' = reactions s ∧ isStarted s' = isStarted s
  ∧ isClosed s' = isClosed s ∧ options s' = options s
  ∧ size s' = size s ∧ name s' = name s.
Proof. unfold core. intros [= ]. by repeat split. Qed.

Lemma ordered_ledger L s s' : ledger s' = ledger s → ordered L s → ordered L s'.
Proof.
  unfold ledger. intros [= Ei Er Eq Eres Ers Ep Ere] [].
  split; unfold launched in *; rewrite ?Ei, ?Er, ?Eq, ?Eres, ?Ers, ?Ep, ?Ere;
    done.
Qed.

Lemma ordered_core L s s' : core s' = core s → ordered L s → ordered L s'.
Proof.
  intros (Ei & Er & Eq & Eres & Ers & Ep & Ere & _)%core_fields.
  apply ordered_ledger. unfold ledger. by rewrite Ei, Er, Eq, Eres, Ers, Ep, Ere.
Qed.

Lemma admissions_app L L' : admissions (L ++ L') = admissions L ++ admissions L'.
Proof. apply omap_app. Qed.

Lemma runs_of_app i L L' : runs_of i (L ++ L') = runs_of i L ++ runs_of i L'.
Proof. apply omap_app. Qed.

Lemma runs_of_nil i L : (∀ p o, Ran p i o ∉ L) → runs_of i L = [].
Proof.
  induction L as [|ob L IH]; intros H; [done|].
  change (ob :: L) with ([ob] ++ L). rewrite runs_of_app, IH.
  - destruct ob as [| | |p j o]; try done. cbn.
    destruct (decide (j = i)) as [->|]; [|done].
    exfalso. apply (H p o). by left.
  - intros p o Hin. apply (H p o). by right.
Qed.

(** A turn that neither admits nor runs a continuation leaves the
    bookkeeping as it is. *)
Lemma ordered_silent L s ob :
  admissions [ob] = [] → (∀ i, runs_of i [ob] = []) →
  (∀ p i o, ob ≠ Ran p i o) →
  ordered L s → ordered (L ++ [ob]) s.
Proof.
  intros Ha Hr Hne [].
  split; rewrite ?admissions_app, ?Ha, ?app_nil_r; try done.
  - intros p i o [Hin|Hin%list_elem_of_singleton]%elem_of_app; [eauto|].
    by destruct (Hne p i o).
  - intros i g Hi Hlt. rewrite runs_of_app, Hr, app_nil_r. eauto.
Qed.

Lemma queue_indices L s :
  ordered L s →
  index <$> enqueued s = seq (launched s) (length (enqueued s)).
Proof.
  intros [].
  rewrite ord_queue0 at 1. rewrite <- list_fmap_compose.
  change (index ∘ queue_entry) with (@fst nat PromiseFunction).
  rewrite fmap_drop, ord_admitted0, drop_seq. f_equal.
  unfold launched. lia.
Qed.

(** Launching a prefix of the queue keeps the bookkeeping. *)
Lemma ordered_launch L s k :
  ordered L s → k ≤ length (enqueued s) → enqueued s ≠ [] →
  ordered L
    (set_reactions (reactions s ++ (queued_reaction <$> take k (enqueued s)))
       (set_running
          (running s ++ (queued_reaction <$> take k (enqueued s)).*1)
          (set_enqueued (drop k (enqueued s)) s))).
Proof.
  intros Hord Hk Hne. pose proof (queue_indices _ _ Hord) as Hidx.
  destruct Hord as [HA HQ HQl HR HN HRe HRan HW HRes HS].
  set (s' := set_reactions _ _).
  assert (Hl : launched s' = launched s + k).
  { unfold launched, s'; cbn. rewrite length_drop. lia. }
  assert (Hnew : (queued_reaction <$> take k (enqueued s)).*2
                 = seq (launched s) k).
  { rewrite <- list_fmap_compose.
    change (snd ∘ queued_reaction) with index.
    rewrite fmap_take, Hidx, take_seq. f_equal. lia. }
  split; rewrite ?Hl; unfold s'; cbn.
  - done.
  - rewrite HQ at 1. by rewrite <- fmap_drop, drop_drop.
  - rewrite length_drop. lia.
  - by rewrite fmap_app, HR.
  - rewrite fmap_app, Hnew. apply NoDup_app. split; [done|].
    split; [|apply NoDup_seq].
    intros i [[p j] [-> Hin]]%list_elem_of_fmap Hseq%elem_of_seq.
    apply HRe in Hin. cbn in Hseq. lia.
  - intros p i [Hin|Hin]%elem_of_app.
    + apply HRe in Hin. lia.
    + assert (i ∈ seq (launched s) k) as Hi%elem_of_seq; [|lia].
      rewrite <- Hnew. apply list_elem_of_fmap. by exists (p, i).
  - intros p i o Hin. apply HRan in Hin. lia.
  - intros i g Hi Hlt.
    destruct (decide (i < launched s)) as [Hold|Hge].
    + destruct (HW i g Hi Hold) as [[Hin Hr]|(Hnin & o & Hr & Hres)].
      * left. split; [|done]. apply elem_of_app. by left.
      * right. split; [|by exists o].
        rewrite fmap_app, Hnew. intros [?|Hs%elem_of_seq]%elem_of_app;
          [done|lia].
    + left. split.
      * apply elem_of_app. right.
        apply list_elem_of_fmap.
        exists (queue_entry (i, g)). split; [done|].
        apply list_elem_of_lookup. exists (i - launched s).
        rewrite lookup_take_lt by lia.
        rewrite HQ, list_lookup_fmap, lookup_drop.
        replace (launched s + (i - launched s)) with i by lia.
        by rewrite Hi.
      * apply runs_of_nil. intros p o Hin. apply HRan in Hin. lia.
  - lia.
  - destruct HS as [HS|(_ & _ & Hq & _)]; [by left|done].
Qed.

Lemma ordered_resolve L s :
  ordered L s → enqueued s = [] → running s = [] →
  ordered L (resolve (result s) (set_isResolved true s)).
Proof.
  intros [HA HQ HQl HR HN HRe HRan HW HRes HS] Hq Hr.
  assert (Hre : reactions s = []).
  { rewrite Hr in HR. symmetry in HR. by apply fmap_nil_inv in HR. }
  unfold resolve; cbn.
  destruct HS as [[Hp Hres]|(Hp & Hres & _)]; rewrite Hp;
    split; try done; right; by rewrite ?Hp.
Qed.

Lemma ordered_runNext L s : ordered L s → ordered L (runNext s).
Proof.
  intros Hord.
  destruct (runNext_cases s) as
    [_ -> | k _ Hne Hk Hcore _ _ _ | _ Hq Hr _ Hcore _ | _ _ _ _ Hcore _
     | _ _ _ Hcore _]; try done.
  - eapply ordered_core; [exact Hcore|]. by apply ordered_launch.
  - eapply ordered_core; [exact Hcore|]. by apply ordered_resolve.
  - by eapply ordered_core.
  - by eapply ordered_core.
Qed.

Lemma ordered_emit L type s : ordered L s → ordered L (emit type s).
Proof. apply ordered_core, emit_core. Qed.

Lemma ordered_start L s : ordered L s → ordered L (start s).
Proof.
  intros H. unfold start. apply ordered_runNext.
  destruct (isStarted s); [done|].
  eapply ordered_ledger; [|exact (ordered_emit L Estart s H)]. done.
Qed.

Lemma ordered_close L s : ordered L s → ordered L (close s).
Proof. intros H. unfold close. apply ordered_start. by destruct H. Qed.

(** *** Array writes and removals *)

Lemma array_set_lookup_eq {A} (a : list (option A)) i x :
  array_set a i x !! i = Some (Some x).
Proof.
  unfold array_set. destruct (decide (i < length a)).
  - by apply list_lookup_insert_eq.
  - rewrite lookup_app_r by lia.
    rewrite lookup_app_r by (rewrite length_replicate; lia).
    rewrite length_replicate. by replace (i - length a - (i - length a)) with 0 by lia.
Qed.

Lemma array_set_lookup_ne {A} (a : list (option A)) i j x y :
  i ≠ j → a !! j = Some y → array_set a i x !! j = Some y.
Proof.
  intros Hne Hj. unfold array_set. destruct (decide (i < length a)).
  - by rewrite list_lookup_insert_ne.
  - by apply lookup_app_l_Some.
Qed.

Lemma array_set_length {A} (a : list (option A)) i x :
  length (array_set a i x) = length a `max` S i.
Proof.
  unfold array_set. destruct (decide (i < length a)).
  - rewrite length_insert. lia.
  - rewrite !length_app, length_replicate. cbn. lia.
Qed.

Lemma elem_of_delete_ne {A} (l : list A) n x y :
  l !! n = Some x → y ∈ l → y ≠ x → y ∈ delete n l.
Proof.
  intros Hn Hy Hne. rewrite delete_take_drop.
  rewrite <- (take_drop_middle l n x Hn) in Hy.
  apply elem_of_app in Hy as [?|[?|?]%elem_of_cons]; try done;
    apply elem_of_app; auto.
Qed.

Lemma not_elem_of_delete_NoDup {A} (l : list A) n x :
  NoDup l → l !! n = Some x → x ∉ delete n l.
Proof.
  intros Hnd Hn. rewrite delete_take_drop.
  rewrite <- (take_drop_middle l n x Hn) in Hnd.
  apply NoDup_app in Hnd as (_ & Hdis & [Hx _]%NoDup_cons).
  intros [Hin|Hin]%elem_of_app; [|done].
  apply (Hdis x Hin). by left.
Qed.

(** A continuation runs: its entry leaves [reactions] and [running], its
    outcome goes to the slot of the index it carries. *)
Lemma ordered_record L s p i n o :
  ordered L s → isResolved s = false → reactions s !! n = Some (p, i) →
  ordered (L ++ [Ran p i o])
    (set_result (array_set (result s) i (slot_of i o))
       (set_running (delete n (running s))
          (set_reactions (delete n (reactions s)) s))).
Proof.
  intros [HA HQ HQl HR HN HRe HRan HW HRes HS] Hres Hn.
  assert (Hin : (p, i) ∈ reactions s) by (apply list_elem_of_lookup; eauto).
  assert (Hn2 : (reactions s).*2 !! n = Some i)
    by by rewrite list_lookup_fmap, Hn.
  split; unfold launched in *; cbn; rewrite ?admissions_app, ?app_nil_r.
  - done.
  - done.
  - done.
  - by rewrite HR, list_fmap_delete.
  - rewrite list_fmap_delete. eapply sublist_NoDup; [done|].
    apply sublist_delete.
  - intros q j Hq%list_elem_of_delete_inv. eauto.
  - intros q j o' [Hq|Hq%list_elem_of_singleton]%elem_of_app; [eauto|].
    simplify_eq. eauto.
  - intros j g Hj Hlt. rewrite runs_of_app. cbn.
    destruct (decide (i = j)) as [->|Hne].
    + right. split.
      { rewrite list_fmap_delete. by apply not_elem_of_delete_NoDup. }
      destruct (HW j g Hj Hlt) as [[Hg Hr]|[Hnin _]].
      * apply list_elem_of_lookup in Hg as [m Hm].
        assert (m = n) as ->.
        { eapply NoDup_lookup; [exact HN| |exact Hn2].
          by rewrite list_lookup_fmap, Hm. }
        simplify_eq. exists o. rewrite Hr. split; [done|].
        apply array_set_lookup_eq.
      * exfalso. apply Hnin. apply list_elem_of_fmap. by exists (p, j).
    + rewrite app_nil_r.
      destruct (HW j g Hj Hlt) as [[Hg Hr]|(Hnin & o' & Hr & Hs)].
      * left. split; [|done]. eapply elem_of_delete_ne; [done..|].
        congruence.
      * right. split.
        { intros Hd. apply Hnin. rewrite list_fmap_delete in Hd.
          by apply list_elem_of_delete_inv in Hd. }
        exists o'. split; [done|]. by apply array_set_lookup_ne.
  - rewrite array_set_length. apply HRe in Hin. lia.
  - destruct HS as [HS|(_ & Hr & _)]; [by left|congruence].
Qed.

Lemma ordered_unresolved L s n x :
  ordered L s → reactions s !! n = Some x →
  isResolved s = false ∧ promise s = Pending.
Proof.
  intros [] Hn. destruct ord_settled0 as [[? ?]|(_ & _ & _ & Hre)]; [done|].
  by rewrite Hre in Hn.
Qed.

Lemma ordered_promiseDone L s p v i rest :
  ordered L s → take_reaction p (reactions s) = Some (i, rest) →
  ordered (L ++ [Ran p i (Resolves v)])
    (promiseDone p v i (set_reactions rest s)).
Proof.
  intros Hord (n & Hi & _ & Hn & ->)%take_reaction_Some.
  destruct (ordered_unresolved _ _ _ _ Hord Hn) as [Hres _].
  assert (Hidx : indexOf p (running s) = Some n)
    by by rewrite (ord_running _ _ Hord).
  unfold promiseDone. cbn. rewrite Hres, Hidx.
  apply ordered_runNext, ordered_emit.
  eapply ordered_ledger;
    [|exact (ordered_record L s p i n (Resolves v) Hord Hres Hn)].
  done.
Qed.

Lemma ordered_promiseRejected L s p e i rest :
  ordered L s → take_reaction p (reactions s) = Some (i, rest) →
  is_rejected (promiseRejected p e i (set_reactions rest s)) = false →
  ordered (L ++ [Ran p i (Rejects e)])
    (promiseRejected p e i (set_reactions rest s)).
Proof.
  intros Hord (n & Hi & _ & Hn & ->)%take_reaction_Some.
  destruct (ordered_unresolved _ _ _ _ Hord Hn) as [Hres Hp].
  assert (Hidx : indexOf p (running s) = Some n)
    by by rewrite (ord_running _ _ Hord).
  unfold promiseRejected. cbn. rewrite Hres, Hidx.
  destruct (default false _).
  - unfold is_rejected, reject. cbn. by rewrite Hp.
  - intros _. eapply ordered_core; [apply verbose_core|].
    apply ordered_runNext, ordered_emit.
    eapply ordered_ledger;
      [|exact (ordered_record L s p i n (Rejects e) Hord Hres Hn)].
    done.
Qed.

(** An admission: the new entry takes the next index and joins the end of
    the queue. *)
Lemma ordered_push L s g :
  ordered L s → isResolved s = false →
  ordered (L ++ [Accepted (currentIndex s) g])
    (set_currentIndex (S (currentIndex s))
       (set_enqueued
          (enqueued s ++ [{| generator := g; index := currentIndex s |}]) s)).
Proof.
  intros [HA HQ HQl HR HN HRe HRan HW HRes HS] Hres.
  assert (Hlen : length (admissions L) = currentIndex s).
  { rewrite <- (length_fmap fst), HA. apply length_seq. }
  set (s' := set_currentIndex _ _).
  assert (Hl : launched s' = launched s).
  { unfold launched, s'. cbn. rewrite length_app. cbn. lia. }
  split; rewrite ?Hl; unfold s'; cbn; rewrite ?admissions_app; cbn.
  - change (0 :: seq 1 (currentIndex s)) with (seq 0 (S (currentIndex s))).
    by rewrite fmap_app, HA, seq_S.
  - rewrite drop_app_le by (unfold launched; lia).
    by rewrite fmap_app, <- HQ.
  - rewrite length_app. cbn. lia.
  - done.
  - done.
  - done.
  - intros q j o [Hq|Hq%list_elem_of_singleton]%elem_of_app; [eauto|done].
  - intros j g' Hj Hlt.
    rewrite lookup_app_l in Hj by (unfold launched in Hlt; lia).
    rewrite runs_of_app, app_nil_r. eauto.
  - done.
  - destruct HS as [HS|(_ & Hr & _)]; [by left|congruence].
Qed.

Lemma ordered_enqueue L s g s' :
  ordered L s → enqueue g s = inr s' →
  ordered (L ++ [Accepted (currentIndex s) g]) s'.
Proof.
  intros Hord. unfold enqueue.
  destruct (isClosed s); [done|].
  destruct (isResolved s) eqn:Hres; [done|]. intros [= <-].
  pose proof (ordered_push L s g Hord Hres) as Hpush.
  cbn. destruct (default true _ && negb (isStarted s)).
  - apply ordered_start. eapply ordered_ledger; [|exact Hpush]. done.
  - destruct (isStarted s).
    + apply ordered_runNext. eapply ordered_ledger; [|exact Hpush]. done.
    + eapply ordered_ledger; [|exact Hpush]. done.
Qed.

Lemma ordered_step L a s s' ob :
  ordered L s → step a s = Some (s', ob) → is_rejected s' = false →
  ordered (L ++ [ob]) s'.
Proof.
  intros Hord. destruct a as [|g| |t cb|t cb|p o]; cbn.
  - intros [= <- <-] _. apply ordered_silent; try done.
    by apply ordered_start.
  - destruct (enqueue g s) eqn:He; intros [= <- <-] _.
    + by apply ordered_silent.
    + by eapply ordered_enqueue.
  - intros [= <- <-] _. apply ordered_silent; try done.
    by apply ordered_close.
  - intros [= <- <-] _. apply ordered_silent; try done.
    eapply ordered_ledger; [|exact Hord]. done.
  - intros [= <- <-] _. apply ordered_silent; try done.
    eapply ordered_ledger; [|exact Hord]. done.
  - destruct (take_reaction p (reactions s)) as [[i rest]|] eqn:Ht; [|done].
    cbn. intros [= <- <-] Hrej. destruct o.
    + by apply ordered_promiseDone.
    + by apply ordered_promiseRejected.
Qed.

(** *** A rejected promise stays rejected *)

Lemma core_promise s s' : core s' = core s → promise s' = promise s.
Proof. intros H%core_fields. tauto. Qed.

Lemma rejected_emit e type s :
  promise s = Rejected e → promise (emit type s) = Rejected e.
Proof. intros H. by rewrite (core_promise _ _ (emit_core type s)). Qed.

Lemma rejected_runNext e s :
  promise s = Rejected e → promise (runNext s) = Rejected e.
Proof.
  intros Hp.
  destruct (runNext_cases s) as
    [_ -> | k _ _ _ Hcore _ _ _ | _ _ _ _ Hcore _ | _ _ _ _ Hcore _
     | _ _ _ Hcore _]; try done;
    rewrite (core_promise _ _ Hcore); try done.
  unfold resolve; cbn. by rewrite Hp.
Qed.

Lemma rejected_start e s :
  promise s = Rejected e → promise (start s) = Rejected e.
Proof.
  intros Hp. unfold start. apply rejected_runNext.
  destruct (isStarted s); [done|]. cbn. by apply rejected_emit.
Qed.

Lemma rejected_step e a s s' ob :
  step a s = Some (s', ob) → promise s = Rejected e → promise s' = Rejected e.
Proof.
  destruct a as [|g| |t cb|t cb|p o]; cbn.
  - intros [= <- _]. apply rejected_start.
  - unfold enqueue. destruct (isClosed s); [by intros [= <- _]|].
    destruct (isResolved s); [by intros [= <- _]|].
    intros [= <- _] Hp. cbn.
    destruct (default true _ && negb (isStarted s)).
    + by apply rejected_start.
    + destruct (isStarted s); [|done]. by apply rejected_runNext.
  - intros [= <- _] Hp. unfold close. by apply rejected_start.
  - by intros [= <- _].
  - by intros [= <- _].
  - destruct (take_reaction p (reactions s)) as [[i rest]|]; [|done]. cbn.
    intros [= <- _] Hp.
    assert (Hp0 : promise (set_reactions rest s) = Rejected e) by done.
    generalize dependent (set_reactions rest s). clear. intros s0 Hp0.
    destruct (isResolved s0) eqn:Hres.
    { destruct o; by rewrite ?promiseDone_settled, ?promiseRejected_settled. }
    destruct (indexOf p (running s0)) as [n|] eqn:Hi.
    2: { destruct o;
           by rewrite ?promiseDone_unknown, ?promiseRejected_unknown. }
    destruct o as [v|err].
    + rewrite (promiseDone_tracked _ _ _ _ _ Hres Hi).
      by apply rejected_runNext, rejected_emit.
    + rewrite (promiseRejected_tracked _ _ _ _ _ Hres Hi).
      rewrite (core_promise _ _ (verbose_core _ _ _)). cbn zeta.
      destruct (default false _).
      * unfold reject. cbn. by rewrite Hp0.
      * by apply rejected_runNext, rejected_emit.
Qed.

(** The bookkeeping holds in every state an execution reaches with the
    promise not rejected. *)
Lemma ordered_run opts tr s obs :
  run tr (new_PromisePool opts) = Some (s, obs) →
  is_rejected s = false → ordered obs s.
Proof.
  intros Hrun.
  refine (run_invariant (fun L s => is_rejected s = false → ordered L s)
            _ tr [] _ s obs _ Hrun).
  - clear. intros L a s s' ob IH Hstep Hrej.
    eapply ordered_step; [|done..]. apply IH.
    unfold is_rejected in *. destruct (promise s) as [| |e] eqn:Hp; try done.
    by rewrite (rejected_step e _ _ _ _ Hstep Hp) in Hrej.
  - intros _. split; try done; cbn; try apply NoDup_nil_2; try by left.
    + by intros ?? ?%elem_of_nil.
    + by intros ??? ?%elem_of_nil.
Qed.

(** *** What a fulfilled promise holds *)

Lemma admissions_length L s :
  ordered L s → length (admissions L) = currentIndex s.
Proof.
  intros []. rewrite <- (length_fmap fst), ord_admitted0. apply length_seq.
Qed.

Lemma admissions_index L s i j g :
  ordered L s → admissions L !! i = Some (j, g) →
  j = i ∧ i < currentIndex s.
Proof.
  intros [] Hi.
  assert ((admissions L).*1 !! i = Some j) as Hj
    by by rewrite list_lookup_fmap, Hi.
  rewrite ord_admitted0 in Hj. apply lookup_seq in Hj. lia.
Qed.

Lemma settled_complete L s r :
  ordered L s → promise s = Fulfilled r →
  length r = length (admissions L)
  ∧ ∀ i j g, admissions L !! i = Some (j, g) →
      j = i
      ∧ ∃ o, runs_of i L = [(generate g, o)]
             ∧ r !! i = Some (Some (slot_of i o)).
Proof.
  intros Hord Hp. pose proof (admissions_length _ _ Hord) as Hlen.
  pose proof Hord as [HA HQ HQl HR HN HRe HRan HW HRes HS].
  destruct HS as [[Hp' _]|(Hp' & _ & Hq & Hre)]; [congruence|].
  assert (r = result s) as -> by congruence.
  assert (Hl : launched s = currentIndex s)
    by (unfold launched; rewrite Hq; cbn; lia).
  assert (Hall : ∀ i j g, admissions L !! i = Some (j, g) →
      j = i
      ∧ ∃ o, runs_of i L = [(generate g, o)]
             ∧ result s !! i = Some (Some (slot_of i o))).
  { intros i j g Hi.
    destruct (admissions_index _ _ _ _ _ Hord Hi) as [-> Hlt].
    split; [done|].
    destruct (HW i g Hi) as [[Hin _]|(_ & o & Hr & Hs)]; [lia| |eauto].
    rewrite Hre in Hin. by apply elem_of_nil in Hin. }
  split; [|done].
  rewrite Hl in HRes. rewrite Hlen.
  destruct (currentIndex s) as [|n] eqn:HN'; [lia|].
  destruct (lookup_lt_is_Some_2 (admissions L) n) as [[j g] Hn]; [lia|].
  destruct (Hall n j g Hn) as (_ & o & _ & Hs).
  apply lookup_lt_Some in Hs. lia.
Qed.

Lemma runs_of_elem i L p o : (p, o) ∈ runs_of i L → Ran p i o ∈ L.
Proof.
  intros (ob & Hin & Hob)%list_elem_of_omap.
  destruct ob as [| | |q j o']; try done.
  destruct (decide (j = i)) as [->|]; [|done]. by simplify_eq.
Qed.

(** When every admitted task has had its continuation run, nothing is
    queued and nothing is in flight. *)
Lemma drained_state L s :
  ordered L s →
  (∀ i, i < length (admissions L) → runs_of i L ≠ []) →
  enqueued s = [] ∧ running s = [].
Proof.
  intros Hord Hdr. pose proof (admissions_length _ _ Hord) as Hlen.
  pose proof Hord as [HA HQ HQl HR HN HRe HRan HW HRes HS].
  assert (Hq : enqueued s = []).
  { destruct (enqueued s) as [|e q] eqn:Hq; [done|]. exfalso.
    assert (launched s < currentIndex s) as Hlt
      by (unfold launched; rewrite Hq; cbn in *; lia).
    specialize (Hdr (launched s)). rewrite Hlen in Hdr.
    destruct (runs_of (launched s) L) as [|[p o] l] eqn:Hr; [by apply Hdr|].
    assert (Ran p (launched s) o ∈ L) as Hin%HRan; [|lia].
    apply runs_of_elem. rewrite Hr. by left. }
  split; [done|]. rewrite HR.
  destruct (reactions s) as [|[p i] rs]; [done|]. exfalso.
  assert ((p, i) ∈ (p, i) :: rs) as Hin by by left.
  pose proof (HRe _ _ Hin) as Hlt.
  assert (launched s = currentIndex s) as Hl
    by (unfold launched; rewrite Hq; cbn; lia).
  destruct (lookup_lt_is_Some_2 (admissions L) i) as [[j g] Hi]; [lia|].
  destruct (admissions_index _ _ _ _ _ Hord Hi) as [-> _].
  destruct (HW i g Hi Hlt) as [[_ Hr]|[Hnin _]].
  - apply (Hdr i); [lia|done].
  - apply Hnin. cbn. by left.
Qed.

End Ordering.

(** ** Progress in accumulate mode *)

Section Progress.

Context {any : Type}.
Implicit Types s : @PromisePool any.

Lemma live_core s s' : core s' = core s → live s → live s'.
Proof.
  intros (Ei & Er & Eq & Eres & Ers & Ep & Ere & Est & Ecl & Eo & Esz & _)
    %core_fields [].
  split; unfold accumulate, is_rejected in *;
    rewrite ?Er, ?Eq, ?Ers, ?Ep, ?Est, ?Ecl, ?Eo, ?Esz; done.
Qed.

Lemma live_runNext s :
  accumulate s → is_rejected s = false →
  (isClosed s = true → isStarted s = true) →
  live (runNext s).
Proof.
  intros Hacc Hrej Hcs.
  destruct (runNext_cases s) as
    [Hst -> | k Hst Hne Hk Hcore Hstop _ _ | Hst Hq Hr Hcl Hcore _
     | Hst Hq Hr Hcl Hcore _ | Hst Hq Hr Hcore _].
  - split; try done.
    + intros. congruence.
    + intros Hcl. rewrite (Hcs Hcl) in Hst. done.
  - apply core_fields in Hcore
      as (Ei & Er & Eq & Eres & Ers & Ep & Ere & Est & Ecl & Eo & Esz & _).
    cbn in *.
    split; unfold accumulate, is_rejected;
      rewrite ?Er, ?Eq, ?Ers, ?Ep, ?Est, ?Ecl, ?Eo, ?Esz; try done.
    + intros _ Hd. rewrite length_app, !length_fmap, length_take.
      assert (k < length (enqueued s)) as Hlt.
      { destruct (decide (k < length (enqueued s))); [done|].
        rewrite drop_ge in Hd by lia. done. }
      replace (k `min` length (enqueued s)) with k by lia. auto.
    + intros _ Hd Happ. exfalso.
      apply app_eq_nil in Happ as [_ Happ].
      apply fmap_nil_inv, fmap_nil_inv in Happ.
      apply (f_equal length) in Hd, Happ.
      rewrite length_drop in Hd. rewrite length_take in Happ. cbn in *.
      destruct (enqueued s); [done|]. cbn in *. lia.
  - unfold resolve in Hcore. cbn in Hcore. unfold is_rejected in Hrej.
    destruct (promise s) eqn:Hp; [| |done];
      apply core_fields in Hcore
        as (Ei & Er & Eq & Eres & Ers & Ep & Ere & Est & Ecl & Eo & Esz & _);
      cbn in *;
      (split; unfold accumulate, is_rejected;
       rewrite ?Er, ?Eq, ?Ers, ?Ep, ?Est, ?Ecl, ?Eo, ?Esz, ?Hp; try done;
       by rewrite Hq).
  - apply core_fields in Hcore
      as (Ei & Er & Eq & Eres & Ers & Ep & Ere & Est & Ecl & Eo & Esz & _).
    split; unfold accumulate, is_rejected;
      rewrite ?Er, ?Eq, ?Ers, ?Ep, ?Est, ?Ecl, ?Eo, ?Esz; try done.
    by rewrite Hcl.
  - apply core_fields in Hcore
      as (Ei & Er & Eq & Eres & Ers & Ep & Ere & Est & Ecl & Eo & Esz & _).
    split; unfold accumulate, is_rejected;
      rewrite ?Er, ?Eq, ?Ers, ?Ep, ?Est, ?Ecl, ?Eo, ?Esz; try done.
Qed.

Lemma live_start s : accumulate s → is_rejected s = false → live (start s).
Proof.
  intros Hacc Hrej. unfold start. destruct (isStarted s) eqn:Hst.
  - by apply live_runNext.
  - apply live_runNext; try done.
    + unfold accumulate. cbn.
      by rewrite (proj1 (proj2 (proj2 (proj2 (proj2 (proj2 (proj2 (proj2
        (proj2 (proj2 (core_fields _ _ (emit_core Estart s)))))))))))).
    + unfold is_rejected. cbn.
      by rewrite (core_promise _ _ (emit_core Estart s)).
Qed.

Lemma live_step a s s' ob : live s → step a s = Some (s', ob) → live s'.
Proof.
  intros Hl. pose proof Hl as [Hacc Hrej Hcs Hfull Hdone].
  destruct a as [|g| |t cb|t cb|p o]; cbn.
  - intros [= <- _]. by apply live_start.
  - unfold enqueue. destruct (isClosed s) eqn:Hcl; [by intros [= <- _]|].
    destruct (isResolved s); [by intros [= <- _]|].
    intros [= <- _]. cbn.
    destruct (default true _ && negb (isStarted s)).
    + by apply live_start.
    + destruct (isStarted s) eqn:Hst.
      * by apply live_runNext.
      * split; cbn; try done; by rewrite ?Hst, ?Hcl.
  - intros [= <- _]. unfold close. by apply live_start.
  - intros [= <- _]. by eapply live_core.
  - intros [= <- _]. by eapply live_core.
  - destruct (take_reaction p (reactions s)) as [[i rest]|]; [|done]. cbn.
    intros [= <- _]. destruct o as [v|err].
    + unfold promiseDone. cbn. destruct (isResolved s) eqn:Hres.
      { by destruct Hl. }
      destruct (indexOf p (running s)); [|by destruct Hl].
      set (s1 := verbose _ _ _).
      pose proof (core_fields _ _ (emit_core Enext s1))
        as (_ & _ & _ & _ & _ & Ep & _ & Est & Ecl & Eo & _).
      apply live_runNext.
      * unfold accumulate. by rewrite Eo.
      * unfold is_rejected. by rewrite Ep.
      * by rewrite Est, Ecl.
    + unfold promiseRejected. cbn. destruct (isResolved s) eqn:Hres.
      { by destruct Hl. }
      destruct (indexOf p (running s)); [|by destruct Hl].
      unfold accumulate in Hacc. rewrite Hacc.
      eapply live_core; [apply verbose_core|].
      set (s1 := set_diagnostics _ _).
      pose proof (core_fields _ _ (emit_core Enext s1))
        as (_ & _ & _ & _ & _ & Ep & _ & Est & Ecl & Eo & _).
      apply live_runNext.
      * unfold accumulate. by rewrite Eo.
      * unfold is_rejected. by rewrite Ep.
      * by rewrite Est, Ecl.
Qed.

Lemma live_run opts tr s obs :
  default false (opts ≫= rejectOnError) = false →
  run tr (new_PromisePool opts) = Some (s, obs) → live s.
Proof.
  intros Hacc Hrun.
  refine (run_invariant (fun _ s => live s) _ tr [] _ s obs _ Hrun).
  - clear. intros _ a s s' ob. apply live_step.
  - split; done.
Qed.

End Progress.

(** ** Emission counts *)

Section Emissions.

Context {any : Type}.
Implicit Types s : @PromisePool any.

Lemma emissions_app type s s' new :
  emitted s' = emitted s ++ new →
  emissions type s' = emissions type s + length (filter (fun t => t = type) new).
Proof. intros H. unfold emissions. by rewrite H, filter_app, length_app. Qed.

Lemma emissions_same type s s' :
  emitted s' = emitted s → emissions type s' = emissions type s.
Proof. intros H. unfold emissions. by rewrite H. Qed.

Lemma emissions_emit type type' s :
  emissions type (emit type' s)
  = emissions type s + (if decide (type' = type) then 1 else 0).
Proof.
  rewrite (emissions_app type s _ [type']) by apply emit_emitted.
  rewrite filter_cons, filter_nil. by destruct (decide (type' = type)).
Qed.

(** [full] is emitted by a pass exactly when the pass launched something
    and filled the pool. *)
Lemma runNext_full s C :
  size s = Fin C →
  emissions Efull (runNext s)
  = emissions Efull s
    + (if bool_decide (length (running s) < length (running (runNext s))
                       ∧ Z.of_nat (length (running (runNext s))) = C)
       then 1 else 0).
Proof.
  intros Hs.
  destruct (runNext_cases s) as
    [_ -> | k _ _ Hk Hcore _ Hgo Hem | _ _ _ _ Hcore Hem | _ _ _ _ Hcore Hem
     | _ _ _ Hcore Hem].
  - rewrite bool_decide_eq_false_2 by lia. lia.
  - rewrite (emissions_app _ _ _ _ Hem), (core_running _ _ Hcore). cbn.
    rewrite length_app, !length_fmap, length_take.
    replace (k `min` length (enqueued s)) with k by lia.
    unfold pass_full. rewrite Hs. cbn. f_equal.
    destruct k as [|k].
    + rewrite (bool_decide_eq_false_2 (0 < 0)) by lia.
      rewrite bool_decide_eq_false_2 by lia. done.
    + specialize (Hgo k (Nat.lt_succ_diag_r k)). rewrite Hs in Hgo.
      cbn in Hgo. apply Z.ltb_lt in Hgo.
      rewrite (bool_decide_eq_true_2 (0 < S k)) by lia. cbn.
      destruct (Z.leb_spec C (Z.of_nat (length (running s) + S k))).
      * rewrite bool_decide_eq_true_2 by lia. done.
      * rewrite bool_decide_eq_false_2 by lia. done.
  - rewrite (emissions_same _ _ _ Hem), (core_running _ _ Hcore).
    unfold resolve; cbn.
    rewrite bool_decide_eq_false_2; [lia|]. destruct (promise s); cbn; lia.
  - rewrite (emissions_same _ _ _ Hem), (core_running _ _ Hcore).
    rewrite bool_decide_eq_false_2 by lia. lia.
  - rewrite (emissions_app _ _ _ _ Hem), (core_running _ _ Hcore).
    rewrite bool_decide_eq_false_2 by lia. unfold pass_available.
    by destruct (length_eq_pred _ _).
Qed.

(** [available] is emitted by a pass exactly when nothing is queued and the
    tasks in flight, at least one, are one fewer than the cap. *)
Lemma runNext_available s C :
  size s = Fin C → isStarted s = true →
  emissions Eavailable (runNext s)
  = emissions Eavailable s
    + (if bool_decide (enqueued s = [] ∧ running s ≠ []
                       ∧ Z.of_nat (length (running s)) = (C - 1)%Z)
       then 1 else 0).
Proof.
  intros Hs Hst.
  destruct (runNext_cases s) as
    [? _ | k _ Hne _ _ _ _ Hem | _ _ Hr _ _ Hem | _ _ Hr _ _ Hem
     | _ Hq Hr _ Hem].
  - congruence.
  - rewrite (emissions_app _ _ _ _ Hem).
    rewrite bool_decide_eq_false_2 by tauto. unfold pass_full.
    by destruct (_ && _).
  - rewrite (emissions_same _ _ _ Hem).
    rewrite bool_decide_eq_false_2 by tauto. lia.
  - rewrite (emissions_same _ _ _ Hem).
    rewrite bool_decide_eq_false_2 by tauto. lia.
  - rewrite (emissions_app _ _ _ _ Hem). unfold pass_available.
    rewrite Hs. cbn. f_equal.
    destruct (Z.eqb_spec (Z.of_nat (length (running s))) (C - 1)).
    + by rewrite bool_decide_eq_true_2.
    + rewrite bool_decide_eq_false_2; [done|]. tauto.
Qed.

End Emissions.

(** ** Listeners and emissions along executions *)

Section Effects.

Context {any : Type}.
Implicit Types s : @PromisePool any.

(** A property of the listener maps and of the emitted events that the
    four emissions the code performs keep is kept by every turn. *)
Section Preserved.

Variable P : @PromisePool any → Prop.
Hypothesis P_effects :
  ∀ s s', listeners s' = listeners s → emitted s' = emitted s → P s → P s'.
Hypothesis P_emit :
  ∀ type s, type ≠ Eclose → P s → P (emit type s).
Hypothesis P_on : ∀ type cb s, P s → P (on type cb s).
Hypothesis P_once : ∀ type cb s, P s → P (once type cb s).

Lemma effects_runNext s : P s → P (runNext s).
Proof.
  intros HP. unfold runNext. destruct (isStarted s); [|done].
  destruct (enqueued s) as [|e q] eqn:Hq.
  - destruct (running s) as [|p r].
    + destruct (isClosed s).
      * eapply P_effects; [| |exact HP];
          unfold resolve; cbn; by destruct (promise s).
      * by eapply P_effects; [| |exact HP].
    + destruct (length_eq_pred _ _).
      * eapply P_effects; [| |apply (P_emit Eavailable s); [done|exact HP]];
          done.
      * by eapply P_effects; [| |exact HP].
  - rewrite <- Hq.
    destruct (launch_spec (enqueued s) s 0 eq_refl)
      as (k & _ & _ & _ & Hem & _ & Hli & _).
    destruct (launch (enqueued s) s 0) as [s1 added]. cbn [fst snd] in *.
    assert (P s1) by by eapply P_effects; [| |exact HP].
    destruct (length_ge _ _); [|done]. destruct added; [done|].
    by apply P_emit.
Qed.

Lemma effects_start s : P s → P (start s).
Proof.
  intros HP. unfold start. apply effects_runNext.
  destruct (isStarted s); [done|].
  eapply P_effects; [| |apply (P_emit Estart s); [done|exact HP]]; done.
Qed.

Lemma effects_step a s s' ob : P s → step a s = Some (s', ob) → P s'.
Proof.
  intros HP. destruct a as [|g| |t cb|t cb|p o]; cbn.
  - intros [= <- _]. by apply effects_start.
  - unfold enqueue. destruct (isClosed s); [by intros [= <- _]|].
    destruct (isResolved s); [by intros [= <- _]|].
    intros [= <- _]. cbn.
    set (s1 := set_currentIndex _ _).
    assert (P s1) by by eapply P_effects; [| |exact HP].
    destruct (default true _ && negb (isStarted s)).
    + by apply effects_start.
    + destruct (isStarted s); [|done]. by apply effects_runNext.
  - intros [= <- _]. unfold close. apply effects_start.
    by eapply P_effects; [| |exact HP].
  - intros [= <- _]. by apply P_on.
  - intros [= <- _]. by apply P_once.
  - destruct (take_reaction p (reactions s)) as [[i rest]|]; [|done]. cbn.
    intros [= <- _].
    assert (HP0 : P (set_reactions rest s))
      by by eapply P_effects; [| |exact HP].
    generalize dependent (set_reactions rest s). clear HP. intros s0 HP0.
    destruct (isResolved s0) eqn:Hres.
    { destruct o; by rewrite ?promiseDone_settled, ?promiseRejected_settled. }
    destruct (indexOf p (running s0)) as [n|] eqn:Hi.
    2: { destruct o;
           rewrite ?promiseDone_unknown, ?promiseRejected_unknown by done;
           by eapply P_effects; [| |exact HP0]. }
    destruct o as [v|err].
    + rewrite (promiseDone_tracked _ _ _ _ _ Hres Hi).
      apply effects_runNext, P_emit; [done|].
      by eapply P_effects; [| |exact HP0].
    + rewrite (promiseRejected_tracked _ _ _ _ _ Hres Hi).
      match goal with
      | |- P (verbose _ _ ?x) => apply (P_effects x); [done|done|]
      end.
      cbn zeta. destruct (default false _).
      * eapply P_effects; [| |exact HP0];
          unfold reject; cbn; by destruct (promise s0).
      * apply effects_runNext, P_emit; [done|].
        by eapply P_effects; [| |exact HP0].
Qed.

Lemma effects_run opts tr s obs :
  P (new_PromisePool opts) →
  run tr (new_PromisePool opts) = Some (s, obs) → P s.
Proof.
  intros H0 Hrun.
  refine (run_invariant (fun _ s => P s) _ tr [] _ s obs H0 Hrun).
  intros _ a s1 s2 ob. apply effects_step.
Qed.

End Preserved.

(** [close] is emitted by no turn. *)
Lemma close_not_emitted opts tr s obs :
  run tr (new_PromisePool opts) = Some (s, obs) → Eclose ∉ emitted s.
Proof.
  apply (effects_run (fun s => Eclose ∉ emitted s)).
  - intros s1 s2 _ Hem. by rewrite Hem.
  - intros type s1 Hne Hs1. rewrite emit_emitted.
    intros [?|Hin%list_elem_of_singleton]%elem_of_app; [done|].
    by apply Hne.
  - done.
  - done.
  - cbn. apply not_elem_of_nil.
Qed.

(** *** Listener maps *)

Lemma Map_set_keys cb once m :
  (Map_set cb once m).*1 = if decide (cb ∈ m.*1) then m.*1 else m.*1 ++ [cb].
Proof.
  induction m as [|[k v] m IH]; [done|]. cbn.
  destruct (decide (k = cb)) as [->|Hne]; cbn.
  - rewrite decide_True by by left. done.
  - rewrite IH. destruct (decide (cb ∈ m.*1)).
    + rewrite decide_True by by right. done.
    + rewrite decide_False; [done|].
      intros [?|?]%elem_of_cons; congruence.
Qed.

Lemma Map_set_NoDup cb once m : NoDup m.*1 → NoDup (Map_set cb once m).*1.
Proof.
  intros Hnd. rewrite Map_set_keys. destruct (decide (cb ∈ m.*1)); [done|].
  apply NoDup_app. split; [done|]. split; [|apply NoDup_singleton].
  intros x Hx ->%list_elem_of_singleton. done.
Qed.

Lemma filter_none {A} (P : A → Prop) `{!∀ x, Decision (P x)} (l : list A) :
  (∀ x, x ∈ l → ¬ P x) → filter P l = [].
Proof.
  induction l as [|x l IH]; intros Hno; [done|].
  rewrite filter_cons, decide_False by (apply Hno; by left).
  apply IH. intros y Hy. apply Hno. by right.
Qed.

(** After [set(cb, once)] the map has one record for [cb], with the flag
    just given. *)
Lemma Map_set_one cb once m :
  NoDup m.*1 → filter (fun e => e.1 = cb) (Map_set cb once m) = [(cb, once)].
Proof.
  induction m as [|[k v] m IH]; intros Hnd.
  - cbn [Map_set]. by rewrite filter_cons, decide_True.
  - apply NoDup_cons in Hnd as [Hk Hnd]. cbn [Map_set].
    destruct (decide (k = cb)) as [->|Hne].
    + rewrite filter_cons, decide_True by done. f_equal.
      apply filter_none. intros [k' v'] Hin ?.
      cbn in *. subst. apply Hk. apply list_elem_of_fmap. by exists (cb, v').
    + rewrite filter_cons, decide_False by done. by apply IH.
Qed.

Lemma Map_delete_NoDup cb m : NoDup m.*1 → NoDup (Map_delete cb m).*1.
Proof.
  intros Hnd. eapply sublist_NoDup; [exact Hnd|].
  apply fmap_sublist, sublist_filter.
Qed.

Lemma wf_emit_loop type entries s :
  wf_listeners s → wf_listeners (emit_loop type entries s).
Proof.
  revert s. induction entries as [|[cb o] rest IH]; intros s Hwf; [done|].
  cbn [emit_loop]. apply IH. destruct o; [|done].
  intros t m. cbn. rewrite lookup_alter.
  destruct (decide (type = t)) as [->|]; [|apply Hwf].
  destruct (listeners s !! t) as [m'|] eqn:Hm; [|done]. cbn.
  intros [= <-]. apply Map_delete_NoDup. by eapply Hwf.
Qed.

Lemma wf_listeners_run opts tr s obs :
  run tr (new_PromisePool opts) = Some (s, obs) → wf_listeners s.
Proof.
  apply (effects_run wf_listeners).
  - intros s1 s2 Hli _ Hwf t m. rewrite Hli. apply Hwf.
  - intros type s1 _ Hwf. unfold emit.
    destruct (listeners _ !! type); [|done]. by apply wf_emit_loop.
  - intros type cb s1 Hwf t m. cbn. rewrite lookup_insert.
    destruct (decide (type = t)) as [->|]; [|apply Hwf].
    intros [= <-]. apply Map_set_NoDup.
    destruct (listeners s1 !! t) eqn:Hm; cbn; [by eapply Hwf|constructor].
  - intros type cb s1 Hwf t m. cbn. rewrite lookup_insert.
    destruct (decide (type = t)) as [->|]; [|apply Hwf].
    intros [= <-]. apply Map_set_NoDup.
    destruct (listeners s1 !! t) eqn:Hm; cbn; [by eapply Hwf|constructor].
  - intros t m. cbn. by rewrite lookup_empty.
Qed.

End Effects.

(** ** Registrations *)

Section Registration.

Context {any : Type}.
Implicit Types s : @PromisePool any.

Lemma register_lookup one_shot type cb s :
  listeners (register one_shot type cb s) !! type
  = Some (Map_set cb one_shot (default [] (listeners s !! type))).
Proof. destruct one_shot; cbn; by rewrite lookup_insert_eq. Qed.

Lemma filter_called (cb : callback) (n : nat) (m : list (callback * bool)) :
  filter (fun c : callback * nat => c.1 = cb)
    ((fun e : callback * bool => (e.1, n)) <$> m)
  = (fun e : callback * bool => (e.1, n))
      <$> filter (fun e : callback * bool => e.1 = cb) m.
Proof.
  induction m as [|[k v] m IH]; [done|].
  rewrite fmap_cons, !filter_cons. cbn.
  destruct (decide (k = cb)); by rewrite IH.
Qed.

End Registration.

(** ** A negative cap *)

Section Negative.

Context {any : Type}.
Implicit Types s : @PromisePool any.

Lemma inert_runNext c s :
  (c < 0)%Z → inert c s → (isClosed s = true → isStarted s = true) →
  inert c (runNext s) ∧ inert_closed (runNext s).
Proof.
  intros Hc [Hsz Hr Hre Hres Hq Hp] Hcs.
  destruct (runNext_cases s) as
    [Hst -> | k Hst Hne Hk Hcore _ Hgo _ | Hst Hq0 _ Hcl Hcore _
     | Hst Hq0 _ Hcl Hcore _ | _ _ Hr0 _ _]; [| | | |done].
  - split; [done|]. split; [done|].
    intros Hcl. rewrite (Hcs Hcl) in Hst. done.
  - assert (k = 0) as ->.
    { destruct k; [done|]. specialize (Hgo 0 (Nat.lt_0_succ k)).
      rewrite Hsz, Hr in Hgo. cbn in Hgo. apply Z.ltb_lt in Hgo. lia. }
    apply core_fields in Hcore
      as (Ei & Er & Eq & Eres & Ers & Ep & Ere & Est & Ecl & Eo & Esz & _).
    cbn in *. rewrite drop_0 in Eq. rewrite Hr in Er. rewrite Hre in Ere.
    split; split; rewrite ?Esz, ?Er, ?Ere, ?Eres, ?Eq, ?Ei, ?Ep, ?Ecl, ?Est;
      try done.
  - unfold resolve in Hcore. cbn in Hcore. rewrite Hres in Hcore.
    assert (core (runNext s)
            = core (set_promise (Fulfilled []) (set_isResolved true s)))
      as Hcore'.
    { rewrite Hcore.
      destruct Hp as [Hp|(Hp & _)]; rewrite Hp; [done|].
      unfold core; cbn. by rewrite Hp. }
    apply core_fields in Hcore'
      as (Ei & Er & Eq & Eres & Ers & Ep & Ere & Est & Ecl & Eo & Esz & _).
    cbn in *.
    split; split; rewrite ?Esz, ?Er, ?Ere, ?Eres, ?Eq, ?Ei, ?Ep, ?Ecl, ?Est;
      try done.
    right. by rewrite Hq0.
  - apply core_fields in Hcore
      as (Ei & Er & Eq & Eres & Ers & Ep & Ere & Est & Ecl & Eo & Esz & _).
    split; split; rewrite ?Esz, ?Er, ?Ere, ?Eres, ?Eq, ?Ei, ?Ep, ?Ecl, ?Est;
      try done; by rewrite Hcl.
Qed.

Lemma inert_start c s :
  (c < 0)%Z → inert c s → inert c (start s) ∧ inert_closed (start s).
Proof.
  intros Hc Hin. unfold start. destruct (isStarted s) eqn:Hst.
  - by apply inert_runNext.
  - pose proof (core_fields _ _ (emit_core Estart s))
      as (Ei & Er & Eq & Eres & Ers & Ep & Ere & Est & Ecl & Eo & Esz & _).
    destruct Hin. apply inert_runNext; [done| |done].
    split; cbn; rewrite ?Esz, ?Er, ?Ere, ?Eres, ?Eq, ?Ei, ?Ep, ?Ecl; done.
Qed.

Lemma inert_step c a s s' ob :
  (c < 0)%Z → inert c s → inert_closed s → step a s = Some (s', ob) →
  inert c s' ∧ inert_closed s'.
Proof.
  intros Hc Hin Hcl. destruct a as [|g| |t cb|t cb|p o]; cbn.
  - intros [= <- _]. by apply inert_start.
  - unfold enqueue. destruct (isClosed s) eqn:Hc1; [by intros [= <- _]|].
    destruct (isResolved s); [by intros [= <- _]|].
    intros [= <- _]. cbn.
    set (s1 := set_currentIndex _ _).
    assert (inert c s1) as Hin1.
    { destruct Hin as [? ? ? ? Hq Hp]. split; cbn; try done.
      - rewrite length_app. cbn. lia.
      - destruct Hp as [Hp|(_ & _ & ?)]; [by left|congruence]. }
    destruct (default true _ && negb (isStarted s)).
    + by apply inert_start.
    + destruct (isStarted s) eqn:Hst.
      * by apply inert_runNext.
      * split; [done|]. split; cbn; by rewrite Hc1.
  - intros [= <- _]. unfold close. apply inert_start; [done|].
    destruct Hin as [? ? ? ? Hq Hp]. split; cbn; try done.
    destruct Hp as [Hp|(? & ? & ?)]; [by left|by right].
  - intros [= <- _]. split; [by destruct Hin|by destruct Hcl].
  - intros [= <- _]. split; [by destruct Hin|by destruct Hcl].
  - rewrite (inert_reactions _ _ Hin). done.
Qed.

Lemma inert_run c opts tr s obs :
  (c < 0)%Z → concurrency opts = Fin c →
  run tr (new_PromisePool (Some opts)) = Some (s, obs) →
  inert c s ∧ inert_closed s.
Proof.
  intros Hc Hopt Hrun.
  refine (run_invariant (fun _ s => inert c s ∧ inert_closed s)
            _ tr [] _ s obs _ Hrun).
  - clear -Hc. intros _ a s s' ob [? ?]. by apply inert_step.
  - split; split; cbn; try done; try by left.
    rewrite Hopt. cbn. by rewrite (proj2 (Z.eqb_neq c 0)) by lia.
Qed.

End Negative.

(** * Verified properties *)

(** ** Ordering of the results *)

(** C1. Whenever the pool's promise is fulfilled, the sequence it yields
    has one slot per admission, and for every [i] the [i]-th admitted task
    was given index [i], its continuation ran exactly once, on the promise
    its generator returned, and slot [i] holds the outcome that run
    received, whatever the order in which the continuations ran. *)
Theorem results_follow_submission_order {any : Type}
    (opts : option PoolOptions) tr (s : @PromisePool any) obs r :
  run tr (new_PromisePool opts) = Some (s, obs) →
  promise s = Fulfilled r →
  length r = length (admissions obs)
  ∧ ∀ i j g, admissions obs !! i = Some (j, g) →
      j = i
      ∧ ∃ o, runs_of i obs = [(generate g, o)]
             ∧ r !! i = Some (Some (slot_of i o)).
Proof.
  intros Hrun Hp. eapply settled_complete; [|done].
  eapply ordered_run; [done|]. unfold is_rejected. by rewrite Hp.
Qed.

Lemma results_follow_submission_order_witness :
  let opts := options_with (Fin 2) None in
  let s := final_state out_of_order opts in
  let obs := observed out_of_order opts in
  let r := [Some (Value 1); Some (Value 5);
            Some (PoolErrorImpl "Promise 2 was rejected" 7)] in
  run out_of_order (new_PromisePool opts) = Some (s, obs)
  ∧ promise s = Fulfilled r
  ∧ length r = length (admissions obs)
  ∧ ∀ i j g, admissions obs !! i = Some (j, g) →
      j = i
      ∧ ∃ o, runs_of i obs = [(generate g, o)]
             ∧ r !! i = Some (Some (slot_of i o)).
Proof.
  intros opts s obs r.
  assert (Hrun : run out_of_order (new_PromisePool opts) = Some (s, obs))
    by (vm_compute; reflexivity).
  assert (Hp : promise s = Fulfilled r) by (vm_compute; reflexivity).
  split; [exact Hrun|]. split; [exact Hp|].
  exact (results_follow_submission_order opts out_of_order s obs r Hrun Hp).
Defined.

(** ** The concurrency cap *)

(** C2. In a pool built with a positive integer cap [C], after any
    sequence of API calls and task completions at most [C] tasks are in
    flight, and no listener was ever called while more than [C] were. *)
Theorem running_within_cap {any : Type} (opts : PoolOptions) (C : Z) tr
    (s : @PromisePool any) obs :
  concurrency opts = Fin C → (0 < C)%Z →
  run tr (new_PromisePool (Some opts)) = Some (s, obs) →
  (Z.of_nat (length (running s)) ≤ C)%Z
  ∧ Forall (fun c => (Z.of_nat c.2 ≤ C)%Z) (called s).
Proof.
  intros Hc HC Hrun.
  enough (within_cap C s) as (_ & ? & ?) by done.
  refine (run_invariant (fun _ s => within_cap C s) _ tr [] _ s obs _ Hrun).
  - clear. intros _ a s s' ob. apply within_cap_step.
  - repeat split; cbn; [|lia|done].
    rewrite Hc. cbn. by rewrite (proj2 (Z.eqb_neq C 0)) by lia.
Qed.

Lemma running_within_cap_witness :
  let opts := plain_options (Fin 2) None in
  let s := final_state out_of_order (Some opts) in
  let obs := observed out_of_order (Some opts) in
  concurrency opts = Fin 2 ∧ (0 < 2)%Z
  ∧ run out_of_order (new_PromisePool (Some opts)) = Some (s, obs)
  ∧ (Z.of_nat (length (running s)) ≤ 2)%Z
  ∧ Forall (fun c => (Z.of_nat c.2 ≤ 2)%Z) (called s).
Proof.
  intros opts s obs.
  assert (Hrun : run out_of_order (new_PromisePool (Some opts))
                 = Some (s, obs)) by (vm_compute; reflexivity).
  split; [reflexivity|]. split; [lia|]. split; [exact Hrun|].
  exact (running_within_cap opts 2 out_of_order s obs eq_refl
           ltac:(lia) Hrun).
Defined.

(** ** Fail-fast mode *)

(** C3.  A fail-fast pool of cap 1 with two tasks: the first fails, which
    rejects the promise with its cause and leaves the second queued; a
    later [close()] launches the second task all the same. *)
Theorem fail_fast_launches_after_settlement :
  let opts := options_with (Fin 1) (Some true) in
  let s1 := final_state failed_fast opts in
  let s2 := final_state (failed_fast ++ [Aclose]) opts in
  promise s1 = Rejected 7 ∧ isResolved s1 = true
  ∧ running s1 = [] ∧ index <$> enqueued s1 = [1]
  ∧ promise s2 = Rejected 7
  ∧ running s2 = [11] ∧ enqueued s2 = [] ∧ reactions s2 = [(11, 1)].
Proof. vm_compute. repeat split. Qed.

(** ** Accumulate mode *)



(** ** Admission guards *)

(** C5, as the code has it.  [enqueue] on a closed pool throws the closed
    error, settled or not; on a pool that is settled and not closed it
    throws the settled error; either way the pool is left exactly as it
    was: no index is taken and the queue is unchanged. *)
Theorem enqueue_guards {any : Type} (s : @PromisePool any) g :
  (isClosed s = true →
   step (Aenqueue g) s = Some (s, Thrown (PoolClosedError s)))
  ∧ (isClosed s = false → isResolved s = true →
     step (Aenqueue g) s = Some (s, Thrown (PoolSettledError s))).
Proof.
  split.
  - intros Hcl. cbn. unfold enqueue. by rewrite Hcl.
  - intros Hcl Hres. cbn. unfold enqueue. by rewrite Hcl, Hres.
Qed.

(** C5, counterexample.  A pool closed with nothing enqueued is closed and
    settled; [enqueue] then throws the closed error, not the settled
    one. *)
Lemma enqueue_guards_counterexample :
  let s := final_state (any := nat) [Aclose] (options_with (Fin 2) None) in
  isClosed s = true ∧ isResolved s = true
  ∧ step (Aenqueue (task 10)) s
    = Some (s, Thrown "[pool] PromisePool already closed"%string)
  ∧ ¬ enqueue_guards_as_stated nat.
Proof.
  intros s.
  assert (Hres : isResolved s = true) by (vm_compute; reflexivity).
  split; [vm_compute; reflexivity|]. split; [exact Hres|].
  split; [vm_compute; reflexivity|].
  intros H.
  destruct (H (options_with (Fin 2) None) [Aclose] s
              (observed [Aclose] (options_with (Fin 2) None))
              (task 10)) as [_ Hsettled].
  { vm_compute. reflexivity. }
  specialize (Hsettled Hres). vm_compute in Hsettled. discriminate.
Qed.

Lemma enqueue_guards_witness :
  let closed := final_state (any := nat) [Aclose] (options_with (Fin 2) None) in
  let settled := final_state failed_fast (options_with (Fin 1) (Some true)) in
  (isClosed closed = true
   ∧ step (Aenqueue (task 12)) closed
     = Some (closed, Thrown (PoolClosedError closed)))
  ∧ (isClosed settled = false ∧ isResolved settled = true
     ∧ step (Aenqueue (task 12)) settled
       = Some (settled, Thrown (PoolSettledError settled))).
Proof.
  intros closed settled.
  assert (H1 : isClosed closed = true) by (vm_compute; reflexivity).
  assert (H2 : isClosed settled = false) by (vm_compute; reflexivity).
  assert (H3 : isResolved settled = true) by (vm_compute; reflexivity).
  split.
  - split; [exact H1|].
    exact (proj1 (enqueue_guards closed (task 12)) H1).
  - split; [exact H2|]. split; [exact H3|].
    exact (proj2 (enqueue_guards settled (task 12)) H2 H3).
Defined.

(** ** Caps that are not positive *)

(** C6, as the code has it.  Construction never fails and does not check
    the cap: a cap of [0] is replaced by the default [10], any other
    integer is kept.  A pool with a negative cap never launches a task, its
    promise is fulfilled only with the empty sequence and only when nothing
    was enqueued, and closing it with nothing enqueued fulfils it. *)
Theorem cap_not_validated {any : Type} (opts : PoolOptions) (c : Z) :
  concurrency opts = Fin c →
  size (new_PromisePool (any := any) (Some opts))
  = (if decide (c = 0%Z) then DEFAULT_CONCURRENCY else Fin c)
  ∧ ((c < 0)%Z →
     ∀ tr (s : @PromisePool any) obs,
       run tr (new_PromisePool (Some opts)) = Some (s, obs) →
       running s = [] ∧ reactions s = []
       ∧ (∀ p i o, Ran p i o ∉ obs)
       ∧ (∀ r, promise s = Fulfilled r → r = [] ∧ admissions obs = [])
       ∧ (isClosed s = true → admissions obs = [] →
          promise s = Fulfilled [])).
Proof.
  intros Hopt. split.
  - cbn. rewrite Hopt. cbn. destruct (decide (c = 0%Z)) as [->|Hne]; [done|].
    by rewrite (proj2 (Z.eqb_neq c 0)).
  - intros Hc tr s obs Hrun.
    destruct (inert_run c opts tr s obs Hc Hopt Hrun)
      as [[Hsz Hr Hre Hres Hq Hp] [Hst Hdone]].
    assert (Hrej : is_rejected s = false).
    { unfold is_rejected. by destruct Hp as [->|[-> _]]. }
    pose proof (ordered_run _ _ _ _ Hrun Hrej) as Hord.
    pose proof (admissions_length _ _ Hord) as Hlen.
    split; [done|]. split; [done|]. split; [|split].
    + intros p i o Hin. apply (ord_ran _ _ Hord) in Hin.
      unfold launched in Hin. lia.
    + intros r Hr'.
      destruct Hp as [Hp|(Hp & Hq0 & _)]; [congruence|].
      split; [congruence|].
      rewrite Hq0 in Hq. cbn in Hq. rewrite <- Hq in Hlen.
      by destruct (admissions obs).
    + intros Hcl Hadm. apply Hdone; [done|].
      rewrite Hadm in Hlen. cbn in Hlen. rewrite <- Hlen in Hq.
      by destruct (enqueued s).
Qed.

(** C6, counterexample.  A pool asked for cap [0] is built, with cap [10],
    and launches the task it is given. *)
Lemma nonpositive_cap_counterexample :
  let opts := options_with (Fin 0) None in
  let s := final_state (any := nat) [Aenqueue (task 10)] opts in
  size (new_PromisePool (any := nat) opts) = Fin 10
  ∧ running s = [10]
  ∧ ¬ nonpositive_cap_as_stated nat.
Proof.
  intros opts s.
  split; [vm_compute; reflexivity|]. split; [vm_compute; reflexivity|].
  intros H.
  destruct (H 0%Z None [Aenqueue (task 10)] s
              (observed [Aenqueue (task 10)] opts)) as [Hrun _].
  - lia.
  - vm_compute. reflexivity.
  - vm_compute in Hrun. discriminate.
Qed.

Lemma cap_not_validated_witness :
  let opts := plain_options (Fin (-1)) None in
  let tr := [Aenqueue (any := nat) (task 10); Aclose] in
  let s := final_state tr (Some opts) in
  let obs := observed tr (Some opts) in
  concurrency opts = Fin (-1)
  ∧ (-1 < 0)%Z
  ∧ run tr (new_PromisePool (Some opts)) = Some (s, obs)
  ∧ size (new_PromisePool (any := nat) (Some opts)) = Fin (-1)
  ∧ running s = [] ∧ reactions s = []
  ∧ (∀ p i o, Ran p i o ∉ obs)
  ∧ (∀ r, promise s = Fulfilled r → r = [] ∧ admissions obs = [])
  ∧ (isClosed s = true → admissions obs = [] → promise s = Fulfilled []).
Proof.
  intros opts tr s obs.
  assert (Hrun : run tr (new_PromisePool (Some opts)) = Some (s, obs))
    by (vm_compute; reflexivity).
  destruct (cap_not_validated (any := nat) opts (-1) eq_refl)
    as [Hsize Hneg].
  split; [reflexivity|]. split; [lia|]. split; [exact Hrun|].
  split; [exact Hsize|].
  exact (Hneg ltac:(lia) tr s obs Hrun).
Defined.

(** ** The [close] event *)

(** C7.  A pool with a [close] listener resolves, and the listener is never
    called: nothing emits [close]. *)
Theorem close_listener_never_called :
  let opts := options_with (Fin 1) None in
  let tr := [Aon Eclose 40; Aenqueue (task 10); Aclose;
             Asettle 10 (Resolves 5)] in
  let s := final_state (any := nat) tr opts in
  promise s = Fulfilled [Some (Value 5)]
  ∧ listeners s !! Eclose = Some [(40, false)]
  ∧ called s = []
  ∧ emitted s = [Estart; Efull; Enext].
Proof. vm_compute. repeat split. Qed.

(** ** The [full] event *)

(** C8. In a pool with finite cap [C], a scheduling pass emits [full]
    exactly once if it launches at least one task and ends with [C] tasks
    in flight, and does not emit it otherwise; in particular an [enqueue]
    made while [C] tasks are in flight emits no [full]. *)
Theorem full_once_per_filling_pass {any : Type} (s : @PromisePool any)
    (C : Z) :
  size s = Fin C →
  emissions Efull (runNext s)
  = emissions Efull s
    + (if bool_decide (length (running s) < length (running (runNext s))
                       ∧ Z.of_nat (length (running (runNext s))) = C)
       then 1 else 0)
  ∧ (Z.of_nat (length (running s)) = C →
     ∀ g s' ob, step (Aenqueue g) s = Some (s', ob) →
       emissions Efull s' = emissions Efull s).
Proof.
  intros Hs. split; [by apply runNext_full|].
  intros Hfull g s' ob. cbn. unfold enqueue.
  destruct (isClosed s); [by intros [= <- _]|].
  destruct (isResolved s); [by intros [= <- _]|].
  intros [= <- _]. cbn.
  set (s1 := set_currentIndex _ _).
  assert (Hpass : ∀ s2 : @PromisePool any, size s2 = Fin C → running s2 = running s →
            emissions Efull (runNext s2) = emissions Efull s2).
  { intros s2 Hs2 Hr2. rewrite (runNext_full s2 C Hs2), Hr2.
    rewrite bool_decide_eq_false_2 by lia. lia. }
  destruct (default true _ && negb (isStarted s)).
  - unfold start. destruct (isStarted s1).
    + by rewrite Hpass.
    + rewrite Hpass; cbn.
      * unfold emissions at 1. cbn.
        change (emissions Efull (emit Estart s1) = emissions Efull s).
        rewrite emissions_emit.
        destruct (decide (Estart = Efull)); [done|].
        unfold emissions. cbn. lia.
      * by rewrite (core_size _ _ (emit_core Estart s1)).
      * by rewrite (core_running _ _ (emit_core Estart s1)).
  - destruct (isStarted s); [|done]. by rewrite Hpass.
Qed.

Lemma full_once_per_filling_pass_witness :
  let opts := options_with (Fin 1) None in
  let s := final_state one_running opts in
  let s' := final_state (one_running ++ [Aenqueue (task 11)]) opts in
  size s = Fin 1 ∧ Z.of_nat (length (running s)) = 1%Z
  ∧ step (Aenqueue (task 11)) s = Some (s', Accepted 1 (task 11))
  ∧ emissions Efull (runNext s)
    = emissions Efull s
      + (if bool_decide (length (running s) < length (running (runNext s))
                         ∧ Z.of_nat (length (running (runNext s))) = 1%Z)
         then 1 else 0)
  ∧ emissions Efull s' = emissions Efull s.
Proof.
  intros opts s s'.
  assert (H1 : size s = Fin 1) by (vm_compute; reflexivity).
  assert (H2 : Z.of_nat (length (running s)) = 1%Z)
    by (vm_compute; reflexivity).
  assert (H3 : step (Aenqueue (task 11)) s = Some (s', Accepted 1 (task 11)))
    by (vm_compute; reflexivity).
  destruct (full_once_per_filling_pass s 1 H1) as [Hpass Hfull].
  split; [exact H1|]. split; [exact H2|]. split; [exact H3|].
  split; [exact Hpass|].
  exact (Hfull H2 (task 11) s' (Accepted 1 (task 11)) H3).
Defined.

(** ** The [available] event *)




(** ** Listener registration *)

(** C10. In any state an execution reaches, after two registrations of
    callback [cb] for event [type], each through [on] or [once], the map of
    [type] holds exactly one record for [cb], whose one-shot flag is that
    of the second registration, and the next emission of [type] calls [cb]
    exactly once. *)
Theorem listener_keyed_by_callback {any : Type}
    (opts : option PoolOptions) tr (s : @PromisePool any) obs type cb
    (first second : bool) :
  run tr (new_PromisePool opts) = Some (s, obs) →
  let s2 := register second type cb (register first type cb s) in
  ∃ m, listeners s2 !! type = Some m
    ∧ filter (fun e => e.1 = cb) m = [(cb, second)]
    ∧ filter (fun c => c.1 = cb) (called (emit type s2))
      = filter (fun c => c.1 = cb) (called s2) ++ [(cb, length (running s2))].
Proof.
  intros Hrun s2. pose proof (wf_listeners_run _ _ _ _ Hrun) as Hwf.
  set (m0 := default [] (listeners s !! type)).
  assert (Hm0 : NoDup m0.*1).
  { unfold m0. destruct (listeners s !! type) eqn:Hm; cbn;
      [by eapply Hwf|constructor]. }
  assert (H2 : listeners s2 !! type
               = Some (Map_set cb second (Map_set cb first m0))).
  { unfold s2. by rewrite !register_lookup. }
  assert (Hone : filter (fun e : callback * bool => e.1 = cb)
                   (Map_set cb second (Map_set cb first m0))
                 = [(cb, second)])
    by by apply Map_set_one, Map_set_NoDup.
  eexists. split; [exact H2|]. split; [exact Hone|].
  rewrite emit_called, H2, filter_app. cbn [default from_option id].
  f_equal. by rewrite filter_called, Hone.
Qed.

Lemma listener_keyed_by_callback_witness :
  let opts := options_with (Fin 1) None in
  let s := final_state one_running opts in
  let obs := observed one_running opts in
  let s2 := register false Efull 40 (register true Efull 40 s) in
  run one_running (new_PromisePool opts) = Some (s, obs)
  ∧ ∃ m, listeners s2 !! Efull = Some m
      ∧ filter (fun e => e.1 = 40) m = [(40, false)]
      ∧ filter (fun c => c.1 = 40) (called (emit Efull s2))
        = filter (fun c => c.1 = 40) (called s2) ++ [(40, length (running s2))].
Proof.
  intros opts s obs s2.
  assert (Hrun : run one_running (new_PromisePool opts) = Some (s, obs))
    by (vm_compute; reflexivity).
  split; [exact Hrun|].
  exact (listener_keyed_by_callback opts one_running s obs Efull 40
           true false Hrun).
Defined.

(** * Further properties *)

(** ** Turns, move by move *)

Section Turns.

Context {any : Type}.
Implicit Types s : @PromisePool any.
Implicit Types L : list (@observation any).

(** Every turn is made of a few moves: a flag is set, a generator is
    pushed, a completion is recorded, an event is emitted, and most turns
    end with a scheduling pass.  [I] is what holds before the pass, [P]
    what holds between turns, [K] what is already known between turns. *)
Section Principle.

Variables P I K : list (@observation any) → @PromisePool any → Prop.

Hypothesis P_quiet : ∀ L s s', quiet s s' → P L s → P L s'.
Hypothesis I_quiet : ∀ L s s', quiet s s' → I L s → I L s'.
Hypothesis P_weak : ∀ L s, P L s → I L s.
Hypothesis I_pass : ∀ L s, I L s → P L (runNext s).
Hypothesis P_returned : ∀ L s, P L s → P (L ++ [Returned]) s.
Hypothesis P_thrown :
  ∀ L s message, P L s → P (L ++ [Thrown message]) s.
Hypothesis I_begin :
  ∀ L s, I L s → isStarted s = false →
    I L (set_isStarted true (emit Estart s)).
Hypothesis I_close : ∀ L s, I L s → I L (set_isClosed true s).
Hypothesis I_push :
  ∀ L s g, P L s → K L s → isClosed s = false → isResolved s = false →
    I (L ++ [Accepted (currentIndex s) g]) (pushed g s).
Hypothesis P_queued :
  ∀ L s g, P L s → K L s → isClosed s = false → isResolved s = false →
    isStarted s = false →
    P (L ++ [Accepted (currentIndex s) g]) (pushed g s).
Hypothesis P_skip :
  ∀ L s p i rest o, P L s → K L s →
    take_reaction p (reactions s) = Some (i, rest) →
    isResolved s = true ∨ indexOf p (running s) = None →
    P (L ++ [Ran p i o]) (set_reactions rest s).
Hypothesis I_settle :
  ∀ L s p i rest n o x, P L s → K L s →
    take_reaction p (reactions s) = Some (i, rest) →
    isResolved s = false → indexOf p (running s) = Some n →
    (∀ e, o = Rejects e → accumulate s) →
    core x = core (recorded n i (slot_of i o) (set_reactions rest s)) →
    emitted x = emitted s → called x = called s →
    I (L ++ [Ran p i o]) (emit Enext x).
Hypothesis P_fail :
  ∀ L s p i rest n e, P L s → K L s →
    take_reaction p (reactions s) = Some (i, rest) →
    isResolved s = false → indexOf p (running s) = Some n →
    default false (options s ≫= rejectOnError) = true →
    P (L ++ [Ran p i (Rejects e)])
      (reject e (set_isResolved true
         (recorded n i (slot_of i (Rejects e)) (set_reactions rest s)))).

Lemma turn_start L s : I L s → P L (start s).
Proof.
  intros HI. unfold start. apply I_pass.
  destruct (isStarted s) eqn:Hst; [done|].
  eapply I_quiet; [|exact (I_begin L s HI Hst)]. done.
Qed.

Lemma turn_invariant L a s s' ob :
  P L s → K L s → step a s = Some (s', ob) → P (L ++ [ob]) s'.
Proof.
  intros HP HK. destruct a as [|g| |t cb|t cb|p o]; cbn.
  - intros [= <- <-]. by apply turn_start, P_weak, P_returned.
  - unfold enqueue. destruct (isClosed s) eqn:Hcl.
    { intros [= <- <-]. by apply P_thrown. }
    destruct (isResolved s) eqn:Hres.
    { intros [= <- <-]. by apply P_thrown. }
    intros [= <- <-].
    pose proof (I_push L s g HP HK Hcl Hres) as HI.
    set (L' := L ++ _) in *.
    change (P L'
      (let x := pushed g (verbose Linfo
                  [Str ("enqueue promise@" +:+ pretty (currentIndex s))] s) in
       if default true (options x ≫= autoStart) && negb (isStarted x)
       then start x else if isStarted x then runNext x else x)).
    set (x := pushed g (verbose _ _ s)).
    assert (Hq : quiet (pushed g s) x) by done.
    cbn zeta. destruct (default true _ && negb (isStarted x)).
    + apply turn_start. by eapply I_quiet.
    + destruct (isStarted x) eqn:Hst.
      * apply I_pass. by eapply I_quiet.
      * eapply P_quiet; [exact Hq|]. by apply P_queued.
  - intros [= <- <-]. unfold close. apply turn_start.
    eapply I_quiet; [|apply I_close, P_weak, P_returned, HP]. done.
  - intros [= <- <-]. eapply P_quiet; [|apply P_returned, HP]. done.
  - intros [= <- <-]. eapply P_quiet; [|apply P_returned, HP]. done.
  - destruct (take_reaction p (reactions s)) as [[i rest]|] eqn:Ht; [|done].
    cbn. intros [= <- <-].
    destruct (isResolved s) eqn:Hres.
    { replace (match o with
               | Resolves v => promiseDone p v i (set_reactions rest s)
               | Rejects e => promiseRejected p e i (set_reactions rest s)
               end) with (set_reactions rest s)
        by (destruct o;
            by rewrite ?promiseDone_settled, ?promiseRejected_settled).
      apply (P_skip L s p i rest o HP HK Ht). by left. }
    destruct (indexOf p (running s)) as [n|] eqn:Hi.
    2: { pose proof (P_skip L s p i rest o HP HK Ht (or_intror Hi)) as HS.
         destruct o;
           rewrite ?promiseDone_unknown, ?promiseRejected_unknown by done;
           (eapply P_quiet; [|exact HS]); done. }
    destruct o as [v|e].
    + rewrite (promiseDone_tracked _ _ _ _ n) by done.
      apply I_pass.
      eapply (I_settle L s p i rest n (Resolves v)); try done.
    + rewrite (promiseRejected_tracked _ _ _ _ n) by done.
      match goal with
      | |- P _ (verbose _ _ ?x) => apply (P_quiet _ x); [done|]
      end.
      cbn zeta.
      destruct (default false (options (set_reactions rest s) ≫= rejectOnError))
        eqn:Hmode.
      * by apply P_fail.
      * apply I_pass.
        eapply (I_settle L s p i rest n (Rejects e)); try done.
Qed.

Hypothesis K_step :
  ∀ L a s s' ob, K L s → step a s = Some (s', ob) → K (L ++ [ob]) s'.

Lemma turns_invariant tr L s s' obs :
  P L s → K L s → run tr s = Some (s', obs) → P (L ++ obs) s'.
Proof.
  intros HP HK Hrun.
  enough (P (L ++ obs) s' ∧ K (L ++ obs) s') by tauto.
  refine (run_invariant (fun L s => P L s ∧ K L s) _ tr L s s' obs
            (conj HP HK) Hrun).
  intros L0 a s0 s1 ob [HP0 HK0] Hstep. split.
  - by eapply turn_invariant.
  - by eapply K_step.
Qed.

End Principle.

(** The bookkeeping is known between the turns of any execution. *)
Lemma kept_step L a s s' ob :
  kept L s → step a s = Some (s', ob) → kept (L ++ [ob]) s'.
Proof.
  intros HK Hstep Hrej. eapply ordered_step; [|done..]. apply HK.
  unfold is_rejected in *. destruct (promise s) as [| |e] eqn:Hp; try done.
  by rewrite (rejected_step e _ _ _ _ Hstep Hp) in Hrej.
Qed.

Lemma kept_new (opts : option PoolOptions) :
  kept [] (new_PromisePool (any := any) opts).
Proof.
  intros _. split; try done; cbn; try apply NoDup_nil_2; try by left.
  - by intros ?? ?%elem_of_nil.
  - by intros ??? ?%elem_of_nil.
Qed.

End Turns.

(** ** What a pass leaves alone and what it may emit *)

Section Passes.

Context {any : Type}.
Implicit Types s : @PromisePool any.
Implicit Types L obs : list (@observation any).

Lemma runNext_static s :
  options (runNext s) = options s ∧ size (runNext s) = size s
  ∧ isStarted (runNext s) = isStarted s ∧ isClosed (runNext s) = isClosed s
  ∧ currentIndex (runNext s) = currentIndex s.
Proof.
  destruct (runNext_cases s) as
    [_ -> | k _ _ _ Hcore _ _ _ | _ _ _ _ Hcore _ | _ _ _ _ Hcore _
     | _ _ _ Hcore _]; [done|..];
    apply core_fields in Hcore
      as (Ei & _ & _ & _ & _ & _ & _ & Est & Ecl & Eo & Esz & _);
    rewrite Ei, Est, Ecl, Eo, Esz; try done.
  unfold resolve; cbn. by destruct (promise s).
Qed.

(** A pass emits nothing, or [full], or [available]; nothing when the pool
    is not started, and nothing when the cap is [Infinity]. *)
Lemma runNext_new s :
  ∃ new, emitted (runNext s) = emitted s ++ new
    ∧ (new = [] ∨ new = [Efull] ∨ new = [Eavailable])
    ∧ (isStarted s = false → new = [])
    ∧ (size s = Infinity → new = []).
Proof.
  destruct (runNext_cases s) as
    [Hst -> | k Hst _ _ _ _ _ Hem | Hst _ _ _ _ Hem | Hst _ _ _ _ Hem
     | Hst _ _ _ Hem].
  - exists []. rewrite app_nil_r. auto.
  - eexists. split; [exact Hem|]. unfold pass_full.
    split; [destruct (_ && _); auto|]. split; [congruence|].
    intros ->. cbn. by rewrite andb_false_r.
  - exists []. rewrite app_nil_r. split; [done|]. split; [auto|].
    split; [congruence|done].
  - exists []. rewrite app_nil_r. split; [done|]. split; [auto|].
    split; [congruence|done].
  - eexists. split; [exact Hem|]. unfold pass_available.
    split; [destruct (length_eq_pred _ _); auto|]. split; [congruence|].
    by intros ->.
Qed.

Lemma run_app tr1 tr2 s s1 s2 obs1 obs2 :
  run tr1 s = Some (s1, obs1) → run tr2 s1 = Some (s2, obs2) →
  run (tr1 ++ tr2) s = Some (s2, obs1 ++ obs2).
Proof.
  revert s obs1. induction tr1 as [|a tr1 IH]; intros s obs1; cbn.
  - by intros [= <- <-].
  - destruct (step a s) as [[s' ob]|]; [|done]. cbn.
    destruct (run tr1 s') as [[s'' obs']|] eqn:Hr; [|done]. cbn.
    intros [= <- <-] H2. by rewrite (IH _ _ Hr H2).
Qed.

(** A property kept by the turns of some kind holds along the executions
    made of such turns. *)
Lemma run_invariant_where (A : @action any → Prop)
    (P : list (@observation any) → @PromisePool any → Prop) :
  (∀ L a s s' ob, A a → P L s → step a s = Some (s', ob) → P (L ++ [ob]) s') →
  ∀ tr L s s' obs,
    Forall A tr → P L s → run tr s = Some (s', obs) → P (L ++ obs) s'.
Proof.
  intros Hstep. induction tr as [|a tr IH]; intros L s s' obs HA HP Hrun.
  - cbn in Hrun. simplify_eq. by rewrite app_nil_r.
  - apply Forall_cons in HA as [Ha HA]. cbn in Hrun.
    destruct (step a s) as [[s1 ob]|] eqn:Hs; [|done]. cbn in Hrun.
    destruct (run tr s1) as [[s2 obs']|] eqn:Hr; [|done]. cbn in Hrun.
    simplify_eq.
    replace (L ++ ob :: obs') with ((L ++ [ob]) ++ obs')
      by by rewrite <- app_assoc.
    eapply IH; [done| |done]. by eapply Hstep.
Qed.

End Passes.

(** ** Before the pool is started *)

Section Dormant.

Context {any : Type}.
Implicit Types s : @PromisePool any.
Implicit Types L obs : list (@observation any).

(** X1. In a pool built with [autoStart: false], as long as neither
    [start()] nor [close()] is called, the pool is not started: every
    [enqueue] is accepted and queued in order, nothing is launched, no
    event is emitted, no listener is called and the promise is pending. *)
Theorem autoStart_off_queues (opts : PoolOptions) tr s obs :
  autoStart opts = Some false →
  Forall (fun a => a ≠ Astart ∧ a ≠ Aclose) tr →
  run tr (new_PromisePool (Some opts)) = Some (s, obs) →
  isStarted s = false ∧ isClosed s = false
  ∧ running s = [] ∧ emitted s = [] ∧ called s = []
  ∧ promise s = Pending
  ∧ enqueued s = queue_entry <$> admissions obs
  ∧ ran_count obs = 0
  ∧ ∀ message, Thrown message ∉ obs.
Proof.
  intros Hauto Htr Hrun.
  pose (P := fun L s =>
    options s = Some opts ∧ isStarted s = false ∧ dormant s
    ∧ enqueued s = queue_entry <$> admissions L
    ∧ ran_count L = 0 ∧ ∀ message, Thrown message ∉ L).
  enough (P obs s) as (_ & ? & [] & ? & ? & ?) by done.
  refine (run_invariant_where _ P _ tr [] _ s obs Htr _ Hrun).
  - clear s obs Hrun Htr.
    intros L a s s' ob [Hns Hnc] (Ho & Hst & Hd & Hq & Hr & Ht) Hstep.
    destruct Hd as [Hem Hca Hrun Hre Hres Hp Hrs Hcl Hql].
    destruct a as [|g| |t cb|t cb|p o]; cbn in Hstep; try done.
    + unfold enqueue in Hstep. rewrite Hcl, Hrs in Hstep. cbn in Hstep.
      rewrite Ho, Hst in Hstep. cbn in Hstep.
      rewrite Hauto in Hstep. cbn in Hstep.
      injection Hstep as <- <-.
      repeat split; cbn; try done.
      * rewrite length_app. cbn. lia.
      * rewrite admissions_app, fmap_app, <- Hq. done.
      * unfold ran_count in *. by rewrite omap_app, length_app, Hr.
      * intros m [?|?%list_elem_of_singleton]%elem_of_app; [by eapply Ht|done].
    + injection Hstep as <- <-. repeat split; cbn; try done.
      * by rewrite admissions_app, app_nil_r.
      * unfold ran_count in *. by rewrite omap_app, length_app, Hr.
      * intros m [?|?%list_elem_of_singleton]%elem_of_app; [by eapply Ht|done].
    + injection Hstep as <- <-. repeat split; cbn; try done.
      * by rewrite admissions_app, app_nil_r.
      * unfold ran_count in *. by rewrite omap_app, length_app, Hr.
      * intros m [?|?%list_elem_of_singleton]%elem_of_app; [by eapply Ht|done].
    + by rewrite Hre in Hstep.
  - repeat split; try done. intros m ?%elem_of_nil. done.
Qed.

End Dormant.

Lemma autoStart_off_queues_witness :
  let opts := manual_options (Fin 2) in
  let s := final_state queued_only (Some opts) in
  let obs := observed queued_only (Some opts) in
  run queued_only (new_PromisePool (Some opts)) = Some (s, obs)
  ∧ isStarted s = false ∧ isClosed s = false
  ∧ running s = [] ∧ emitted s = [] ∧ called s = []
  ∧ promise s = Pending
  ∧ enqueued s = queue_entry <$> admissions obs
  ∧ ran_count obs = 0
  ∧ ∀ message, Thrown message ∉ obs.
Proof.
  intros opts s obs.
  assert (Hrun : run queued_only (new_PromisePool (Some opts)) = Some (s, obs))
    by (vm_compute; reflexivity).
  assert (Htr : Forall (fun a : @action nat => a ≠ Astart ∧ a ≠ Aclose)
                  queued_only)
    by (repeat (constructor; [split; discriminate|]); constructor).
  split; [exact Hrun|].
  exact (autoStart_off_queues opts queued_only s obs eq_refl Htr Hrun).
Defined.

(** ** The events of an execution *)

Section Events.

Context {any : Type}.
Implicit Types s : @PromisePool any.
Implicit Types L obs : list (@observation any).

Lemma runNext_idle s : isStarted s = false → runNext s = s.
Proof. intros H. unfold runNext. by rewrite H. Qed.

Lemma quiet_fields s s' :
  quiet s s' →
  isStarted s' = isStarted s ∧ reactions s' = reactions s
  ∧ emitted s' = emitted s ∧ size s' = size s ∧ options s' = options s.
Proof.
  intros (Hc & He & _). apply core_fields in Hc. tauto.
Qed.

Lemma ran_count_app L L' : ran_count (L ++ L') = ran_count L + ran_count L'.
Proof. unfold ran_count. by rewrite omap_app, length_app. Qed.

(** X2. [start] is emitted exactly once, by the call that starts the pool,
    before any other event: a pool that is not started has emitted
    nothing, and the events of a started pool are [start] followed by
    events other than [start]. *)
Theorem start_emitted_once_first (opts : option PoolOptions) tr s obs :
  run tr (new_PromisePool opts) = Some (s, obs) →
  (isStarted s = false → emitted s = [])
  ∧ (isStarted s = true →
     ∃ rest, emitted s = Estart :: rest ∧ Estart ∉ rest).
Proof.
  intros Hrun.
  pose (P := fun (L : list (@observation any)) s =>
    (isStarted s = false → emitted s = [] ∧ reactions s = [])
    ∧ (isStarted s = true →
       ∃ rest, emitted s = Estart :: rest ∧ Estart ∉ rest)).
  enough (P ([] ++ obs) s) as [H1 H2] by (split; [apply H1|apply H2]).
  refine (turns_invariant P P (fun _ _ => True) _ _ _ _ _ _ _ _ _ _ _ _ _ _
            tr [] _ s obs _ I Hrun); clear.
  - intros L s s' (Est & Ere & Eem & _)%quiet_fields [H1 H2].
    split; rewrite Est, ?Ere, Eem; done.
  - intros L s s' (Est & Ere & Eem & _)%quiet_fields [H1 H2].
    split; rewrite Est, ?Ere, Eem; done.
  - done.
  - intros L s [H1 H2]. destruct (isStarted s) eqn:Hst.
    + destruct (runNext_static s) as (_ & _ & Est & _).
      destruct (runNext_new s) as (new & Hem & Hnew & _).
      split; rewrite Est, Hst; [done|]. intros _.
      destruct (H2 eq_refl) as (rest & Hr & Hn).
      exists (rest ++ new). rewrite Hem, Hr. split; [done|].
      intros [?|Hin]%elem_of_app; [done|].
      destruct Hnew as [-> | [-> | ->]];
        [by apply elem_of_nil in Hin|by apply list_elem_of_singleton in Hin..].
    + rewrite (runNext_idle s Hst). split; rewrite Hst; [exact H1|done].
  - done.
  - done.
  - intros L s [H1 H2] Hst. split; cbn; [done|]. intros _.
    rewrite emit_emitted. destruct (H1 Hst) as [-> _]. exists [].
    split; [done|]. apply not_elem_of_nil.
  - done.
  - intros L s g [H1 H2] _ _ _. split; cbn; done.
  - intros L s g [H1 H2] _ _ _ _. split; cbn; done.
  - intros L s p i rest o [H1 H2] _ Ht _. split; cbn; [|done].
    intros Hst. destruct (H1 Hst) as [_ Hre]. by rewrite Hre in Ht.
  - intros L s p i rest n o x [H1 H2] _ Ht _ _ _ Hcore Hem _.
    apply core_fields in Hcore as (_ & _ & _ & _ & _ & _ & _ & Est & _).
    pose proof (core_fields _ _ (emit_core Enext x))
      as (_ & _ & _ & _ & _ & _ & _ & Est' & _).
    cbn in Est. split; rewrite Est', Est.
    + intros Hst. destruct (H1 Hst) as [_ Hre]. by rewrite Hre in Ht.
    + intros Hst. destruct (H2 Hst) as (r & Hr & Hn).
      exists (r ++ [Enext]). rewrite emit_emitted, Hem, Hr. split; [done|].
      intros [?|?%list_elem_of_singleton]%elem_of_app; done.
  - intros L s p i rest n e [H1 H2] _ Ht _ _ _.
    unfold reject; cbn. destruct (promise s); split; cbn; try done;
      intros Hst; destruct (H1 Hst) as [_ Hre]; by rewrite Hre in Ht.
  - done.
  - split; [done|]. cbn. done.
Qed.

(** X3. A pool whose cap is [Infinity] never emits [full] nor
    [available]. *)
Theorem unbounded_never_full (opts : PoolOptions) tr s obs :
  concurrency opts = Infinity →
  run tr (new_PromisePool (Some opts)) = Some (s, obs) →
  (Efull ∉ emitted s) ∧ (Eavailable ∉ emitted s).
Proof.
  intros Hc Hrun.
  pose (P := fun (L : list (@observation any)) s =>
    size s = Infinity ∧ (Efull ∉ emitted s) ∧ (Eavailable ∉ emitted s)).
  enough (P ([] ++ obs) s) as (_ & ? & ?) by done.
  refine (turns_invariant P P (fun _ _ => True) _ _ _ _ _ _ _ _ _ _ _ _ _ _
            tr [] _ s obs _ I Hrun); clear -Hc.
  - intros L s s' (_ & _ & Eem & Esz & _)%quiet_fields (? & ? & ?).
    split; rewrite ?Esz, ?Eem; done.
  - intros L s s' (_ & _ & Eem & Esz & _)%quiet_fields (? & ? & ?).
    split; rewrite ?Esz, ?Eem; done.
  - done.
  - intros L s (Hsz & Hf & Ha).
    destruct (runNext_static s) as (_ & Esz & _).
    destruct (runNext_new s) as (new & Hem & _ & _ & Hinf).
    rewrite (Hinf Hsz), app_nil_r in Hem.
    split; rewrite ?Esz, ?Hem; done.
  - done.
  - done.
  - intros L s (Hsz & Hf & Ha) _. unfold P. cbn.
    rewrite emit_emitted.
    split; [by rewrite (core_size _ _ (emit_core Estart s))|].
    split; intros [?|?%list_elem_of_singleton]%elem_of_app; done.
  - done.
  - done.
  - done.
  - done.
  - intros L s p i rest n o x (Hsz & Hf & Ha) _ _ _ _ _ Hcore Hem _.
    unfold P. rewrite emit_emitted, Hem.
    split.
    { rewrite (core_size _ _ (emit_core Enext x)).
      by rewrite (core_size _ _ Hcore). }
    split; intros [?|?%list_elem_of_singleton]%elem_of_app; done.
  - intros L s p i rest n e (Hsz & Hf & Ha) _ _ _ _ _.
    unfold P, reject; cbn. by destruct (promise s).
  - done.
  - unfold P. cbn. rewrite Hc. cbn. repeat split; apply not_elem_of_nil.
Qed.

Lemma reject_promise e s :
  promise (reject e s)
  = match promise s with Pending => Rejected e | q => q end.
Proof. unfold reject. destruct (promise s) eqn:E; cbn; by rewrite ?E. Qed.

Lemma runNext_rejected s : is_rejected (runNext s) = is_rejected s.
Proof.
  unfold is_rejected.
  destruct (runNext_cases s) as
    [_ -> | k _ _ _ Hcore _ _ _ | _ _ _ _ Hcore _ | _ _ _ _ Hcore _
     | _ _ _ Hcore _]; [done|..];
    rewrite (core_promise _ _ Hcore); try done.
  unfold resolve; cbn. destruct (promise s) eqn:E; cbn; by rewrite ?E.
Qed.

Lemma runNext_emissions_next s : emissions Enext (runNext s) = emissions Enext s.
Proof.
  destruct (runNext_new s) as (new & Hem & Hnew & _).
  rewrite (emissions_app _ _ _ _ Hem).
  assert (length (filter (fun t => t = Enext) new) = 0) as ->
    by (by destruct Hnew as [-> | [-> | ->]]).
  lia.
Qed.

(** A continuation taken from an unrejected pool finds its promise in
    flight and the pool unsettled. *)
Lemma kept_taken L s p i rest :
  kept L s → is_rejected s = false →
  take_reaction p (reactions s) = Some (i, rest) →
  isResolved s = false ∧ promise s = Pending
  ∧ ∃ n, indexOf p (running s) = Some n ∧ reactions s !! n = Some (p, i)
         ∧ rest = delete n (reactions s).
Proof.
  intros HK Hrej Ht. specialize (HK Hrej).
  apply take_reaction_Some in Ht as (n & Hi & _ & Hn & Hrest).
  destruct (ordered_unresolved _ _ _ _ HK Hn) as [? ?].
  repeat split; try done. exists n. by rewrite (ord_running _ _ HK).
Qed.


(** X5. Every admitted task is in one place: as long as the pool promise
    is not rejected, the number of admissions is the number of queued
    tasks ([waiting]) plus the number of tasks in flight ([running]) plus
    the number of continuations that ran. *)
Theorem every_task_accounted (opts : option PoolOptions) tr s obs :
  run tr (new_PromisePool opts) = Some (s, obs) →
  is_rejected s = false →
  length (admissions obs)
  = length (enqueued s) + length (running s) + ran_count obs.
Proof.
  intros Hrun Hrej.
  rewrite (admissions_length _ _ (ordered_run _ _ _ _ Hrun Hrej)).
  revert Hrej.
  pose (P := fun (L : list (@observation any)) s =>
    is_rejected s = false →
    currentIndex s = length (enqueued s) + length (running s) + ran_count L).
  change (P ([] ++ obs) s).
  refine (turns_invariant P P kept _ _ _ _ _ _ _ _ _ _ _ _ _ _
            tr [] _ s obs _ (kept_new opts) Hrun); clear.
  - intros L s s' (Hc & _) HP. unfold P, is_rejected.
    rewrite (core_promise _ _ Hc).
    apply core_fields in Hc as (-> & -> & -> & _). exact HP.
  - intros L s s' (Hc & _) HP. unfold P, is_rejected.
    rewrite (core_promise _ _ Hc).
    apply core_fields in Hc as (-> & -> & -> & _). exact HP.
  - done.
  - intros L s HP. unfold P. rewrite runNext_rejected. intros Hrej.
    specialize (HP Hrej).
    destruct (runNext_cases s) as
      [_ -> | k _ _ Hk Hcore _ _ _ | _ Hq Hr _ Hcore _ | _ _ _ _ Hcore _
       | _ _ _ Hcore _]; [done|..];
      apply core_fields in Hcore as (-> & -> & -> & _); try done.
    + cbn. rewrite length_app, length_fmap, length_fmap, length_take,
        length_drop. lia.
    + unfold resolve; cbn. by destruct (promise s).
  - intros L s HP Hrej. rewrite ran_count_app. unfold ran_count at 2; cbn.
    rewrite HP by done. lia.
  - intros L s m HP Hrej. rewrite ran_count_app. unfold ran_count at 2; cbn.
    rewrite HP by done. lia.
  - intros L s HP _. unfold P, is_rejected. cbn.
    rewrite (core_promise _ _ (emit_core Estart s)).
    pose proof (core_fields _ _ (emit_core Estart s)) as (-> & -> & -> & _).
    exact HP.
  - done.
  - intros L s g HP _ _ _ Hrej. rewrite ran_count_app. unfold ran_count at 2.
    cbn. rewrite length_app. cbn. specialize (HP Hrej). lia.
  - intros L s g HP _ _ _ _ Hrej. rewrite ran_count_app.
    unfold ran_count at 2.
    cbn. rewrite length_app. cbn. specialize (HP Hrej). lia.
  - intros L s p i rest o HP HK Ht Hskip Hrej.
    destruct (kept_taken _ _ _ _ _ HK Hrej Ht) as (Hres & _ & n & Hn & _).
    destruct Hskip as [?|?]; congruence.
  - intros L s p i rest n o x HP HK Ht Hres Hn _ Hcore _ _. unfold P.
    unfold is_rejected.
    rewrite (core_promise _ _ (emit_core Enext x)), (core_promise _ _ Hcore).
    pose proof (core_fields _ _ (emit_core Enext x)) as (-> & -> & -> & _).
    apply core_fields in Hcore as (-> & -> & -> & _). cbn.
    intros Hrej. specialize (HP Hrej).
    rewrite ran_count_app. unfold ran_count at 2. cbn.
    assert (n < length (running s)).
    { destruct (kept_taken _ _ _ _ _ HK Hrej Ht) as (_ & _ & n' & Hn' & Hl & _).
      assert (n' = n) as -> by congruence.
      rewrite (ord_running _ _ (HK Hrej)), length_fmap.
      by eapply lookup_lt_Some. }
    rewrite length_delete by (by apply lookup_lt_is_Some_2). lia.
  - intros L s p i rest n e HP HK Ht Hres _ _ Hrej.
    assert (Hs : is_rejected s = false).
    { revert Hrej. unfold is_rejected. rewrite reject_promise. cbn.
      by destruct (promise s). }
    destruct (kept_taken _ _ _ _ _ HK Hs Ht) as (_ & Hp & _).
    revert Hrej. unfold is_rejected. rewrite reject_promise. cbn.
    by rewrite Hp.
  - intros L a s s' ob. apply kept_step.
  - done.
Qed.

End Events.

Lemma start_emitted_once_first_witness :
  let opts := options_with (Fin 2) None in
  let s := final_state out_of_order opts in
  let obs := observed out_of_order opts in
  run out_of_order (new_PromisePool opts) = Some (s, obs)
  ∧ (isStarted s = false → emitted s = [])
  ∧ (isStarted s = true →
     ∃ rest, emitted s = Estart :: rest ∧ Estart ∉ rest).
Proof.
  intros opts s obs.
  assert (Hrun : run out_of_order (new_PromisePool opts) = Some (s, obs))
    by (vm_compute; reflexivity).
  split; [exact Hrun|].
  exact (start_emitted_once_first opts out_of_order s obs Hrun).
Defined.

Lemma unbounded_never_full_witness :
  let opts := plain_options Infinity None in
  let s := final_state one_queued (Some opts) in
  let obs := observed one_queued (Some opts) in
  concurrency opts = Infinity
  ∧ run one_queued (new_PromisePool (Some opts)) = Some (s, obs)
  ∧ (Efull ∉ emitted s) ∧ (Eavailable ∉ emitted s).
Proof.
  intros opts s obs.
  assert (Hrun : run one_queued (new_PromisePool (Some opts)) = Some (s, obs))
    by (vm_compute; reflexivity).
  split; [reflexivity|]. split; [exact Hrun|].
  exact (unbounded_never_full opts one_queued s obs eq_refl Hrun).
Defined.


Lemma every_task_accounted_witness :
  let opts := options_with (Fin 2) None in
  let s := final_state one_queued opts in
  let obs := observed one_queued opts in
  run one_queued (new_PromisePool opts) = Some (s, obs)
  ∧ is_rejected s = false
  ∧ length (admissions obs)
    = length (enqueued s) + length (running s) + ran_count obs.
Proof.
  intros opts s obs.
  assert (Hrun : run one_queued (new_PromisePool opts) = Some (s, obs))
    by (vm_compute; reflexivity).
  assert (Hrej : is_rejected s = false) by (vm_compute; reflexivity).
  split; [exact Hrun|]. split; [exact Hrej|].
  exact (every_task_accounted opts one_queued s obs Hrun Hrej).
Defined.

(** ** The order of launches *)

Section Scheduling.

Context {any : Type}.
Implicit Types s : @PromisePool any.
Implicit Types L obs : list (@observation any).

Lemma core_ledger s s' : core s' = core s → ledger s' = ledger s.
Proof.
  intros H%core_fields. unfold ledger.
  by destruct H as (-> & -> & -> & -> & -> & -> & -> & _).
Qed.

(** A property of the bookkeeping fields that passes, admissions and
    recorded completions keep holds in every execution, as long as the
    promise is not rejected. *)
Section Bookkeeping.

Variable Q : @PromisePool any → Prop.

Hypothesis Q_frame :
  ∀ s s', ledger s' = ledger s → size s' = size s → Q s → Q s'.
Hypothesis Q_pass : ∀ L s, ordered L s → Q s → Q (runNext s).
Hypothesis Q_push :
  ∀ L s g, ordered L s → isResolved s = false → Q s → Q (pushed g s).
Hypothesis Q_record :
  ∀ L s p i n x, ordered L s → isResolved s = false →
    reactions s !! n = Some (p, i) → Q s →
    Q (recorded n i x (set_reactions (delete n (reactions s)) s)).

Lemma bookkeeping_run opts tr s obs :
  Q (new_PromisePool opts) →
  run tr (new_PromisePool opts) = Some (s, obs) →
  is_rejected s = false → Q s.
Proof.
  intros HQ Hrun Hrej.
  pose (P := fun (L : list (@observation any)) s =>
    is_rejected s = false → ordered L s ∧ Q s).
  enough (P ([] ++ obs) s) as HP by (by apply HP).
  clear Hrej.
  refine (turns_invariant P P (fun _ _ => True) _ _ _ _ _ _ _ _ _ _ _ _ _ _
            tr [] _ s obs _ I Hrun); clear -Q_frame Q_pass Q_push Q_record HQ.
  - intros L s s' (Hc & _) HP. unfold P, is_rejected.
    rewrite (core_promise _ _ Hc). intros [Ho Hq]%HP. split.
    + by eapply ordered_core.
    + eapply Q_frame; [by apply core_ledger|by eapply core_size|done].
  - intros L s s' (Hc & _) HP. unfold P, is_rejected.
    rewrite (core_promise _ _ Hc). intros [Ho Hq]%HP. split.
    + by eapply ordered_core.
    + eapply Q_frame; [by apply core_ledger|by eapply core_size|done].
  - done.
  - intros L s HP. unfold P. rewrite runNext_rejected.
    intros [Ho Hq]%HP. split; [by apply ordered_runNext|by eapply Q_pass].
  - intros L s HP [Ho Hq]%HP. split; [by apply ordered_silent|done].
  - intros L s m HP [Ho Hq]%HP. split; [by apply ordered_silent|done].
  - intros L s HP _. unfold P, is_rejected. cbn.
    rewrite (core_promise _ _ (emit_core Estart s)).
    intros [Ho Hq]%HP. split.
    + eapply ordered_ledger; [|exact (ordered_emit _ Estart _ Ho)]. done.
    + eapply Q_frame; [| |exact Hq].
      * exact (core_ledger _ _ (emit_core Estart s)).
      * cbn. by eapply core_size, emit_core.
  - intros L s HP [Ho Hq]%HP. split.
    + eapply ordered_ledger; [|exact Ho]. done.
    + eapply Q_frame; [| |exact Hq]; done.
  - intros L s g HP _ _ Hres [Ho Hq]%HP. split.
    + by apply ordered_push.
    + by eapply Q_push.
  - intros L s g HP _ _ Hres _ [Ho Hq]%HP. split.
    + by apply ordered_push.
    + by eapply Q_push.
  - intros L s p i rest o HP _ Ht Hskip Hrej.
    assert (HK : kept L s) by (intros ?; by apply HP).
    destruct (kept_taken _ _ _ _ _ HK Hrej Ht) as (Hres & _ & n & Hn & _).
    destruct Hskip as [?|?]; congruence.
  - intros L s p i rest n o x HP _ Ht Hres Hn _ Hcore _ _. unfold P.
    unfold is_rejected.
    rewrite (core_promise _ _ (emit_core Enext x)), (core_promise _ _ Hcore).
    intros Hs. change (is_rejected s = false) in Hs.
    destruct (HP Hs) as [Ho Hq].
    assert (HK : kept L s) by (intros ?; by apply HP).
    destruct (kept_taken _ _ _ _ _ HK Hs Ht) as (_ & _ & n' & Hn' & Hl & ->).
    assert (n' = n) as -> by congruence.
    split.
    + apply ordered_emit. eapply ordered_core; [exact Hcore|].
      exact (ordered_record L s p i n o Ho Hres Hl).
    + eapply Q_frame;
        [exact (core_ledger _ _ (emit_core Enext x))
        |by eapply core_size, emit_core|].
      eapply Q_frame;
        [exact (core_ledger _ _ Hcore)|by eapply core_size|].
      by eapply Q_record.
  - intros L s p i rest n e HP _ Ht Hres _ _ Hrej.
    assert (HK : kept L s) by (intros ?; by apply HP).
    assert (Hs : is_rejected s = false).
    { revert Hrej. unfold is_rejected. rewrite reject_promise. cbn.
      by destruct (promise s). }
    destruct (kept_taken _ _ _ _ _ HK Hs Ht) as (_ & Hp & _).
    revert Hrej. unfold is_rejected. rewrite reject_promise. cbn.
    by rewrite Hp.
  - done.
  - intros _. split; [by apply kept_new|done].
Qed.

End Bookkeeping.

(** X6. The queue is first in, first out: in a pool whose promise is not
    rejected the queued tasks are the last admissions, in admission order,
    and every task launched so far (in flight, or completed) was admitted
    before each of them. *)
Theorem queue_is_fifo (opts : option PoolOptions) tr s obs :
  run tr (new_PromisePool opts) = Some (s, obs) →
  is_rejected s = false →
  ∃ k, enqueued s = queue_entry <$> drop k (admissions obs)
    ∧ (index <$> enqueued s) = seq k (length (enqueued s))
    ∧ ∀ p j, ((p, j) ∈ reactions s ∨ ∃ o, Ran p j o ∈ obs) → j < k.
Proof.
  intros Hrun Hrej. pose proof (ordered_run _ _ _ _ Hrun Hrej) as Ho.
  exists (launched s). split; [apply Ho|]. split; [by eapply queue_indices|].
  intros p j [Hin|[o Hin]].
  - by eapply ord_react.
  - by eapply ord_ran.
Qed.

Lemma serial_pass L s :
  ordered L s → size s = Fin 1 ∧ serial s →
  size (runNext s) = Fin 1 ∧ serial (runNext s).
Proof.
  intros Ho [Hsz [Hlen Hlast]].
  destruct (runNext_static s) as (_ & Esz & _). rewrite Esz.
  split; [done|].
  pose proof (ord_queue_len _ _ Ho) as Hql.
  pose proof (queue_indices _ _ Ho) as Hqi.
  unfold serial, launched in *.
  destruct (runNext_cases s) as
    [_ -> | k _ Hne Hk Hcore _ Hgo _ | _ _ _ _ Hcore _ | _ _ _ _ Hcore _
     | _ _ _ Hcore _]; [done|..];
    apply core_fields in Hcore as (-> & _ & -> & _ & _ & _ & -> & _);
    cbn; try done.
  - rewrite Hsz in Hgo.
    rewrite (ord_running _ _ Ho), length_fmap in Hgo.
    destruct k as [|k].
    { rewrite take_0, drop_0. cbn. by rewrite app_nil_r. }
    pose proof (Hgo k (Nat.lt_succ_diag_r k)) as Hk1. cbn in Hk1.
    apply Z.ltb_lt in Hk1.
    assert (length (reactions s) = 0 ∧ k = 0) as [Hr0 ->] by lia.
    destruct (reactions s) as [|]; [|done]. clear Hr0.
    destruct (enqueued s) as [|e q]; [done|]. cbn in *.
    rewrite take_0, drop_0. cbn. split; [done|].
    intros p i Hin%list_elem_of_singleton. unfold queued_reaction in Hin.
    injection Hin as -> ->. injection Hqi as Hqi _. lia.
  - unfold resolve; cbn. by destruct (promise s).
Qed.

(** In a pool of cap 1 the task in flight is the last one launched. *)
Lemma serial_run (opts : PoolOptions) tr s obs :
  concurrency opts = Fin 1 →
  run tr (new_PromisePool (Some opts)) = Some (s, obs) →
  is_rejected s = false → serial s.
Proof.
  intros Hc Hrun Hrej.
  enough (size s = Fin 1 ∧ serial s) by tauto.
  refine (bookkeeping_run (fun s => size s = Fin 1 ∧ serial s)
            _ _ _ _ (Some opts) tr s obs _ Hrun Hrej).
  - intros s1 s2 Hl Hsz [? [Hlen1 Hlast1]]. split; [congruence|].
    assert (reactions s2 = reactions s1 ∧ currentIndex s2 = currentIndex s1
            ∧ enqueued s2 = enqueued s1) as (E1 & E2 & E3)
      by (unfold ledger in Hl; by simplify_eq).
    unfold serial, launched. by rewrite E1, E2, E3.
  - intros L s1. apply serial_pass.
  - intros L s1 g _ _ [? [Hlen1 Hlast1]]. split; [done|].
    unfold serial, launched in *. cbn. split; [done|].
    intros p i Hin. apply Hlast1 in Hin. rewrite length_app. cbn. lia.
  - intros L s1 p i n x _ _ _ [? [Hlen1 Hlast1]]. split; [done|].
    unfold serial, launched in *. cbn. split.
    + pose proof (length_delete_le (reactions s1) n). lia.
    + intros q j Hin%list_elem_of_delete_inv. by apply (Hlast1 q).
  - cbn. rewrite Hc. cbn. split; [done|]. split; [cbn; lia|].
    intros p i ?%elem_of_nil. done.
Qed.

(** When the task in flight is the last one launched, every launched
    task but the last has completed. *)
Lemma serial_sequence L s i j :
  ordered L s → serial s → i < j →
  (∃ p, (p, j) ∈ reactions s) ∨ (∃ p o, Ran p j o ∈ L) →
  ∃ p o, Ran p i o ∈ L.
Proof.
  intros Ho [Hlen Hlast] Hij Hj.
  assert (j < launched s) as Hjl.
  { destruct Hj as [[p Hin]|(p & o & Hin)];
      [by eapply ord_react|by eapply ord_ran]. }
  assert (Hi : i < currentIndex s) by (unfold launched in Hjl; lia).
  assert (∃ g, admissions L !! i = Some (i, g)) as [g Hg].
  { pose proof (ord_admitted _ _ Ho) as Ha.
    assert (Hl : (admissions L).*1 !! i = Some i)
      by (rewrite Ha; by apply lookup_seq).
    rewrite list_lookup_fmap in Hl.
    destruct (admissions L !! i) as [[i' g]|]; [|done].
    cbn in Hl. simplify_eq. by exists g. }
  destruct (ord_where _ _ Ho i g Hg ltac:(lia)) as [[Hin _]|(_ & o & Hr & _)].
  - apply Hlast in Hin. lia.
  - exists (generate g), o. apply runs_of_elem. rewrite Hr. by left.
Qed.


Lemma runNext_rested s :
  isStarted (runNext s) = true → enqueued (runNext s) ≠ [] →
  length_lt (length (running (runNext s))) (size (runNext s)) = false.
Proof.
  destruct (runNext_cases s) as
    [Hst -> | k _ Hne Hk Hcore Hstop _ _ | _ Hq _ _ Hcore _
     | _ Hq _ _ Hcore _ | _ Hq _ Hcore _]; [congruence|..];
    apply core_fields in Hcore
      as (_ & -> & -> & _ & _ & _ & _ & _ & _ & _ & -> & _); cbn;
    try (intros _ Hne'; by rewrite Hq in Hne').
  - intros _ Hd. rewrite length_app, !length_fmap, length_take.
    assert (k < length (enqueued s)).
    { destruct (decide (k < length (enqueued s))); [done|].
      rewrite drop_ge in Hd by lia. done. }
    rewrite Nat.min_l by lia. by apply Hstop.
  - unfold resolve; cbn. intros _ Hne'.
    destruct (promise s); cbn in Hne'; by rewrite Hq in Hne'.
Qed.


End Scheduling.

Lemma queue_is_fifo_witness :
  let opts := options_with (Fin 2) None in
  let s := final_state one_queued opts in
  let obs := observed one_queued opts in
  run one_queued (new_PromisePool opts) = Some (s, obs)
  ∧ is_rejected s = false
  ∧ ∃ k, enqueued s = queue_entry <$> drop k (admissions obs)
      ∧ (index <$> enqueued s) = seq k (length (enqueued s))
      ∧ ∀ p j, ((p, j) ∈ reactions s ∨ ∃ o, Ran p j o ∈ obs) → j < k.
Proof.
  intros opts s obs.
  assert (Hrun : run one_queued (new_PromisePool opts) = Some (s, obs))
    by (vm_compute; reflexivity).
  assert (Hrej : is_rejected s = false) by (vm_compute; reflexivity).
  split; [exact Hrun|]. split; [exact Hrej|].
  exact (queue_is_fifo opts one_queued s obs Hrun Hrej).
Defined.



(** ** Calling [start] and [close] again *)

Section Again.

Context {any : Type}.
Implicit Types s : @PromisePool any.

Lemma rested_core s s' : core s' = core s → rested s → rested s'.
Proof.
  intros Hc [H1 H2 H3].
  apply core_fields in Hc
    as (_ & Er & Eq & _ & Eres & Ep & _ & Est & Ecl & _ & Esz & _).
  split; rewrite ?Er, ?Eq, ?Eres, ?Ep, ?Est, ?Ecl, ?Esz; done.
Qed.

(** A pass on a started pool leaves it at rest. *)
Lemma rested_runNext s : isStarted s = true → rested (runNext s).
Proof.
  intros Hst.
  destruct (runNext_static s) as (_ & _ & Est & _).
  split; [congruence|by apply runNext_rested; congruence|].
  destruct (runNext_cases s) as
    [? -> | k _ Hne Hk Hcore _ _ _ | _ Hq _ _ Hcore _
     | _ _ _ Hcl Hcore _ | _ _ Hr Hcore _]; [congruence|..];
    apply core_fields in Hcore
      as (_ & -> & -> & _ & -> & -> & _ & _ & -> & _); cbn.
  - intros Hd Ha _. apply app_eq_nil in Ha as [_ Ha].
    destruct (enqueued s) as [|e q]; [done|]. destruct k; [done|]. done.
  - intros _ _ _. unfold resolve; cbn.
    destruct (promise s) eqn:E; cbn; by rewrite ?E.
  - congruence.
  - done.
Qed.

(** A pass on a pool at rest changes nothing of the scheduling state, and
    emits [available] at most. *)
Lemma rested_again s :
  rested s →
  core (runNext s) = core s
  ∧ ∃ new, emitted (runNext s) = emitted s ++ new
      ∧ (new = [] ∨ new = [Eavailable]).
Proof.
  intros [Hst Hfull Hdone].
  destruct (runNext_cases s) as
    [? -> | k _ Hne Hk Hcore _ Hgo Hem | _ Hq Hr Hcl Hcore Hem
     | _ _ _ _ Hcore Hem | _ _ _ Hcore Hem].
  - congruence.
  - destruct k as [|k].
    2: { specialize (Hgo 0 ltac:(lia)). rewrite Nat.add_0_r in Hgo.
         rewrite (Hfull Hne) in Hgo. done. }
    rewrite Hcore, Hem. split.
    + unfold core; cbn. by rewrite take_0, drop_0, !app_nil_r.
    + exists []. split; [done|by left].
  - destruct (Hdone Hq Hr Hcl) as [Hres Hp]. rewrite Hcore, Hem. split.
    + unfold core, resolve; cbn. destruct (promise s) eqn:E; [done|..];
        cbn; by rewrite E, Hres.
    + exists []. rewrite app_nil_r. split; [done|by left].
  - split; [done|]. exists []. rewrite app_nil_r. split; [done|by left].
  - split; [done|]. eexists. split; [exact Hem|]. unfold pass_available.
    destruct (length_eq_pred _ _); auto.
Qed.

Lemma rested_start s : rested (start s).
Proof.
  unfold start. apply rested_runNext. by destruct (isStarted s) eqn:E.
Qed.

Lemma start_again s :
  rested s →
  core (start s) = core s
  ∧ ∃ new, emitted (start s) = emitted s ++ new
      ∧ (new = [] ∨ new = [Eavailable]).
Proof.
  intros Hr. unfold start. rewrite (rested_started _ Hr).
  by apply rested_again.
Qed.

(** X9. Calling [start()] or [close()] again does nothing to the
    scheduling state and emits neither [start] nor [full]: after
    [start()] a second [start()], and after [close()] a second [close()]
    or a [start()], leave every scheduling field as it is and add at most
    one [available] to the emitted events. *)
Theorem start_and_close_idempotent s :
  unchanged (start s) (start (start s))
  ∧ unchanged (close s) (close (close s))
  ∧ unchanged (close s) (start (close s)).
Proof.
  unfold unchanged. split; [apply start_again, rested_start|].
  assert (Hr : rested (close s)) by apply rested_start.
  assert (Hcl : isClosed (close s) = true).
  { unfold close, start.
    match goal with
    | |- isClosed (runNext ?x) = true =>
        destruct (runNext_static x) as (_ & _ & _ & -> & _)
    end.
    destruct (isStarted _); [done|]. cbn.
    match goal with
    | |- isClosed (emit Estart ?x) = true =>
        pose proof (core_fields _ _ (emit_core Estart x))
          as (_ & _ & _ & _ & _ & _ & _ & _ & -> & _)
    end.
    done. }
  split; [|by apply start_again].
  set (x := close s) in *.
  unfold close at 1.
  set (x' := set_isClosed true (verbose _ _ x)).
  assert (Hc : core x' = core x).
  { unfold core; cbn. by rewrite Hcl. }
  destruct (start_again x' (rested_core _ _ Hc Hr)) as (Hc' & new & Hem & Hnew).
  split; [congruence|]. exists new. split; [exact Hem|done].
Qed.

End Again.

(** ** Once the promise is settled *)

Section Settled.

Context {any : Type}.
Implicit Types s : @PromisePool any.
Implicit Types L obs : list (@observation any).

(** The cap, the name and the options never change. *)
Lemma static_run tr s0 s obs :
  run tr s0 = Some (s, obs) →
  options s = options s0 ∧ size s = size s0 ∧ name s = name s0.
Proof.
  intros Hrun.
  pose (P := fun (L : list (@observation any)) s =>
    options s = options s0 ∧ size s = size s0 ∧ name s = name s0).
  change (P ([] ++ obs) s).
  assert (Hcore : ∀ L x x', core x' = core x → P L x → P L x').
  { intros L x x' Hc (? & ? & ?).
    apply core_fields in Hc
      as (_ & _ & _ & _ & _ & _ & _ & _ & _ & Eo & Esz & En).
    unfold P. by rewrite Eo, Esz, En. }
  refine (turns_invariant P P (fun _ _ => True) _ _ _ _ _ _ _ _ _ _ _ _ _ _
            tr [] _ s obs _ I Hrun); clear -Hcore.
  - intros L x x' (Hc & _). by apply Hcore.
  - intros L x x' (Hc & _). by apply Hcore.
  - done.
  - intros L x HP.
    destruct (runNext_static x) as (Eo & Esz & _).
    destruct (runNext_cases x) as
      [_ -> | k _ _ _ Hc _ _ _ | _ _ _ _ Hc _ | _ _ _ _ Hc _ | _ _ _ Hc _];
      [done|..];
      apply core_fields in Hc
        as (_ & _ & _ & _ & _ & _ & _ & _ & _ & _ & _ & En);
      destruct HP as (? & ? & ?); unfold P; rewrite Eo, Esz, En; try done.
    unfold resolve; cbn. by destruct (promise x).
  - done.
  - done.
  - intros L x (? & ? & ?) _. unfold P. cbn.
    pose proof (core_fields _ _ (emit_core Estart x))
      as (_ & _ & _ & _ & _ & _ & _ & _ & _ & Eo & Esz & En).
    by rewrite Eo, Esz, En.
  - done.
  - done.
  - done.
  - done.
  - intros L x p i rest n o y HP _ _ _ _ _ Hc _ _.
    eapply Hcore; [apply emit_core|]. eapply Hcore; [exact Hc|]. done.
  - intros L x p i rest n e HP _ _ _ _ _. unfold P, reject. cbn.
    by destruct (promise x).
  - done.
  - done.
Qed.

(** A settled pool stays settled and admits nothing. *)
Lemma settled_run tr s0 s obs :
  isResolved s0 = true → run tr s0 = Some (s, obs) →
  isResolved s = true ∧ admissions obs = [].
Proof.
  intros Hres Hrun.
  pose (P := fun (L : list (@observation any)) s =>
    isResolved s = true ∧ admissions L = []).
  change (P ([] ++ obs) s).
  assert (Hcore : ∀ L x x', core x' = core x → P L x → P L x').
  { intros L x x' Hc (? & ?).
    apply core_fields in Hc as (_ & _ & _ & _ & Er & _).
    unfold P. by rewrite Er. }
  refine (turns_invariant P P (fun _ _ => True) _ _ _ _ _ _ _ _ _ _ _ _ _ _
            tr [] _ s obs _ I Hrun); clear -Hcore Hres.
  - intros L x x' (Hc & _). by apply Hcore.
  - intros L x x' (Hc & _). by apply Hcore.
  - done.
  - intros L x [HP HA]. split; [|done].
    destruct (runNext_cases x) as
      [_ -> | k _ _ _ Hc _ _ _ | _ _ _ _ Hc _ | _ _ _ _ Hc _ | _ _ _ Hc _];
      [done|..];
      apply core_fields in Hc as (_ & _ & _ & _ & -> & _); try done.
    unfold resolve; cbn. by destruct (promise x).
  - intros L x [HP HA]. split; [done|]. by rewrite admissions_app, HA.
  - intros L x m [HP HA]. split; [done|]. by rewrite admissions_app, HA.
  - intros L x [HP HA] _. unfold P. cbn. split; [|done].
    pose proof (core_fields _ _ (emit_core Estart x))
      as (_ & _ & _ & _ & Er & _).
    by rewrite Er.
  - done.
  - intros L x g [HP _] _ _ ?. congruence.
  - intros L x g [HP _] _ _ ?. congruence.
  - intros L x p i rest o [HP HA] _ _ _. split; [done|].
    by rewrite admissions_app, HA.
  - intros L x p i rest n o y [HP _] _ _ ?. congruence.
  - intros L x p i rest n e [HP _] _ _ ?. congruence.
  - done.
  - done.
Qed.

Lemma rejected_runs e tr s0 s obs :
  promise s0 = Rejected e → run tr s0 = Some (s, obs) →
  promise s = Rejected e.
Proof.
  intros Hp Hrun.
  refine (run_invariant (fun _ s => promise s = Rejected e)
            _ tr [] s0 s obs Hp Hrun).
  intros L a x x' ob Hx Hstep. by eapply rejected_step.
Qed.

(** X10. Fail-fast rejection.  In a pool built with [rejectOnError:
    true] whose promise is not rejected, the continuation of a task that
    fails rejects the promise with the task's own error: that turn
    launches nothing and emits nothing, and whatever happens afterwards
    the promise stays rejected with that error and no [enqueue] is
    accepted. *)
Theorem fail_fast_rejects_with_cause (opts : PoolOptions)
    tr s obs p e s1 ob tr' s2 obs' :
  rejectOnError opts = Some true →
  run tr (new_PromisePool (Some opts)) = Some (s, obs) →
  is_rejected s = false →
  step (Asettle p (Rejects e)) s = Some (s1, ob) →
  run tr' s1 = Some (s2, obs') →
  (promise s1 = Rejected e ∧ emitted s1 = emitted s
   ∧ enqueued s1 = enqueued s ∧ length (running s1) < length (running s))
  ∧ promise s2 = Rejected e ∧ admissions obs' = [].
Proof.
  intros Hmode Hrun Hrej Hstep Hrun'.
  pose proof (ordered_run _ _ _ _ Hrun Hrej) as Ho.
  destruct (static_run _ _ _ _ Hrun) as (Hopts & _). cbn in Hopts.
  cbn in Hstep.
  destruct (take_reaction p (reactions s)) as [[i rest]|] eqn:Ht; [|done].
  cbn in Hstep. injection Hstep as <- <-.
  destruct (kept_taken obs s p i rest (fun _ => Ho) Hrej Ht)
    as (Hres & Hp & n & Hn & Hl & ->).
  rewrite (promiseRejected_tracked _ _ _ _ n) in * by done.
  cbn zeta in *.
  assert (Hm : default false
                 (options (set_reactions (delete n (reactions s)) s)
                    ≫= rejectOnError) = true).
  { change (options (set_reactions _ s)) with (options s).
    rewrite Hopts. cbn. by rewrite Hmode. }
  rewrite Hm in *. clear Hm.
  match type of Hrun' with
  | run _ (verbose _ _ ?x) = _ => set (x1 := x) in *
  end.
  assert (Hp1 : promise x1 = Rejected e).
  { unfold x1. rewrite reject_promise. cbn. by rewrite Hp. }
  assert (Hr1 : isResolved x1 = true).
  { unfold x1, reject. cbn. by rewrite Hp. }
  assert (Hlen : length (running x1) < length (running s)).
  { unfold x1, reject. cbn. rewrite Hp. cbn.
    assert (Hnl : n < length (running s))
      by (rewrite (ord_running _ _ Ho), length_fmap; by eapply lookup_lt_Some).
    rewrite length_delete by (by apply lookup_lt_is_Some_2). lia. }
  split; [|split].
  - repeat split; try done.
    + unfold x1, reject. cbn. by rewrite Hp.
    + unfold x1, reject. cbn. by rewrite Hp.
  - eapply rejected_runs; [|exact Hrun']. done.
  - eapply settled_run; [|exact Hrun']. done.
Qed.

(** X11. The [isResolved] getter tells whether the pool promise is
    settled: it is [true] exactly when the promise is fulfilled or
    rejected. *)
Theorem isResolved_iff_settled (opts : option PoolOptions) tr s obs :
  run tr (new_PromisePool opts) = Some (s, obs) →
  isResolved s = true ↔ promise s ≠ Pending.
Proof.
  intros Hrun.
  pose (P := fun (L : list (@observation any)) s =>
    isResolved s = true ↔ promise s ≠ Pending).
  change (P ([] ++ obs) s).
  assert (Hcore : ∀ L x x', core x' = core x → P L x → P L x').
  { intros L x x' Hc HP.
    apply core_fields in Hc as (_ & _ & _ & _ & Er & Ep & _).
    unfold P. by rewrite Er, Ep. }
  refine (turns_invariant P P (fun _ _ => True) _ _ _ _ _ _ _ _ _ _ _ _ _ _
            tr [] _ s obs _ I Hrun); clear -Hcore.
  - intros L x x' (Hc & _). by apply Hcore.
  - intros L x x' (Hc & _). by apply Hcore.
  - done.
  - intros L x HP.
    destruct (runNext_cases x) as
      [_ -> | k _ _ _ Hc _ _ _ | _ _ _ _ Hc _ | _ _ _ _ Hc _ | _ _ _ Hc _];
      [done|..]; try (by eapply Hcore).
    apply core_fields in Hc as (_ & _ & _ & _ & Er & Ep & _).
    unfold P. rewrite Er, Ep. unfold resolve. cbn.
    destruct (promise x) eqn:E; cbn; rewrite ?E; done.
  - done.
  - done.
  - intros L x HP _. unfold P. cbn.
    pose proof (core_fields _ _ (emit_core Estart x))
      as (_ & _ & _ & _ & Er & Ep & _).
    by rewrite Er, Ep.
  - done.
  - done.
  - done.
  - done.
  - intros L x p i rest n o y HP _ _ _ _ _ Hc _ _.
    eapply Hcore; [apply emit_core|]. eapply Hcore; [exact Hc|]. exact HP.
  - intros L x p i rest n e HP _ _ _ _ _. unfold P.
    rewrite reject_promise.
    match goal with
    | |- isResolved (reject e ?y) = true ↔ _ =>
        assert (isResolved (reject e y) = true) as ->
          by (unfold reject; cbn; by destruct (promise x))
    end.
    cbn. by destruct (promise x).
  - done.
  - done.
Qed.

(** X12. The pool promise is rejected by a failing task only: when it
    is rejected with [e], the pool was built with [rejectOnError: true]
    and the continuation of some task ran with the failure [e]. *)
Theorem rejection_is_a_task_failure (opts : option PoolOptions)
    tr s obs e :
  run tr (new_PromisePool opts) = Some (s, obs) →
  promise s = Rejected e →
  opts ≫= rejectOnError = Some true
  ∧ ∃ p i, Ran p i (Rejects e) ∈ obs.
Proof.
  intros Hrun Hp.
  destruct (static_run _ _ _ _ Hrun) as (Hopts & _). cbn in Hopts.
  revert e Hp.
  pose (P := fun (L : list (@observation any)) s =>
    ∀ e, promise s = Rejected e →
      options s ≫= rejectOnError = Some true
      ∧ ∃ p i, Ran p i (Rejects e) ∈ L).
  enough (P ([] ++ obs) s) as HP.
  { intros e He. destruct (HP e He) as [? ?]. split; [congruence|done]. }
  clear Hopts.
  assert (Hcore : ∀ L x x', core x' = core x → P L x → P L x').
  { intros L x x' Hc HP e.
    apply core_fields in Hc
      as (_ & _ & _ & _ & _ & Ep & _ & _ & _ & Eo & _).
    rewrite Ep, Eo. apply HP. }
  assert (Hmore : ∀ L x ob, P L x → P (L ++ [ob]) x).
  { intros L x ob HP e He. destruct (HP e He) as (? & p & i & Hin).
    split; [done|]. exists p, i. apply elem_of_app. by left. }
  refine (turns_invariant P P (fun _ _ => True) _ _ _ _ _ _ _ _ _ _ _ _ _ _
            tr [] _ s obs _ I Hrun); clear -Hcore Hmore.
  - intros L x x' (Hc & _). by apply Hcore.
  - intros L x x' (Hc & _). by apply Hcore.
  - done.
  - intros L x HP e.
    destruct (runNext_static x) as (Eo & _). rewrite Eo.
    pose proof (runNext_rejected x) as Hr. unfold is_rejected in Hr.
    destruct (runNext_cases x) as
      [_ -> | k _ _ _ Hc _ _ _ | _ _ _ _ Hc _ | _ _ _ _ Hc _ | _ _ _ Hc _];
      [apply HP|..];
      rewrite (core_promise _ _ Hc); try apply HP.
    unfold resolve; cbn. destruct (promise x) eqn:E; cbn; rewrite ?E;
      try done. intros He. apply HP. congruence.
  - intros L x HP. by apply Hmore.
  - intros L x m HP. by apply Hmore.
  - intros L x HP _ e. cbn.
    pose proof (core_fields _ _ (emit_core Estart x))
      as (_ & _ & _ & _ & _ & Ep & _ & _ & _ & Eo & _).
    rewrite Ep, Eo. apply HP.
  - intros L x HP. exact HP.
  - intros L x g HP _ _ _. by apply Hmore.
  - intros L x g HP _ _ _ _. by apply Hmore.
  - intros L x p i rest o HP _ _ _. by apply Hmore.
  - intros L x p i rest n o y HP _ _ _ _ _ Hc _ _.
    eapply Hcore; [apply emit_core|]. eapply Hcore; [exact Hc|].
    by apply Hmore.
  - intros L x p i rest n e HP _ _ _ _ Hmode e'.
    match goal with
    | |- promise (reject e ?y) = _ → _ =>
        assert (options (reject e y) = options x) as ->
          by (unfold reject; cbn; by destruct (promise x))
    end.
    rewrite reject_promise. cbn.
    destruct (promise x) eqn:E.
    + intros [= <-]. split.
      { destruct (options x ≫= rejectOnError) as [[]|]; done. }
      exists p, i. apply elem_of_app. right. by left.
    + done.
    + intros [= <-]. destruct (HP _ E) as (? & q & j & Hin).
      split; [done|]. exists q, j. apply elem_of_app. by left.
  - done.
  - done.
Qed.

(** The promise is fulfilled by a pass on a started, closed pool only. *)
Lemma fulfilled_closed tr s0 s obs :
  (∀ r, promise s0 = Fulfilled r → isClosed s0 = true ∧ isStarted s0 = true) →
  run tr s0 = Some (s, obs) →
  ∀ r, promise s = Fulfilled r → isClosed s = true ∧ isStarted s = true.
Proof.
  intros H0 Hrun.
  pose (P := fun (L : list (@observation any)) s =>
    ∀ r, promise s = Fulfilled r → isClosed s = true ∧ isStarted s = true).
  change (P ([] ++ obs) s).
  assert (Hcore : ∀ L x x', core x' = core x → P L x → P L x').
  { intros L x x' Hc HP r.
    apply core_fields in Hc
      as (_ & _ & _ & _ & _ & Ep & _ & Est & Ecl & _).
    rewrite Ep, Est, Ecl. apply HP. }
  refine (turns_invariant P P (fun _ _ => True) _ _ _ _ _ _ _ _ _ _ _ _ _ _
            tr [] _ s obs _ I Hrun); clear -Hcore H0.
  - intros L x x' (Hc & _). by apply Hcore.
  - intros L x x' (Hc & _). by apply Hcore.
  - done.
  - intros L x HP.
    destruct (runNext_cases x) as
      [_ -> | k _ _ _ Hc _ _ _ | Hst _ _ Hcl Hc _ | _ _ _ _ Hc _
       | _ _ _ Hc _]; [done|..].
    + eapply Hcore; [exact Hc|]. exact HP.
    + intros r _. apply core_fields in Hc
        as (_ & _ & _ & _ & _ & _ & _ & -> & -> & _).
      unfold resolve; cbn. by destruct (promise x).
    + by eapply Hcore.
    + by eapply Hcore.
  - done.
  - done.
  - intros L x HP _ r. cbn.
    pose proof (core_fields _ _ (emit_core Estart x))
      as (_ & _ & _ & _ & _ & Ep & _ & _ & Ecl & _).
    rewrite Ep, Ecl. intros [? _]%HP. done.
  - intros L x HP r Hp. cbn. by destruct (HP r Hp).
  - intros L x g HP _ Hcl _ r Hp. cbn in *. destruct (HP r Hp). congruence.
  - intros L x g HP _ Hcl _ _ r Hp. cbn in *. destruct (HP r Hp). congruence.
  - intros L x p i rest o HP _ _ _. exact HP.
  - intros L x p i rest n o y HP _ _ _ _ _ Hc _ _.
    eapply Hcore; [apply emit_core|]. eapply Hcore; [exact Hc|]. exact HP.
  - intros L x p i rest n e HP _ _ _ _ _ r.
    match goal with
    | |- promise (reject e ?y) = _ → _ =>
        assert (isClosed (reject e y) = isClosed x
                ∧ isStarted (reject e y) = isStarted x) as [-> ->]
          by (unfold reject; cbn; by destruct (promise x))
    end.
    rewrite reject_promise. cbn.
    intros Hp. apply (HP r). by destruct (promise x).
  - done.
  - exact H0.
Qed.

(** X13. A fulfilled pool is final.  Once the pool promise is fulfilled,
    no continuation is left to run, [start()], [close()], [on()] and
    [once()] return without touching any scheduling field or emitting
    anything, and every [enqueue] throws the closed error: the promise
    keeps its value. *)
Theorem fulfilled_is_final (opts : option PoolOptions)
    tr s obs r tr' s' obs' :
  run tr (new_PromisePool opts) = Some (s, obs) →
  promise s = Fulfilled r →
  run tr' s = Some (s', obs') →
  promise s' = Fulfilled r ∧ core s' = core s ∧ emitted s' = emitted s
  ∧ Forall (fun ob => ob = Returned ∨ ob = Thrown (PoolClosedError s)) obs'.
Proof.
  intros Hrun Hp Hrun'.
  assert (Hrej : is_rejected s = false) by (unfold is_rejected; by rewrite Hp).
  pose proof (ordered_run _ _ _ _ Hrun Hrej) as Ho.
  assert (isClosed s = true ∧ isStarted s = true) as [Hcl Hst].
  { eapply fulfilled_closed; [|exact Hrun|exact Hp]. done. }
  destruct (ord_settled _ _ Ho) as [[? _]|(_ & Hres & Hq & Hre)];
    [congruence|].
  pose proof (ord_running _ _ Ho) as Hr. rewrite Hre in Hr. cbn in Hr.
  clear Ho Hrun Hrej obs tr.
  enough (core s' = core s ∧ emitted s' = emitted s
          ∧ Forall (fun ob => ob = Returned ∨ ob = Thrown (PoolClosedError s))
              ([] ++ obs')) as (Hc & ? & ?).
  { repeat split; try done. by rewrite (core_promise _ _ Hc). }
  refine (run_invariant
    (fun L x => core x = core s ∧ emitted x = emitted s
       ∧ Forall (fun ob => ob = Returned ∨ ob = Thrown (PoolClosedError s)) L)
    _ tr' [] s s' obs' _ Hrun'); [|done].
  clear s' obs' Hrun'.
  intros L a x x' ob (Hc & Hem & HL) Hstep.
  pose proof (core_fields _ _ Hc)
    as (_ & Er & Eq & _ & Eres & Ep & Ere & Est & Ecl & _ & _ & En).
  assert (Hpass : ∀ y, core y = core s → emitted y = emitted s →
            core (runNext y) = core s ∧ emitted (runNext y) = emitted s).
  { clear -Hp Hcl Hst Hres Hq Hr. intros y Hc Hem.
    pose proof (core_fields _ _ Hc)
      as (_ & Er & Eq & _ & Eres & Ep & _ & Est & Ecl & _).
    destruct (runNext_cases y) as
      [? -> | k _ Hne _ _ _ _ _ | _ _ _ _ HC HE | _ _ _ Hcl' _ _
       | _ _ Hr' _ _]; [done|congruence| |congruence|congruence].
    rewrite HC, HE. split; [|done]. rewrite <- Hc.
    unfold core, resolve; cbn. rewrite Ep, Hp. cbn.
    by rewrite Eres, Hres, Ep, Hp. }
  assert (Hstart : ∀ y, core y = core s → emitted y = emitted s →
            core (start y) = core s ∧ emitted (start y) = emitted s).
  { intros y Hy Hey. unfold start.
    pose proof (core_fields _ _ Hy)
      as (_ & _ & _ & _ & _ & _ & _ & Est' & _).
    rewrite Est', Hst. by apply Hpass. }
  destruct a as [|g| |t cb|t cb|p o]; cbn in Hstep.
  - injection Hstep as <- <-. destruct (Hstart x Hc Hem) as [? ?].
    repeat split; try done. apply Forall_app. split; [done|].
    apply Forall_singleton. by left.
  - unfold enqueue in Hstep. rewrite Ecl, Hcl in Hstep.
    injection Hstep as <- <-. repeat split; try done.
    apply Forall_app. split; [done|]. apply Forall_singleton. right.
    unfold PoolClosedError. by rewrite En.
  - injection Hstep as <- <-. unfold close.
    match goal with
    | |- context [start ?y] => destruct (Hstart y) as [? ?]
    end.
    { rewrite <- Hc. unfold core; cbn. by rewrite Ecl, Hcl. }
    { done. }
    repeat split; try done. apply Forall_app. split; [done|].
    apply Forall_singleton. by left.
  - injection Hstep as <- <-. repeat split; try done.
    apply Forall_app. split; [done|]. apply Forall_singleton. by left.
  - injection Hstep as <- <-. repeat split; try done.
    apply Forall_app. split; [done|]. apply Forall_singleton. by left.
  - rewrite Ere, Hre in Hstep. done.
Qed.

End Settled.

Lemma fail_fast_rejects_with_cause_witness :
  let opts := plain_options (Fin 2) (Some true) in
  let s := final_state two_running (Some opts) in
  let obs := observed two_running (Some opts) in
  let s1 := final_from [Asettle 10 (Rejects 7)] s in
  let s2 := final_from [Aenqueue (task 12)] s1 in
  let obs' := observed_from [Aenqueue (task 12)] s1 in
  rejectOnError opts = Some true
  ∧ run two_running (new_PromisePool (Some opts)) = Some (s, obs)
  ∧ is_rejected s = false
  ∧ step (Asettle 10 (Rejects 7)) s = Some (s1, Ran 10 0 (Rejects 7))
  ∧ run [Aenqueue (task 12)] s1 = Some (s2, obs')
  ∧ (promise s1 = Rejected 7 ∧ emitted s1 = emitted s
     ∧ enqueued s1 = enqueued s ∧ length (running s1) < length (running s))
  ∧ promise s2 = Rejected 7 ∧ admissions obs' = [].
Proof.
  intros opts s obs s1 s2 obs'.
  assert (Hrun : run two_running (new_PromisePool (Some opts)) = Some (s, obs))
    by (vm_compute; reflexivity).
  assert (Hrej : is_rejected s = false) by (vm_compute; reflexivity).
  assert (Hstep : step (Asettle 10 (Rejects 7)) s
                  = Some (s1, Ran 10 0 (Rejects 7)))
    by (vm_compute; reflexivity).
  assert (Hrun' : run [Aenqueue (task 12)] s1 = Some (s2, obs'))
    by (vm_compute; reflexivity).
  split; [reflexivity|]. split; [exact Hrun|]. split; [exact Hrej|].
  split; [exact Hstep|]. split; [exact Hrun'|].
  exact (fail_fast_rejects_with_cause opts two_running s obs 10 7 s1
           (Ran 10 0 (Rejects 7)) [Aenqueue (task 12)] s2 obs'
           eq_refl Hrun Hrej Hstep Hrun').
Defined.

Lemma isResolved_iff_settled_witness :
  let opts := options_with (Fin 2) None in
  let s := final_state out_of_order opts in
  let obs := observed out_of_order opts in
  run out_of_order (new_PromisePool opts) = Some (s, obs)
  ∧ (isResolved s = true ↔ promise s ≠ Pending).
Proof.
  intros opts s obs.
  assert (Hrun : run out_of_order (new_PromisePool opts) = Some (s, obs))
    by (vm_compute; reflexivity).
  split; [exact Hrun|].
  exact (isResolved_iff_settled opts out_of_order s obs Hrun).
Defined.

Lemma rejection_is_a_task_failure_witness :
  let opts := options_with (Fin 1) (Some true) in
  let s := final_state failed_fast opts in
  let obs := observed failed_fast opts in
  run failed_fast (new_PromisePool opts) = Some (s, obs)
  ∧ promise s = Rejected 7
  ∧ opts ≫= rejectOnError = Some true
  ∧ ∃ p i, Ran p i (Rejects 7) ∈ obs.
Proof.
  intros opts s obs.
  assert (Hrun : run failed_fast (new_PromisePool opts) = Some (s, obs))
    by (vm_compute; reflexivity).
  assert (Hp : promise s = Rejected 7) by (vm_compute; reflexivity).
  split; [exact Hrun|]. split; [exact Hp|].
  exact (rejection_is_a_task_failure opts failed_fast s obs 7 Hrun Hp).
Defined.

Lemma fulfilled_is_final_witness :
  let opts := options_with (Fin 2) None in
  let s := final_state out_of_order opts in
  let obs := observed out_of_order opts in
  let r := [Some (Value 1); Some (Value 5);
            Some (PoolErrorImpl "Promise 2 was rejected" 7)] in
  let s' := final_from after_settlement s in
  let obs' := observed_from after_settlement s in
  run out_of_order (new_PromisePool opts) = Some (s, obs)
  ∧ promise s = Fulfilled r
  ∧ run after_settlement s = Some (s', obs')
  ∧ promise s' = Fulfilled r ∧ core s' = core s ∧ emitted s' = emitted s
  ∧ Forall (fun ob => ob = Returned ∨ ob = Thrown (PoolClosedError s)) obs'.
Proof.
  intros opts s obs r s' obs'.
  assert (Hrun : run out_of_order (new_PromisePool opts) = Some (s, obs))
    by (vm_compute; reflexivity).
  assert (Hp : promise s = Fulfilled r) by (vm_compute; reflexivity).
  assert (Hrun' : run after_settlement s = Some (s', obs'))
    by (vm_compute; reflexivity).
  split; [exact Hrun|]. split; [exact Hp|]. split; [exact Hrun'|].
  exact (fulfilled_is_final opts out_of_order s obs r after_settlement
           s' obs' Hrun Hp Hrun').
Defined.

(** ** The listeners of an event *)

Section Listeners.

Context {any : Type}.
Implicit Types s : @PromisePool any.

Lemma filter_all {A} (P : A → Prop) `{!∀ x, Decision (P x)} (l : list A) :
  (∀ x, x ∈ l → P x) → filter P l = l.
Proof.
  induction l as [|x l IH]; intros Hall; [done|].
  rewrite filter_cons, decide_True by (apply Hall; by left).
  f_equal. apply IH. intros y Hy. apply Hall. by right.
Qed.

Lemma filter_ext_in {A} (P Q : A → Prop)
    `{!∀ x, Decision (P x), !∀ x, Decision (Q x)} (l : list A) :
  (∀ x, x ∈ l → P x ↔ Q x) → filter P l = filter Q l.
Proof.
  induction l as [|x l IH]; intros Heq; [done|].
  rewrite !filter_cons.
  rewrite IH by (intros y Hy; apply Heq; by right).
  destruct (decide (P x)) as [HP|HP], (decide (Q x)) as [HQ|HQ]; try done.
  - exfalso. apply HQ, Heq; [by left|done].
  - exfalso. apply HP, Heq; [by left|done].
Qed.

Lemma one_shots_cons cb (once : bool) m :
  one_shots ((cb, once) :: m)
  = if once then cb :: one_shots m else one_shots m.
Proof.
  unfold one_shots. rewrite filter_cons. cbn.
  destruct once; [by rewrite decide_True|by rewrite decide_False].
Qed.

(** The records the loop of [#emit] leaves in the maps. *)
Lemma emit_loop_lookup type es s t :
  listeners (emit_loop type es s) !! t
  = if decide (type = t)
    then filter (fun e => e.1 ∉ one_shots es) <$> listeners s !! type
    else listeners s !! t.
Proof.
  revert s. induction es as [|[cb o] rest IH]; intros s.
  - cbn. destruct (decide (type = t)) as [->|]; [|done].
    destruct (listeners s !! t) as [m|]; [|done]. cbn. f_equal.
    symmetry. apply filter_all. intros e _. apply not_elem_of_nil.
  - cbn [emit_loop]. rewrite IH. rewrite one_shots_cons.
    destruct o; cbn [listeners set_listeners invoke set_called]; [|done].
    rewrite !lookup_alter.
    destruct (decide (type = t)) as [->|]; [|done].
    rewrite decide_True by done.
    destruct (listeners s !! t) as [m|]; [|done]. cbn. f_equal.
    unfold Map_delete. rewrite list_filter_filter.
    apply list_filter_iff. intros e. rewrite not_elem_of_cons. tauto.
Qed.

Lemma persistent_filter (m : Map) :
  NoDup m.*1 → filter (fun e => e.1 ∉ one_shots m) m = persistent m.
Proof.
  intros Hnd. apply filter_ext_in. intros [cb o] Hin. cbn. split.
  - intros Hno. destruct o; [|done]. exfalso. apply Hno.
    unfold one_shots. apply list_elem_of_fmap. exists (cb, true).
    split; [done|]. by apply list_elem_of_filter.
  - intros ->. unfold one_shots.
    intros ([cb' o'] & Hcb & [Ho Hin']%list_elem_of_filter)%list_elem_of_fmap.
    cbn in *. subst.
    apply list_elem_of_lookup in Hin as [i Hi].
    apply list_elem_of_lookup in Hin' as [j Hj].
    assert (i = j) as ->.
    { eapply NoDup_lookup; [exact Hnd|..].
      - by rewrite list_lookup_fmap, Hi.
      - by rewrite list_lookup_fmap, Hj. }
    congruence.
Qed.

(** X14. An emission calls the listeners of the event once each, in
    the order in which the map holds them; it then forgets those
    registered with [once] and keeps the others, so that a second
    emission calls the persistent listeners only; the listeners of the
    other events are left alone. *)
Theorem emit_calls_listeners_in_order (opts : option PoolOptions)
    tr s obs type m :
  run tr (new_PromisePool opts) = Some (s, obs) →
  listeners s !! type = Some m →
  called (emit type s) = called s ++ calls_of m s
  ∧ listeners (emit type s) !! type = Some (persistent m)
  ∧ (∀ t, t ≠ type → listeners (emit type s) !! t = listeners s !! t)
  ∧ called (emit type (emit type s))
    = called s ++ calls_of m s ++ calls_of (persistent m) s.
Proof.
  intros Hrun Hm.
  pose proof (wf_listeners_run _ _ _ _ Hrun type m Hm) as Hnd.
  assert (Hc : called (emit type s) = called s ++ calls_of m s).
  { rewrite emit_called, Hm. done. }
  assert (Hl : listeners (emit type s) !! type = Some (persistent m)).
  { unfold emit. cbn [listeners set_emitted]. rewrite Hm.
    rewrite emit_loop_lookup, decide_True by done.
    cbn [listeners verbose set_diagnostics set_emitted]. rewrite Hm. cbn.
    by rewrite persistent_filter. }
  repeat split; try done.
  - intros t Hne. unfold emit. cbn [listeners set_emitted]. rewrite Hm.
    rewrite emit_loop_lookup, decide_False by done. done.
  - rewrite emit_called, Hl, Hc, <- app_assoc. cbn. unfold calls_of.
    by rewrite (core_running _ _ (emit_core type s)).
Qed.

End Listeners.

Lemma emit_calls_listeners_in_order_witness :
  let opts := options_with (Fin 2) None in
  let s := final_state three_listeners opts in
  let obs := observed three_listeners opts in
  let m := [(40, false); (41, true); (42, false)] in
  run three_listeners (new_PromisePool opts) = Some (s, obs)
  ∧ listeners s !! Enext = Some m
  ∧ called (emit Enext s) = called s ++ calls_of m s
  ∧ listeners (emit Enext s) !! Enext = Some (persistent m)
  ∧ (∀ t, t ≠ Enext → listeners (emit Enext s) !! t = listeners s !! t)
  ∧ called (emit Enext (emit Enext s))
    = called s ++ calls_of m s ++ calls_of (persistent m) s.
Proof.
  intros opts s obs m.
  assert (Hrun : run three_listeners (new_PromisePool opts) = Some (s, obs))
    by (vm_compute; reflexivity).
  assert (Hm : listeners s !! Enext = Some m) by (vm_compute; reflexivity).
  split; [exact Hrun|]. split; [exact Hm|].
  exact (emit_calls_listeners_in_order opts three_listeners s obs Enext m
           Hrun Hm).
Defined.

(** ** The wrappers *)

Section Batches.

Context {any : Type}.
Implicit Types s : @PromisePool any.
Implicit Types L obs : list (@observation any).

Lemma entries_snoc commands g :
  entries (commands ++ [g])
  = entries commands ++ [{| generator := g; index := length commands |}].
Proof.
  unfold entries. rewrite imap_app. cbn. by rewrite Nat.add_0_r.
Qed.

Lemma entries_length commands : length (entries commands) = length commands.
Proof. apply length_imap. Qed.

Lemma batching_frame commands m s s' :
  ledger s' = ledger s → size s' = size s →
  batching commands m s → batching commands m s'.
Proof.
  intros Hl Hsz [].
  assert (currentIndex s' = currentIndex s ∧ running s' = running s
          ∧ enqueued s' = enqueued s ∧ result s' = result s
          ∧ isResolved s' = isResolved s ∧ promise s' = promise s
          ∧ reactions s' = reactions s)
    as (Ei & Er & Eq & Ers & Eres & Ep & Ere)
    by (unfold ledger in Hl; by simplify_eq).
  split; rewrite ?Ei, ?Er, ?Eq, ?Ers, ?Eres, ?Ep, ?Ere, ?Hsz; done.
Qed.

(** A pass on a started pool that holds a batch, some of it in flight. *)
Lemma batched_runNext commands m s :
  batching commands m s →
  isStarted s = true → commands ≠ [] ∨ isClosed s = false →
  ∃ m', batched commands m' (runNext s).
Proof.
  intros [Hre Hru Hq Hi Hm Hgo Hp Hres Hrs] Hst Hne.
  assert (Hlen : length (running s) = m).
  { by rewrite Hru, Hre, !length_fmap, length_take, entries_length, Nat.min_l. }
  destruct (runNext_cases s) as
    [? _ | k _ _ Hk Hcore Hstop Hgo' _ | _ Hq' Hr' Hcl _ _
     | _ Hq' _ _ Hcore _ | _ Hq' _ Hcore _]; [congruence|..].
  - exists (m + k).
    rewrite Hq, length_drop, entries_length in Hk.
    rewrite Hq, length_drop, entries_length, Hlen in Hstop.
    rewrite Hlen in Hgo'.
    apply core_fields in Hcore
      as (Ei & Er & Eq & Ers & Eres & Ep & Ere & Est & _ & _ & Esz & _).
    cbn in *.
    split; [split|..];
      rewrite ?Ei, ?Er, ?Eq, ?Ers, ?Eres, ?Ep, ?Ere, ?Est, ?Esz;
      try done.
    + by rewrite Hre, Hq, <- fmap_app, take_take_drop.
    + by rewrite Hru, fmap_app.
    + by rewrite Hq, drop_drop.
    + lia.
    + intros j Hj. destruct (decide (j < m)) as [?|?]; [by apply Hgo|].
      replace j with (m + (j - m)) by lia. apply Hgo'. lia.
    + intros _ ?. apply Hstop. lia.
    + congruence.
  - exfalso. destruct Hne as [Hne|?]; [|congruence].
    assert (length (enqueued s) = 0) as Hl by by rewrite Hq'.
    rewrite Hq, length_drop, entries_length in Hl.
    assert (m = 0) by (rewrite <- Hlen, Hr'; done).
    destruct commands; [done|]. cbn in Hl. lia.
  - exists m.
    assert (length (enqueued s) = 0) as Hl by by rewrite Hq'.
    rewrite Hq, length_drop, entries_length in Hl.
    apply core_fields in Hcore
      as (Ei & Er & Eq & Ers & Eres & Ep & Ere & Est & _ & _ & Esz & _).
    split; [split|..];
      rewrite ?Ei, ?Er, ?Eq, ?Ers, ?Eres, ?Ep, ?Ere, ?Est, ?Esz;
      try done; [lia|congruence].
  - exists m.
    assert (length (enqueued s) = 0) as Hl by by rewrite Hq'.
    rewrite Hq, length_drop, entries_length in Hl.
    apply core_fields in Hcore
      as (Ei & Er & Eq & Ers & Eres & Ep & Ere & Est & _ & _ & Esz & _).
    split; [split|..];
      rewrite ?Ei, ?Er, ?Eq, ?Ers, ?Eres, ?Ep, ?Ere, ?Est, ?Esz;
      try done; [lia|congruence].
Qed.

Lemma started_start s : isStarted (start s) = true.
Proof.
  unfold start.
  match goal with
  | |- isStarted (runNext ?x) = true =>
      destruct (runNext_static x) as (_ & _ & -> & _)
  end.
  by destruct (isStarted s) eqn:E.
Qed.

Lemma batched_start commands m s :
  batching commands m s → commands ≠ [] ∨ isClosed s = false →
  ∃ m', batched commands m' (start s).
Proof.
  intros Hb Hne. unfold start. destruct (isStarted s) eqn:Est.
  - by eapply batched_runNext.
  - set (x := set_isStarted true _).
    assert (Hx : ledger x = ledger s ∧ size x = size s
                 ∧ isClosed x = isClosed s) .
    { pose proof (core_fields _ _ (emit_core Estart s))
        as (Ei & Er & Eq & Ers & Eres & Ep & Ere & _ & Ecl & _ & Esz & _).
      unfold ledger, x; cbn. by rewrite Ei, Er, Eq, Ers, Eres, Ep, Ere. }
    destruct Hx as (Hl & Hsz & Hcl).
    apply (batched_runNext commands m); [|done|by rewrite Hcl].
    by eapply batching_frame.
Qed.

Lemma batched_enqueue commands m s g :
  batched commands m s → isClosed s = false →
  ∃ s' m', enqueue g s = inr s' ∧ batched (commands ++ [g]) m' s'
    ∧ isClosed s' = false ∧ size s' = size s
    ∧ currentIndex s' = S (currentIndex s).
Proof.
  intros [Hb Hstop Hidle] Hcl. unfold enqueue.
  rewrite Hcl, (batching_resolved _ _ _ Hb).
  set (x := set_currentIndex _ _).
  assert (Hx : batching (commands ++ [g]) m x).
  { destruct Hb. split; cbn; try done.
    - by rewrite entries_snoc, take_app_le by (by rewrite entries_length).
    - rewrite entries_snoc, drop_app_le by (by rewrite entries_length).
      congruence.
    - rewrite length_app. cbn. lia.
    - rewrite length_app. cbn. lia. }
  assert (Hcx : isClosed x = false) by done.
  assert (Hfix : ∀ y : @PromisePool any, isClosed (runNext y) = isClosed y
                      ∧ size (runNext y) = size y
                      ∧ currentIndex (runNext y) = currentIndex y).
  { intros y. destruct (runNext_static y) as (_ & ? & _ & ? & ?). done. }
  destruct (default true (options x ≫= autoStart) && negb (isStarted x))
    eqn:Hauto.
  - destruct (batched_start _ _ _ Hx (or_intror Hcx)) as [m' Hm'].
    exists (start x), m'. split; [done|]. split; [done|].
    unfold start. destruct (Hfix (if isStarted x then x
      else set_isStarted true (verbose Linfo [Str "start pool"]
             (emit Estart x)))) as (-> & -> & ->).
    destruct (isStarted x); [done|]. cbn.
    pose proof (core_fields _ _ (emit_core Estart x))
      as (-> & _ & _ & _ & _ & _ & _ & _ & -> & _ & -> & _).
    done.
  - destruct (isStarted x) eqn:Est.
    + destruct (batched_runNext _ _ _ Hx Est (or_intror Hcx)) as [m' Hm'].
      exists (runNext x), m'. split; [done|]. split; [done|].
      by destruct (Hfix x) as (-> & -> & ->).
    + exists x, m. split; [done|]. split; [|done].
      split; [done|congruence|]. intros _. by apply Hidle.
Qed.

Lemma batched_each commands' commands m s :
  batched commands m s → isClosed s = false →
  ∃ s' m', enqueue_each commands' s = inr s'
    ∧ batched (commands ++ commands') m' s'
    ∧ isClosed s' = false ∧ size s' = size s
    ∧ run (Aenqueue <$> commands') s
      = Some (s', accepted (currentIndex s) commands').
Proof.
  revert commands m s.
  induction commands' as [|g commands' IH]; intros commands m s Hb Hcl.
  - exists s, m. rewrite app_nil_r. done.
  - destruct (batched_enqueue _ _ _ g Hb Hcl)
      as (s1 & m1 & He & Hb1 & Hcl1 & Hsz1 & Hi1).
    destruct (IH _ _ _ Hb1 Hcl1) as (s2 & m2 & He2 & Hb2 & Hcl2 & Hsz2 & Hr2).
    exists s2, m2. cbn. rewrite He.
    rewrite <- app_assoc in Hb2. cbn in Hb2.
    split; [done|]. split; [done|]. split; [done|].
    split; [congruence|].
    cbn. rewrite Hr2. cbn. unfold accepted. rewrite Nat.add_0_r.
    do 3 f_equal. rewrite Hi1. apply imap_ext. intros i x _. cbn.
    f_equal. lia.
Qed.

Lemma batched_new (o : option PoolOptions) :
  batched [] 0 (new_PromisePool (any := any) o).
Proof.
  split; [split|..]; try done. intros j ?. lia.
Qed.

Lemma batched_capacity commands m s :
  batched commands m s → isStarted s = true →
  m = capacity (size s) (length commands).
Proof.
  intros [[_ _ _ _ Hle Hgo _ _ _] Hstop _] Hst. specialize (Hstop Hst).
  unfold capacity. destruct (size s) as [z|] eqn:Hsz.
  - destruct (decide (m < length commands)) as [Hlt|Hge].
    + specialize (Hstop Hlt). cbn in Hstop. apply Z.ltb_ge in Hstop.
      destruct m as [|m]; [lia|].
      specialize (Hgo m ltac:(lia)). cbn in Hgo.
      apply Z.ltb_lt in Hgo. lia.
    + assert (m = length commands) as -> by lia.
      destruct (length commands) as [|n]; [lia|].
      specialize (Hgo n ltac:(lia)). cbn in Hgo.
      apply Z.ltb_lt in Hgo. lia.
  - destruct (decide (m < length commands)) as [Hlt|Hge]; [|lia].
    by specialize (Hstop Hlt).
Qed.

Lemma closed_close s : isClosed (close s) = true.
Proof.
  unfold close, start.
  match goal with
  | |- isClosed (runNext ?x) = true =>
      destruct (runNext_static x) as (_ & _ & _ & -> & _)
  end.
  destruct (isStarted _); [done|]. cbn.
  match goal with
  | |- isClosed (emit Estart ?x) = true =>
      pose proof (core_fields _ _ (emit_core Estart x))
        as (_ & _ & _ & _ & _ & _ & _ & _ & -> & _)
  end.
  done.
Qed.

(** What a wrapper does with the pool it built. *)
Lemma batch_run (o : PoolOptions) commands :
  commands ≠ [] →
  ∃ s1, enqueue_each commands (new_PromisePool (Some o)) = inr s1
    ∧ run (calls commands) (new_PromisePool (Some o))
      = Some (close s1, accepted 0 commands ++ [Returned])
    ∧ batched commands
        (capacity (size (new_PromisePool (any := any) (Some o)))
           (length commands))
        (close s1)
    ∧ isStarted (close s1) = true ∧ isClosed (close s1) = true
    ∧ size (close s1) = size (new_PromisePool (any := any) (Some o)).
Proof.
  intros Hne.
  destruct (batched_each commands [] 0 _ (batched_new (Some o)) eq_refl)
    as (s1 & m1 & He & Hb & Hcl & Hsz & Hrun).
  cbn [app] in Hb.
  assert (Hrun1 : run [Aclose] s1 = Some (close s1, [Returned])) by done.
  exists s1. split; [done|]. split.
  { unfold calls. eapply run_app; [exact Hrun|exact Hrun1]. }
  destruct (static_run _ _ _ _ Hrun1) as (_ & Hsz1 & _).
  assert (∃ m, batched commands m (close s1)) as [m Hm].
  { unfold close. apply (batched_start commands m1); [|by left].
    eapply batching_frame; [| |exact (batched_batching _ _ _ Hb)]; done. }
  pose proof (started_start
    (set_isClosed true (verbose Linfo [Str "close pool"] s1))) as Hst.
  change (isStarted (close s1) = true) in Hst.
  rewrite (batched_capacity _ _ _ Hm Hst) in Hm.
  rewrite Hsz1, Hsz in Hm.
  split; [done|]. split; [done|]. split; [apply closed_close|congruence].
Qed.

Lemma accepted_cons k g commands :
  accepted (any := any) k (g :: commands)
  = Accepted k g :: accepted (S k) commands.
Proof.
  unfold accepted. cbn. rewrite Nat.add_0_r. f_equal.
  apply imap_ext. intros i x _. cbn. f_equal. lia.
Qed.

Lemma admissions_accepted k commands :
  admissions (accepted (any := any) k commands)
  = imap (fun i g => (k + i, g)) commands.
Proof.
  revert k. induction commands as [|g commands IH]; intros k; [done|].
  rewrite accepted_cons. cbn. rewrite Nat.add_0_r. f_equal.
  change (omap _ (accepted (S k) commands))
    with (admissions (accepted (any := any) (S k) commands)).
  rewrite IH. apply imap_ext. intros i x _. cbn. f_equal. lia.
Qed.

Lemma accepted_no_ran k commands p i o :
  Ran p i o ∉ accepted (any := any) k commands.
Proof.
  unfold accepted. intros [j Hj]%list_elem_of_lookup.
  rewrite list_lookup_imap in Hj. by destruct (commands !! j).
Qed.

Lemma settles_accept_nothing tr s s' obs :
  Forall is_settle tr → run tr s = Some (s', obs) → admissions obs = [].
Proof.
  intros Htr Hrun.
  refine (run_invariant_where is_settle (fun L _ => admissions L = [])
            _ tr [] s s' obs Htr eq_refl Hrun).
  clear. intros L a s s' ob Ha HL Hstep. rewrite admissions_app, HL.
  destruct a; try done. cbn in Hstep.
  destruct (take_reaction p (reactions s)) as [[i rest]|]; [|done].
  cbn in Hstep. by simplify_eq.
Qed.

(** The promise of a batch resolves with one slot per command, in the
    order of the commands. *)
Lemma batch_results (o : PoolOptions) commands s1 tr s obs r :
  commands ≠ [] →
  enqueue_each commands (new_PromisePool (Some o)) = inr s1 →
  Forall is_settle tr → run tr (close s1) = Some (s, obs) →
  promise s = Fulfilled r →
  length r = length commands
  ∧ ∀ i g, commands !! i = Some g →
      ∃ o', Ran (generate g) i o' ∈ obs
            ∧ r !! i = Some (Some (slot_of i o')).
Proof.
  intros Hne He Htr Hrun Hp.
  destruct (batch_run o commands Hne) as (s1' & He' & Hrun0 & _).
  assert (s1' = s1) as -> by congruence.
  pose proof (run_app _ _ _ _ _ _ _ Hrun0 Hrun) as Hall.
  assert (Hrej : is_rejected s = false) by (unfold is_rejected; by rewrite Hp).
  pose proof (ordered_run _ _ _ _ Hall Hrej) as Ho.
  destruct (settled_complete _ _ _ Ho Hp) as [Hlen Hslots].
  assert (Ha : admissions ((accepted 0 commands ++ [Returned]) ++ obs)
               = imap (fun i g => (i, g)) commands).
  { rewrite !admissions_app, (settles_accept_nothing _ _ _ _ Htr Hrun).
    rewrite admissions_accepted. cbn. by rewrite !app_nil_r. }
  rewrite Ha in Hlen, Hslots. rewrite length_imap in Hlen.
  split; [done|]. intros i g Hg.
  destruct (Hslots i i g) as (_ & o' & Hr & Hs).
  { by rewrite list_lookup_imap, Hg. }
  exists o'. split; [|done].
  assert (Hin : Ran (generate g) i o'
                ∈ (accepted 0 commands ++ [Returned]) ++ obs).
  { apply runs_of_elem. rewrite Hr. by left. }
  apply elem_of_app in Hin as [Hin|Hin]; [|done].
  apply elem_of_app in Hin as [Hin|Hin%list_elem_of_singleton]; [|done].
  by apply accepted_no_ran in Hin.
Qed.

(** The promises of the first commands of a batch. *)
Lemma batched_running_commands commands m s :
  batched commands m s → running s = generate <$> take m commands.
Proof.
  intros [[Hre Hru _ _ _ _ _ _ _] _ _]. rewrite Hru, Hre.
  rewrite <- list_fmap_compose, !fmap_take. f_equal.
  unfold entries. rewrite fmap_imap, <- (imap_const generate).
  by apply imap_ext.
Qed.

Lemma batch_no_ran commands obs p i o :
  Ran p i o ∈ (accepted (any := any) 0 commands ++ [Returned]) ++ obs →
  Ran p i o ∈ obs.
Proof.
  intros [Hin|Hin]%elem_of_app; [|done].
  apply elem_of_app in Hin as [Hin|Hin%list_elem_of_singleton]; [|done].
  by apply accepted_no_ran in Hin.
Qed.

(** X15. [parallel(commands, options)] with at least one command never
    throws: it builds a pool, enqueues every command and closes the pool,
    which leaves the first commands in flight, in order, as many as the
    cap allows, and the others queued, in order.  With no options the cap
    is [Infinity] and every command is in flight when [parallel]
    returns. *)
Theorem parallel_launches_at_once commands (options : option PoolOptions) :
  commands ≠ [] →
  ∃ s : @PromisePool any,
    parallel commands options = inr (Promise_of s)
    ∧ run (calls commands) (new_PromisePool (Some (parallel_options options)))
      = Some (s, accepted 0 commands ++ [Returned])
    ∧ (let m := capacity (size s) (length commands) in
       running s = generate <$> take m commands
       ∧ reactions s = queued_reaction <$> take m (entries commands)
       ∧ enqueued s = drop m (entries commands))
    ∧ isClosed s = true ∧ isStarted s = true ∧ promise s = Pending
    ∧ (options = None → running s = generate <$> commands ∧ enqueued s = []).
Proof.
  intros Hne.
  destruct (batch_run (parallel_options options) commands Hne)
    as (s1 & He & Hrun & Hb & Hst & Hcl & Hsz).
  exists (close s1). split.
  { unfold parallel. destruct commands as [|g commands]; [done|].
    change (new_PromisePool (Some _))
      with (new_PromisePool (any := any) (Some (parallel_options options))).
    by rewrite He. }
  split; [done|]. rewrite <- Hsz in Hb. split.
  { cbn zeta. split; [by apply batched_running_commands|].
    destruct Hb as [[] _ _]. done. }
  split; [done|]. split; [done|].
  split; [by destruct Hb as [[] _ _]|].
  intros ->. cbn in Hsz. rewrite Hsz in Hb. cbn in Hb.
  rewrite (batched_running_commands _ _ _ Hb).
  destruct Hb as [[_ _ -> _ _ _ _ _ _] _ _].
  rewrite take_ge by done. split; [done|].
  apply drop_ge. by rewrite entries_length.
Qed.

(** X16. [serie(commands, options)] with at least one command never
    throws: it builds a pool of cap 1, whatever the options, and when it
    returns the first command is in flight and the others are queued, in
    order. *)
Theorem serie_launches_first g commands (options : option PoolOptions) :
  ∃ s : @PromisePool any,
    serie (g :: commands) options = inr (Promise_of s)
    ∧ run (calls (g :: commands))
        (new_PromisePool (Some (serie_options options)))
      = Some (s, accepted 0 (g :: commands) ++ [Returned])
    ∧ size s = Fin 1
    ∧ running s = [generate g] ∧ reactions s = [(generate g, 0)]
    ∧ enqueued s = drop 1 (entries (g :: commands))
    ∧ isClosed s = true ∧ isStarted s = true ∧ promise s = Pending.
Proof.
  destruct (batch_run (serie_options options) (g :: commands) ltac:(done))
    as (s1 & He & Hrun & Hb & Hst & Hcl & Hsz).
  exists (close s1). split.
  { unfold serie.
    change (new_PromisePool (Some _))
      with (new_PromisePool (any := any) (Some (serie_options options))).
    by rewrite He. }
  split; [done|]. split; [done|].
  assert (Hc : capacity
                 (size (new_PromisePool (any := any)
                          (Some (serie_options options))))
                 (length (g :: commands)) = 1).
  { change (S (length commands) `min` Z.to_nat 1 = 1).
    change (Z.to_nat 1) with 1. lia. }
  rewrite Hc in Hb.
  rewrite (batched_running_commands _ _ _ Hb).
  destruct Hb as [[-> _ -> _ _ _ ? _ _] _ _]. done.
Qed.

(** X17. The promise [parallel] returns, when it is fulfilled, holds one
    slot per command, in the order of the commands, whatever the order in
    which the commands ended: the slot of a command holds the outcome its
    continuation received. *)
Theorem parallel_results_in_command_order commands
    (options : option PoolOptions) (s0 : @PromisePool any) tr s obs r :
  parallel commands options = inr (Promise_of s0) →
  Forall is_settle tr → run tr s0 = Some (s, obs) →
  promise s = Fulfilled r →
  length r = length commands
  ∧ ∀ i g, commands !! i = Some g →
      ∃ o, Ran (generate g) i o ∈ obs ∧ r !! i = Some (Some (slot_of i o)).
Proof.
  unfold parallel. destruct commands as [|g commands]; [done|].
  change (new_PromisePool (Some _))
    with (new_PromisePool (any := any) (Some (parallel_options options))).
  destruct (enqueue_each _ _) as [|s1] eqn:He; [done|].
  intros [= <-] Htr Hrun Hp.
  by eapply (batch_results (parallel_options options) (g :: commands)).
Qed.


End Batches.

Lemma parallel_launches_at_once_witness :
  three_commands ≠ []
  ∧ ∃ s : @PromisePool nat,
      parallel three_commands None = inr (Promise_of s)
      ∧ run (calls three_commands)
          (new_PromisePool (Some (parallel_options None)))
        = Some (s, accepted 0 three_commands ++ [Returned])
      ∧ (let m := capacity (size s) (length three_commands) in
         running s = generate <$> take m three_commands
         ∧ reactions s = queued_reaction <$> take m (entries three_commands)
         ∧ enqueued s = drop m (entries three_commands))
      ∧ isClosed s = true ∧ isStarted s = true ∧ promise s = Pending
      ∧ (@None PoolOptions = None →
         running s = generate <$> three_commands ∧ enqueued s = []).
Proof.
  assert (Hne : three_commands ≠ []) by discriminate.
  split; [exact Hne|].
  exact (parallel_launches_at_once (any := nat) three_commands None Hne).
Defined.

Lemma parallel_results_in_command_order_witness :
  let s0 : @PromisePool nat := promised (parallel three_commands None) in
  let s := final_from last_first s0 in
  let obs := observed_from last_first s0 in
  let r := [Some (PoolErrorImpl "Promise 0 was rejected" 7);
            Some (Value 2); Some (Value 3)] in
  parallel three_commands None = inr (Promise_of s0)
  ∧ Forall is_settle last_first
  ∧ run last_first s0 = Some (s, obs)
  ∧ promise s = Fulfilled r
  ∧ length r = length three_commands
  ∧ ∀ i g, three_commands !! i = Some g →
      ∃ o, Ran (generate g) i o ∈ obs ∧ r !! i = Some (Some (slot_of i o)).
Proof.
  intros s0 s obs r.
  assert (Hpar : parallel three_commands None = inr (Promise_of s0))
    by (vm_compute; reflexivity).
  assert (Htr : Forall is_settle last_first)
    by (repeat (constructor; [exact I|]); constructor).
  assert (Hrun : run last_first s0 = Some (s, obs))
    by (vm_compute; reflexivity).
  assert (Hp : promise s = Fulfilled r) by (vm_compute; reflexivity).
  split; [exact Hpar|]. split; [exact Htr|]. split; [exact Hrun|].
  split; [exact Hp|].
  exact (parallel_results_in_command_order three_commands None s0
           last_first s obs r Hpar Htr Hrun Hp).
Defined.


(** ** Diagnostics *)

Section Diagnostics.

Context {any : Type}.
Implicit Types s : @PromisePool any.
Implicit Types L obs : list (@observation any).

Lemma verbose_off lv args s : silent (options s) → verbose lv args s = s.
Proof.
  intros Hs. unfold verbose, verbose_out.
  destruct Hs as [-> | ->]; rewrite app_nil_r; by destruct s.
Qed.

Lemma emit_loop_diagnostics type es s :
  diagnostics (emit_loop type es s) = diagnostics s.
Proof.
  revert s. induction es as [|[cb o] rest IH]; intros s; [done|].
  cbn [emit_loop]. rewrite IH. by destruct o.
Qed.

Lemma core_options s s' : core s' = core s → options s' = options s.
Proof. intros H%core_fields. tauto. Qed.

Lemma emit_diagnostics type s :
  silent (options s) → diagnostics (emit type s) = diagnostics s.
Proof.
  intros Hs. unfold emit. cbn [listeners set_emitted].
  destruct (listeners s !! type); [|done].
  by rewrite emit_loop_diagnostics, verbose_off.
Qed.

Lemma launch_diagnostics q s added :
  silent (options s) →
  diagnostics (launch q s added).1 = diagnostics s
  ∧ options (launch q s added).1 = options s.
Proof.
  revert s added. induction q as [|e q IH]; intros s added Hs; [done|].
  cbn [launch]. destruct (length_lt _ _); [|done].
  rewrite verbose_off by done.
  match goal with
  | |- context [launch q ?x ?a] => destruct (IH x a) as [-> ->]; done
  end.
Qed.

Lemma resolve_diagnostics v s :
  diagnostics (resolve v s) = diagnostics s
  ∧ options (resolve v s) = options s.
Proof. unfold resolve. by destruct (promise s). Qed.

Lemma runNext_diagnostics s :
  silent (options s) → diagnostics (runNext s) = diagnostics s.
Proof.
  intros Hs. unfold runNext. destruct (isStarted s); [|done].
  destruct (enqueued s) as [|e q] eqn:Hq.
  - destruct (running s) as [|p r].
    + destruct (isClosed s).
      * rewrite verbose_off by done.
        match goal with
        | |- diagnostics (resolve ?v ?x) = _ =>
            by destruct (resolve_diagnostics v x) as [-> _]
        end.
      * by rewrite verbose_off.
    + destruct (length_eq_pred _ _).
      * rewrite verbose_off
          by (by rewrite (core_options _ _ (emit_core Eavailable s))).
        by apply emit_diagnostics.
      * by rewrite verbose_off.
  - destruct (launch_diagnostics (e :: q) s 0 Hs) as [Hd Ho].
    destruct (launch (e :: q) s 0) as [s' added]. cbn in Hd, Ho.
    destruct (length_ge _ _); [|done]. destruct added; [done|].
    rewrite emit_diagnostics by (by rewrite Ho). done.
Qed.

Lemma start_diagnostics s :
  silent (options s) → diagnostics (start s) = diagnostics s.
Proof.
  intros Hs. unfold start. destruct (isStarted s).
  - by apply runNext_diagnostics.
  - pose proof (core_options _ _ (emit_core Estart s)) as Ho.
    rewrite (verbose_off Linfo [Str "start pool"] (emit Estart s))
      by (by rewrite Ho).
    rewrite runNext_diagnostics by (by rewrite <- Ho in Hs).
    change (diagnostics (emit Estart s) = diagnostics s).
    by apply emit_diagnostics.
Qed.

Lemma step_diagnostics a s s' ob :
  silent (options s) → step a s = Some (s', ob) →
  diagnostics s'
  = diagnostics s
    ++ match ob with
       | Ran p i (Rejects e) =>
           if isResolved s then []
           else if default false (options s ≫= rejectOnError) then []
           else match indexOf p (running s) with
                | Some _ => [(Console, Lerror, [Obj e])]
                | None => []
                end
       | _ => []
       end.
Proof.
  intros Hs Hstep.
  destruct a as [|g| |t cb|t cb|p o]; cbn in Hstep.
  - injection Hstep as <- <-. by rewrite app_nil_r, start_diagnostics.
  - unfold enqueue in Hstep. destruct (isClosed s).
    { injection Hstep as <- <-. by rewrite app_nil_r. }
    destruct (isResolved s).
    { injection Hstep as <- <-. by rewrite app_nil_r. }
    injection Hstep as <- <-. rewrite app_nil_r, verbose_off by done.
    destruct (_ && _).
    + by rewrite start_diagnostics.
    + cbn. destruct (isStarted s); [|done].
      by rewrite runNext_diagnostics.
  - injection Hstep as <- <-. unfold close.
    rewrite app_nil_r, verbose_off by done.
    by rewrite start_diagnostics.
  - injection Hstep as <- <-. by rewrite app_nil_r.
  - injection Hstep as <- <-. by rewrite app_nil_r.
  - destruct (take_reaction p (reactions s)) as [[i rest]|]; [|done].
    cbn in Hstep. injection Hstep as <- <-.
    change (diagnostics s) with (diagnostics (set_reactions rest s)).
    change (isResolved s) with (isResolved (set_reactions rest s)).
    change (options s) with (options (set_reactions rest s)) in *.
    change (running s) with (running (set_reactions rest s)).
    generalize dependent (set_reactions rest s). clear. intros x Hs.
    destruct (isResolved x) eqn:Hres.
    { destruct o;
        rewrite ?promiseDone_settled, ?promiseRejected_settled by done;
        by rewrite app_nil_r. }
    destruct (indexOf p (running x)) as [n|] eqn:Hi.
    2: { destruct o as [v|e].
         - rewrite promiseDone_unknown, verbose_off by done.
           by rewrite app_nil_r.
         - rewrite promiseRejected_unknown, verbose_off by done.
           destruct (default _ _); by rewrite app_nil_r. }
    destruct o as [v|e].
    + rewrite (promiseDone_tracked _ _ _ _ n) by done.
      rewrite verbose_off by done.
      rewrite runNext_diagnostics
        by (by rewrite (core_options _ _ (emit_core Enext _))).
      rewrite emit_diagnostics by done. by rewrite app_nil_r.
    + rewrite (promiseRejected_tracked _ _ _ _ n) by done. cbn zeta.
      destruct (default false (options x ≫= rejectOnError)).
      * rewrite verbose_off.
        -- unfold reject. cbn. destruct (promise x); by rewrite app_nil_r.
        -- unfold reject. cbn. by destruct (promise x).
      * match goal with
        | |- diagnostics (verbose _ _ (runNext (emit Enext ?z))) = _ =>
            assert (Hy : silent (options z)) by done;
            assert (Hd : diagnostics z
                         = diagnostics x ++ [(Console, Lerror, [Obj e])])
              by done;
            generalize dependent z
        end.
        intros y Hy Hd.
        assert (He : silent (options (emit Enext y)))
          by (by rewrite (core_options _ _ (emit_core Enext y))).
        rewrite verbose_off.
        -- by rewrite runNext_diagnostics, emit_diagnostics.
        -- destruct (runNext_static (emit Enext y)) as (-> & _). done.
Qed.

Lemma console_errors_app L L' :
  console_errors (L ++ L') = console_errors L ++ console_errors L'.
Proof. unfold console_errors. by rewrite omap_app. Qed.


End Diagnostics.


(** ** [timeout] *)

Section TimeoutProperties.

Context {T any : Type}.
Implicit Types s : @Timeout.state T.
Implicit Types evs : list (@Timeout.event T any).
Implicit Types ev : @Timeout.event T any.

Lemma timeout_consistent_step ev s s' :
  timeout_consistent s → Timeout.step ev s = Some s' → timeout_consistent s'.
Proof.
  unfold timeout_consistent. intros Hs.
  destruct ev as [|v|e]; cbn.
  - destruct (Timeout.timer s) eqn:Ht; [|done]. intros [= <-].
    unfold Timeout.on_timer, Timeout.rej. cbn.
    destruct (Timeout.promise s) eqn:Hp.
    + destruct Hs as (_ & Hl & Hr). rewrite Hr. cbn. by rewrite ?Hp.
    + destruct Hs as (? & _). congruence.
    + destruct Hs as (_ & ? & _). congruence.
  - destruct (Timeout.watching s); [|done]. intros [= <-].
    unfold Timeout.on_value, Timeout.res, Timeout.rej. cbn.
    destruct (Timeout.promise s) eqn:Hp.
    + destruct Hs as (_ & Hl & Hr). rewrite Hl. cbn. by rewrite ?Hp.
    + destruct Hs as (Ht & Hl & Hr). rewrite Hl. cbn. by rewrite ?Hp.
    + destruct Hs as (-> & Ht & Hl & Hr). rewrite Hl. cbn. by rewrite ?Hp.
  - destruct (Timeout.watching s); [|done]. intros [= <-]. cbn.
    exact Hs.
Qed.

Lemma timeout_consistent_run evs s s' :
  timeout_consistent s → Timeout.run evs s = Some s' → timeout_consistent s'.
Proof.
  revert s. induction evs as [|ev evs IH]; intros s Hs; cbn.
  - by intros [= <-].
  - destruct (Timeout.step ev s) as [s1|] eqn:H1; [|done]. cbn.
    apply IH. by eapply timeout_consistent_step.
Qed.

(** A settled promise keeps its state. *)
Lemma timeout_settled_run evs s s' :
  timeout_consistent s → Timeout.promise s ≠ Timeout.Pending →
  Timeout.run evs s = Some s' → Timeout.promise s' = Timeout.promise s.
Proof.
  revert s. induction evs as [|ev evs IH]; intros s Hs Hp; cbn.
  - by intros [= <-].
  - destruct (Timeout.step ev s) as [s1|] eqn:H1; [|done]. cbn.
    assert (Timeout.promise s1 = Timeout.promise s) as Hp1.
    { unfold timeout_consistent in Hs.
      destruct ev as [|v|e]; cbn in H1.
      - destruct (Timeout.timer s) eqn:Ht; [|done].
        destruct (Timeout.promise s); [done|..].
        + destruct Hs as (? & _). congruence.
        + destruct Hs as (_ & ? & _). congruence.
      - destruct (Timeout.watching s); [|done]. injection H1 as <-.
        unfold Timeout.on_value, Timeout.res, Timeout.rej. cbn.
        destruct (Timeout.isTooLate s);
          destruct (Timeout.promise s) eqn:E; cbn; by rewrite ?E.
      - destruct (Timeout.watching s); [|done]. by injection H1 as <-. }
    intros Hrun. rewrite <- Hp1. apply IH; [|congruence|done].
    by eapply timeout_consistent_step.
Qed.

(** X20. What [timeout(p, delay)] returns is decided by the first of
    two events: its promise is fulfilled with the value of [p] when [p]
    is fulfilled before the timer fires, and rejected with the error
    [Promise timed out] when the timer fires first.  A failure of [p]
    decides nothing: the promise stays pending until the timer fires. *)
Theorem timeout_first_event_decides evs s :
  Timeout.run evs Timeout.timeout = Some s →
  Timeout.promise s = decided evs.
Proof.
  assert (Hgen : ∀ evs s0 s,
    timeout_consistent s0 → Timeout.promise s0 = Timeout.Pending →
    Timeout.run evs s0 = Some s →
    Timeout.promise s = decided evs).
  { clear. induction evs as [|ev evs IH]; intros s0 s Hs Hp; cbn.
    - intros [= <-]. done.
    - destruct (Timeout.step ev s0) as [s1|] eqn:H1; [|done]. cbn.
      intros Hrun.
      pose proof (timeout_consistent_step _ _ _ Hs H1) as Hs1.
      unfold timeout_consistent in Hs. rewrite Hp in Hs.
      destruct Hs as (Ht & Hl & Hr).
      destruct ev as [|v|e]; cbn in H1.
      + rewrite Ht in H1. injection H1 as <-.
        rewrite (timeout_settled_run _ _ _ Hs1 ltac:(
          unfold Timeout.on_timer, Timeout.rej; cbn;
          rewrite Hr; cbn; rewrite Hp; done) Hrun).
        unfold Timeout.on_timer, Timeout.rej. cbn. rewrite Hr. cbn.
        by rewrite Hp.
      + destruct (Timeout.watching s0); [|done]. injection H1 as <-.
        rewrite (timeout_settled_run _ _ _ Hs1 ltac:(
          unfold Timeout.on_value, Timeout.res; cbn;
          rewrite Hl; cbn; rewrite Hp; done) Hrun).
        unfold Timeout.on_value, Timeout.res. cbn. rewrite Hl. cbn.
        by rewrite Hp.
      + destruct (Timeout.watching s0); [|done]. injection H1 as <-.
        eapply IH; [exact Hs1|exact Hp|exact Hrun]. }
  intros Hrun. by apply (Hgen evs Timeout.timeout s).
Qed.

(** X21. The promise of [timeout] cannot hang once its timer is gone:
    as long as the promise is pending the timer is set; once the promise
    is settled the timer is cleared or has fired; and the promise is
    never rejected with anything but the error of the timer, whatever
    becomes of [p]. *)
Theorem timeout_pending_iff_timer_set evs s :
  Timeout.run evs Timeout.timeout = Some s →
  (Timeout.promise s = Timeout.Pending ↔ Timeout.timer s = true)
  ∧ (∀ r, Timeout.promise s = Timeout.Rejected r →
       r = Timeout.TimedOut "Promise timed out")
  ∧ (Timeout.isResolved s = true ↔ ∃ v, Timeout.promise s = Timeout.Fulfilled v)
  ∧ (Timeout.isTooLate s = true ↔ ∃ r, Timeout.promise s = Timeout.Rejected r).
Proof.
  intros Hrun.
  assert (Hs : timeout_consistent s).
  { eapply timeout_consistent_run; [|exact Hrun]. done. }
  unfold timeout_consistent in Hs.
  destruct (Timeout.promise s) as [|v|r] eqn:Hp.
  - destruct Hs as (Ht & Hl & Hr). rewrite Ht, Hl, Hr.
    repeat split; try done; intros [? ?]; done.
  - destruct Hs as (Ht & Hl & Hr). rewrite Ht, Hl, Hr.
    repeat split; try done; try (intros [? ?]; done). by exists v.
  - destruct Hs as (-> & Ht & Hl & Hr). rewrite Ht, Hl, Hr.
    repeat split; try done; try (intros [? ?]; done).
    + by intros ? [= <-].
    + by eexists.
Qed.

End TimeoutProperties.

Lemma timeout_first_event_decides_witness :
  let s := timeout_final fails_then_fires in
  Timeout.run fails_then_fires Timeout.timeout = Some s
  ∧ Timeout.promise s = decided fails_then_fires.
Proof.
  intros s.
  assert (Hrun : Timeout.run fails_then_fires Timeout.timeout = Some s)
    by (vm_compute; reflexivity).
  split; [exact Hrun|].
  exact (timeout_first_event_decides fails_then_fires s Hrun).
Defined.

Lemma timeout_pending_iff_timer_set_witness :
  let s := timeout_final fulfilled_in_time in
  Timeout.run fulfilled_in_time Timeout.timeout = Some s
  ∧ (Timeout.promise s = Timeout.Pending ↔ Timeout.timer s = true)
  ∧ (∀ r, Timeout.promise s = Timeout.Rejected r →
       r = Timeout.TimedOut "Promise timed out")
  ∧ (Timeout.isResolved s = true
     ↔ ∃ v, Timeout.promise s = Timeout.Fulfilled v)
  ∧ (Timeout.isTooLate s = true
     ↔ ∃ r, Timeout.promise s = Timeout.Rejected r).
Proof.
  intros s.
  assert (Hrun : Timeout.run fulfilled_in_time Timeout.timeout = Some s)
    by (vm_compute; reflexivity).
  split; [exact Hrun|].
  exact (timeout_pending_iff_timer_set fulfilled_in_time s Hrun).
Defined.
